(** * WhatsApp bot: connection lifecycle, session store and message queue

    Shallow embedding of the two entry points of the repository:

    - the production server (the file that starts with the banner
      "Production-Grade WhatsApp Bot for Google Cloud Run"): retry policy with
      jitter, [SessionLock], session store, [MessageQueue] and the
      [BaileysWhatsAppBot] class;
    - [index.js], the smaller entry point without lock and queue, in
      [Module IndexJs], for the functions whose text differs.

    Asynchronous code is modelled by explicit state passing.  Every [await]
    is a point where the caller supplies what happened meanwhile (the
    outcome of an engine call, the messages enqueued by other handlers),
    so interleavings are inputs of the model, not hidden in it.  The first
    part of the file holds the model, the second part its properties. *)

From Stdlib Require Import ZArith QArith Qminmax Qpower Lqa String Ascii List Lia Bool.
From stdpp Require Import base option list strings gmap.

Local Open Scope Z_scope.

(** * Part I: the model *)

(** ** JavaScript strings *)

Module JsString.

(** [\d] of a JavaScript regular expression without the unicode flag. *)
Definition is_digit (c : ascii) : bool :=
  ((48 <=? N_of_ascii c)%N && (N_of_ascii c <=? 57)%N)%bool.

(** [s.replace(/\D/g, '')] *)
Fixpoint strip_non_digits (s : string) : string :=
  match s with
  | EmptyString => EmptyString
  | String c r =>
      if is_digit c then String c (strip_non_digits r) else strip_non_digits r
  end.

(** [s.startsWith(p)] *)
Fixpoint startsWith (p s : string) : bool :=
  match p with
  | EmptyString => true
  | String a p' =>
      match s with
      | EmptyString => false
      | String b s' => Ascii.eqb a b && startsWith p' s'
      end
  end.

(** [s.includes(c)] for a one-character needle. *)
Fixpoint includes (c : ascii) (s : string) : bool :=
  match s with
  | EmptyString => false
  | String d r => if Ascii.eqb c d then true else includes c r
  end.

(** [s.endsWith(t)]: [t] is not longer than [s] and the last
    [t.length] characters of [s] are [t]. *)
Definition endsWith (t s : string) : bool :=
  (String.length t <=? String.length s)%nat
  && String.eqb
       (String.substring (String.length s - String.length t)
                         (String.length t) s) t.

(** [!v] for a value that is [undefined] or a string: the empty string
    is falsy as well. *)
Definition falsy (v : option string) : bool :=
  match v with
  | None => true
  | Some s => String.eqb s EmptyString
  end.

End JsString.

(** ** Recipient normalisation (the same text in both entry points) *)

Definition jid_suffix : string := "@s.whatsapp.net".

(** [toWhatsAppJID(phoneNumber)] *)
Definition toWhatsAppJID (phoneNumber : string) : string :=
  let cleaned := JsString.strip_non_digits phoneNumber in
  let formatted :=
    if negb (JsString.startsWith "55" cleaned)
       && (String.length cleaned <=? 11)%nat
    then "55" +:+ cleaned else cleaned in
  if negb (JsString.includes "@" formatted)
  then formatted +:+ jid_suffix else formatted.

(** ** Configuration of the production server ([CONFIG]) *)

Module CONFIG.
Definition maxRetries : Z := 3.
Definition baseRetryDelay : Q := 1000.
Definition maxRetryDelay : Q := 30000.
Definition lockTtlMs : Z := 300000.
Definition qrDebounceMs : Z := 5000.
Definition messageQueueMaxSize : nat := 100.
Definition messageRetryDelay : Z := 2000.

(** [s.replace(/\/+$/, '')]: the string without its trailing run of
    slashes. *)
Fixpoint strip_trailing_slashes (s : string) : string :=
  match s with
  | EmptyString => EmptyString
  | String c r =>
      match strip_trailing_slashes r with
      | EmptyString => if Ascii.eqb c "/" then EmptyString else String c EmptyString
      | r' => String c r'
      end
  end.

(** [(process.env.SESSIONS_PREFIX || 'sessions/whatsapp-bot').replace(/\/+$/, '') + '/'];
    [env] is the environment variable, [None] when it is not set. *)
Definition sessionsPrefix (env : option string) : string :=
  strip_trailing_slashes
    (if JsString.falsy env then "sessions/whatsapp-bot" else default EmptyString env)
  +:+ "/".
End CONFIG.

(** ** Errors and results of asynchronous calls *)

(** A thrown [Error]: its [message] and, for storage errors, its [code]. *)
Record JsError := mkError { message : string; code : option Z }.

(** How an [async] function ends. [ReturnedUndefined] is falling off the
    end of the body. *)
Inductive Outcome (A : Type) :=
| Returned (a : A)
| ReturnedUndefined
| Threw (e : JsError).
Arguments Returned {A} a.
Arguments ReturnedUndefined {A}.
Arguments Threw {A} e.

(** ** JavaScript values *)

(** A value as [express.json()] delivers it in a request body, or
    [undefined] for a field that is absent.  [JsObject] stands for the
    arrays and objects; none of them is a string, and all are truthy. *)
Inductive JsValue :=
| JsUndefined
| JsNull
| JsBool (b : bool)
| JsNumber (q : Q)
| JsStr (s : string)
| JsObject.

Coercion JsStr : string >-> JsValue.

(** [!!v] *)
Definition truthy (v : JsValue) : bool :=
  match v with
  | JsUndefined | JsNull => false
  | JsBool b => b
  | JsNumber q => negb (Qeq_bool q 0)
  | JsStr s => negb (String.eqb s EmptyString)
  | JsObject => true
  end.

(** [typeof v === 'string'] *)
Definition is_string (v : JsValue) : bool :=
  match v with
  | JsStr _ => true
  | _ => false
  end.

(** A thrown [TypeError]. *)
Definition TypeError (message : string) : JsError := mkError message None.

(** [toWhatsAppJID(v)] for a value that need not be a string: the
    first thing the function does is to call [v.replace]. *)
Definition call_toWhatsAppJID (v : JsValue) : JsError + string :=
  match v with
  | JsStr s => inr (toWhatsAppJID s)
  | JsUndefined => inl (TypeError "Cannot read properties of undefined (reading 'replace')")
  | JsNull => inl (TypeError "Cannot read properties of null (reading 'replace')")
  | _ => inl (TypeError "phoneNumber.replace is not a function")
  end.

(** [v.substring(0, n)] *)
Definition call_substring (n : nat) (v : JsValue) : JsError + string :=
  match v with
  | JsStr s => inr (String.substring 0 n s)
  | JsUndefined => inl (TypeError "Cannot read properties of undefined (reading 'substring')")
  | JsNull => inl (TypeError "Cannot read properties of null (reading 'substring')")
  | _ => inl (TypeError "message.substring is not a function")
  end.

(** ** Retry policy: [getBackoffDelay] and [withRetry] *)

Module Retry.

(** What [withRetry] does besides computing its result, in order. *)
Inductive Event (A : Type) :=
| Invoked (r : JsError + A)
| LogWarn (operationName : string) (attempt maxRetries : Z) (error : string)
| LogError (operationName : string) (attempts : Z) (error : string)
| LogInfo (operationName : string) (delay : Q) (nextAttempt : Z)
| Slept (delay : Q).
Arguments Invoked {A} r.
Arguments LogWarn {A} _ _ _ _.
Arguments LogError {A} _ _ _.
Arguments LogInfo {A} _ _ _.
Arguments Slept {A} _.

(** [getBackoffDelay(attempt, baseDelay)]; [random] is the value that
    [Math.random()] returns in this call.  Arithmetic is exact (rational)
    where the source computes in double precision. *)
Definition exponentialDelay (baseDelay : Q) (attempt : Z) : Q :=
  baseDelay * Qpower 2 (attempt - 1).

Definition jitter (random : Q) (baseDelay : Q) (attempt : Z) : Q :=
  random * (1 # 10) * exponentialDelay baseDelay attempt.

Definition getBackoffDelay (random : Q) (attempt : Z) (baseDelay : Q) : Q :=
  Qmin (exponentialDelay baseDelay attempt + jitter random baseDelay attempt)
       CONFIG.maxRetryDelay.

Section WithRetry.
Context {St A : Type}.
(** The operation acts on the state of the world and either throws or
    returns. *)
Variable operation : St → (JsError + A) * St.
Variable operationName : string.
Variable maxRetries : Z.
(** [random k] is what [Math.random()] returns after the [k]-th failure. *)
Variable random : Z → Q.

(** The [for] loop of [withRetry], entered with [attempt]; [fuel] bounds
    the number of iterations. *)
Fixpoint withRetry_loop (fuel : nat) (attempt : Z) (s : St)
  : Outcome A * St * list (Event A) :=
  match fuel with
  | O => (ReturnedUndefined, s, [])
  | S fuel' =>
      if attempt <=? maxRetries then
        match operation s with
        | (inr a, s') => (Returned a, s', [Invoked (inr a)])
        | (inl error, s') =>
            let warn := LogWarn operationName attempt maxRetries (message error) in
            if attempt =? maxRetries then
              (Threw error, s',
               [Invoked (inl error); warn;
                LogError operationName maxRetries (message error)])
            else
              let delay := getBackoffDelay (random attempt) attempt CONFIG.baseRetryDelay in
              let '(o, s'', tr) := withRetry_loop fuel' (attempt + 1) s' in
              (o, s'',
               Invoked (inl error) :: warn
                 :: LogInfo operationName delay (attempt + 1)
                 :: Slept delay :: tr)
        end
      else (ReturnedUndefined, s, [])
  end.

(** [withRetry(operation, operationName, maxRetries)].  The loop counts
    [attempt] from 1 up to [maxRetries], so [maxRetries] iterations are all
    it can make. *)
Definition withRetry (s : St) : Outcome A * St * list (Event A) :=
  withRetry_loop (Z.to_nat maxRetries) 1 s.

(** Projections of a trace. *)
Definition invocations (tr : list (Event A)) : list (JsError + A) :=
  omap (λ ev, match ev with Invoked r => Some r | _ => None end) tr.

Definition sleeps (tr : list (Event A)) : list Q :=
  omap (λ ev, match ev with Slept d => Some d | _ => None end) tr.

(** [n] calls of the operation in a row: their outcomes and the state
    they leave. *)
Fixpoint calls (n : nat) (s : St) : list (JsError + A) * St :=
  match n with
  | O => ([], s)
  | S n' =>
      let '(r, s') := operation s in
      let '(rs, s'') := calls n' s' in
      (r :: rs, s'')
  end.

(** The delays slept after failures number [a], [a+1], ..., [a+n-1]. *)
Fixpoint delays_from (a : Z) (n : nat) : list Q :=
  match n with
  | O => []
  | S n' =>
      getBackoffDelay (random a) a CONFIG.baseRetryDelay :: delays_from (a + 1) n'
  end.

End WithRetry.

End Retry.

(** ** Remote object store and local session directory *)

Module Storage.

(** [lockData]: the record written into the lock object. *)
Record LockRecord := mkLock { instanceId : string; timestamp : Z; ttl : Z }.

(** Content of a file.  [LockJson r] is [JSON.stringify] of a lock record;
    [Bytes c] is any content on which [JSON.parse] throws (session files
    are opaque to this program). *)
Inductive Blob :=
| LockJson (r : LockRecord)
| Bytes (content : string).

Definition JSON_parse (b : Blob) : JsError + LockRecord :=
  match b with
  | LockJson r => inr r
  | Bytes _ => inl (mkError "Unexpected token in JSON" None)
  end.

(** The world outside the process: the bucket (object name to content),
    the local session directory ([None] while it does not exist; relative
    path to content otherwise) and the number of [Date.now()] readings
    taken so far. *)
Record World := mkWorld {
  bucket : gmap string Blob;
  sessionDir : option (gmap string Blob);
  ticks : nat
}.

Definition set_bucket (b : gmap string Blob) (w : World) : World :=
  mkWorld b (sessionDir w) (ticks w).

Definition set_sessionDir (d : option (gmap string Blob)) (w : World) : World :=
  mkWorld (bucket w) d (ticks w).

(** [file.save(content, { preconditionOpts: { ifGenerationMatch: 0 } })]:
    creates the object, or fails with code 412 when one exists. *)
Definition save_if_absent (name : string) (content : Blob) (b : gmap string Blob)
  : (JsError + unit) * gmap string Blob :=
  match b !! name with
  | Some _ => (inl (mkError "Precondition Failed" (Some 412)), b)
  | None => (inr tt, <[name := content]> b)
  end.

(** [file.download()] *)
Definition download (name : string) (b : gmap string Blob) : JsError + Blob :=
  match b !! name with
  | Some c => inr c
  | None => inl (mkError "No such object" (Some 404))
  end.

(** [file.delete()] *)
Definition delete_file (name : string) (b : gmap string Blob)
  : (JsError + unit) * gmap string Blob :=
  match b !! name with
  | Some _ => (inr tt, delete name b)
  | None => (inl (mkError "No such object" (Some 404)), b)
  end.

(** [bucket.getFiles({ prefix })]: the names of the objects under [prefix]. *)
Definition getFiles (prefix : string) (b : gmap string Blob) : list string :=
  filter (λ name, JsString.startsWith prefix name = true) (map_to_list b).*1.

(** [bucket.upload(localPath, { destination })] *)
Definition upload (destination : string) (content : Blob) (b : gmap string Blob)
  : gmap string Blob :=
  <[destination := content]> b.

(** [fs.rm(dir, { recursive: true, force: true })] and
    [fs.mkdir(dir, { recursive: true })] on the session directory. *)
Definition fs_rm (w : World) : World := set_sessionDir None w.

Definition fs_mkdir (w : World) : World :=
  match sessionDir w with
  | Some _ => w
  | None => set_sessionDir (Some ∅) w
  end.

End Storage.

(** ** Session lock ([class SessionLock]) *)

Module SessionLock.
Import Storage.

Inductive Event :=
| SaveAttempt (created : bool)
| Download
| Delete
| WarnHeld (holder : string) (age : Z)
| WarnInvalid.

Section Lock.
(** [CONFIG.sessionsPrefix], read from the environment at start-up. *)
Variable sessionsPrefix : string.
(** [this.instanceId = crypto.randomUUID()] *)
Variable instanceId : string.
(** [Date_now k] is the [k]-th reading of the clock. *)
Variable Date_now : nat → Z.

Definition lockFile : string := sessionsPrefix +:+ "lock.json".

Definition now (w : World) : Z * World :=
  (Date_now (ticks w), mkWorld (bucket w) (sessionDir w) (S (ticks w))).

(** [releaseLock()]: deletes the lock object; every error is swallowed
    (a 404 silently, any other with a warning). *)
Definition releaseLock (w : World) : World * list Event :=
  (set_bucket (delete_file lockFile (bucket w)).2 w, [Delete]).

(** [acquireLock()].  The method calls itself after breaking a lock;
    [fuel] bounds the depth of these calls and [None] is running out of
    it.  The inner [try] also encloses the recursive call of the expired
    branch, so an error thrown there reaches the inner [catch]. *)
Fixpoint acquireLock_fuel (fuel : nat) (w : World)
  : option (Outcome bool * World * list Event) :=
  match fuel with
  | O => None
  | S fuel' =>
      let '(t, w) := now w in
      let lockData := mkLock instanceId t CONFIG.lockTtlMs in
      match save_if_absent lockFile (LockJson lockData) (bucket w) with
      | (inr _, b') => Some (Returned true, set_bucket b' w, [SaveAttempt true])
      | (inl error, _) =>
          if decide (code error = Some 412) then
            let retry (w : World) (tr : list Event) :=
              let '(w, tr') := releaseLock w in
              match acquireLock_fuel fuel' w with
              | Some (o, w, tr'') => Some (o, w, tr ++ tr' ++ tr'')
              | None => None
              end in
            let inner : option (Outcome bool * World * list Event) :=
              match download lockFile (bucket w) with
              | inl parseError => Some (Threw parseError, w, [SaveAttempt false; Download])
              | inr content =>
                  match JSON_parse content with
                  | inl parseError =>
                      Some (Threw parseError, w, [SaveAttempt false; Download])
                  | inr held =>
                      let '(t', w) := now w in
                      if t' - timestamp held >? ttl held then
                        retry w [SaveAttempt false; Download]
                      else
                        let '(t'', w) := now w in
                        Some (Returned false, w,
                              [SaveAttempt false; Download;
                               WarnHeld (Storage.instanceId held) (t'' - timestamp held)])
                  end
              end in
            match inner with
            | None => None
            | Some (Threw _, w, tr) => retry w (tr ++ [WarnInvalid])
            | Some r => Some r
            end
          else Some (Threw error, w, [SaveAttempt false])
      end
  end.

(** In a store that no other process writes, breaking the lock makes the
    next conditional create succeed, so one nested call is all a call of
    [acquireLock()] makes (lemma [acquireLock_total] below). *)
Definition acquireLock (w : World) : option (Outcome bool * World * list Event) :=
  acquireLock_fuel 2 w.

End Lock.

End SessionLock.

(** ** Session store: download, upload and clear *)

Module SessionStore.
Import Storage.

Section Store.
Variable sessionsPrefix : string.
(** The source of [Math.random()] for the backoff of [withRetry]. *)
Variable random : Z → Q.

(** [name.slice(n)] *)
Definition slice (n : nat) (name : string) : string :=
  String.substring n (String.length name - n) name.

(** [files.filter(f => !f.name.endsWith('lock.json'))] *)
Definition sessionFiles (files : list string) : list string :=
  filter (λ name, JsString.endsWith "lock.json" name = false) files.

(** [for (const file of sessionFiles) await file.delete()]: the first
    failing call ends the loop with its error. *)
Fixpoint delete_each (names : list string) (b : gmap string Blob)
  : (JsError + unit) * gmap string Blob :=
  match names with
  | [] => (inr tt, b)
  | name :: rest =>
      match delete_file name b with
      | (inl error, b') => (inl error, b')
      | (inr _, b') => delete_each rest b'
      end
  end.

(** The function that [clearSessionFromBucket] hands to [withRetry]. *)
Definition clear_operation (w : World) : (JsError + unit) * World :=
  let files := getFiles sessionsPrefix (bucket w) in
  let '(r, b') := delete_each (sessionFiles files) (bucket w) in
  (r, set_bucket b' w).

Definition clearSessionFromBucket (w : World)
  : Outcome unit * World * list (Retry.Event unit) :=
  Retry.withRetry clear_operation "clearSessionFromBucket" CONFIG.maxRetries random w.

(** The loop of [downloadSessionFromBucket]: directory entries (an empty
    relative path) are skipped, every other object is written below the
    session directory. *)
Fixpoint download_each (names : list string) (w : World) : (JsError + unit) * World :=
  match names with
  | [] => (inr tt, w)
  | name :: rest =>
      let relativePath := slice (String.length sessionsPrefix) name in
      if String.eqb relativePath EmptyString then download_each rest w
      else
        let w := fs_mkdir w in
        match download name (bucket w) with
        | inl error => (inl error, w)
        | inr content =>
            download_each rest
              (set_sessionDir (Some (<[relativePath := content]> (default ∅ (sessionDir w)))) w)
        end
  end.

Definition download_operation (w : World) : (JsError + unit) * World :=
  let w := fs_mkdir w in
  let files := getFiles sessionsPrefix (bucket w) in
  match sessionFiles files with
  | [] => (inr tt, w)
  | names => download_each names w
  end.

Definition downloadSessionFromBucket (w : World)
  : Outcome unit * World * list (Retry.Event unit) :=
  Retry.withRetry download_operation "downloadSessionFromBucket" CONFIG.maxRetries random w.

(** [uploadSessionToBucket]: nothing to do without a session directory;
    otherwise each local file is written to [sessionsPrefix + relativePath]. *)
Definition upload_operation (w : World) : (JsError + unit) * World :=
  match sessionDir w with
  | None => (inr tt, w)
  | Some files =>
      (inr tt,
       set_bucket
         (foldl (λ b '(relativePath, content), upload (sessionsPrefix +:+ relativePath) content b)
                (bucket w) (map_to_list files))
         w)
  end.

Definition uploadSessionToBucket (w : World)
  : Outcome unit * World * list (Retry.Event unit) :=
  Retry.withRetry upload_operation "uploadSessionToBucket" CONFIG.maxRetries random w.

End Store.

End SessionStore.

(** ** Message queue ([class MessageQueue]) *)

Module MessageQueue.

(** An entry of [this.queue].  [to] and [message] are whatever the caller
    of [enqueue] passed. *)
Record PendingMessage := mkMessage {
  to : JsValue;
  message : JsValue;
  retries : Z;
  timestamp : Z
}.

(** Where [this.sendMessage(to, message)] stands for the entry the loop has
    taken: the check of the connection and the call of [toWhatsAppJID] are
    made when the call starts, the engine answers later.  [Rejected] is a
    call that [toWhatsAppJID] ended with an error, for a recipient that is
    not a string. *)
Inductive SendState :=
| NotConnected
| EngineCalled (jid : string) (text : JsValue)
| Rejected (error : JsError).

(** [queue] and [processing] are the fields of the class; [item] is the
    local variable of the suspended [processQueue], with its pending send. *)
Record State := mkState {
  queue : list PendingMessage;
  processing : bool;
  item : option (PendingMessage * SendState)
}.

(** A call of [enqueue] by a handler: the arguments, the clock reading and
    whether the bot is connected at that moment
    ([this.bot && this.bot.sock && this.bot.isConnected]). *)
Record Arrival := mkArrival {
  a_to : JsValue;
  a_message : JsValue;
  a_retries : Z;
  a_now : Z;
  a_connected : bool
}.

(** What happens while one entry is processed: the answer of the engine
    (used only if the engine was called), the calls of [enqueue] that run
    during each [await], and the connection state when the loop comes back
    to its head. *)
Record Await := mkAwait {
  engine : JsError + string;
  during_send : list Arrival;
  during_retry_delay : list Arrival;
  during_rate_limit : list Arrival;
  connected : bool
}.

Inductive Event :=
| Attempted (it : PendingMessage) (result : JsError + string)
| Requeued (it : PendingMessage)
| Dropped (it : PendingMessage)
| Slept (ms : Z).

(** The start of [sendMessage]: throws at once when not connected;
    otherwise normalises the recipient, which throws when it is not a
    string, and calls the engine. *)
Definition sendMessage_start (is_connected : bool) (it : PendingMessage) : SendState :=
  if is_connected then
    match call_toWhatsAppJID (to it) with
    | inr jid => EngineCalled jid (message it)
    | inl error => Rejected error
    end
  else NotConnected.

Definition sendMessage_settle (st : SendState) (answer : JsError + string)
  : JsError + string :=
  match st with
  | NotConnected => inl (mkError "WhatsApp not connected" None)
  | EngineCalled _ _ => answer
  | Rejected error => inl error
  end.

(** The head of the [while] loop: [shift] the first entry and start its
    send, or leave the loop when the queue is empty. *)
Definition loop_head (is_connected : bool) (q : State) : State :=
  match queue q with
  | [] => mkState [] false None
  | it :: rest => mkState rest true (Some (it, sendMessage_start is_connected it))
  end.

(** [processQueue()] up to its first [await]. *)
Definition processQueue_start (is_connected : bool) (q : State) : State :=
  if processing q then q
  else loop_head is_connected (mkState (queue q) true (item q)).

(** [enqueue(to, message, retries)].  On a full queue the warning is
    built with [message.substring(0, 50)], which throws when [message] is
    not a string. *)
Definition enqueue (a : Arrival) (q : State) : (JsError + bool) * State :=
  if (CONFIG.messageQueueMaxSize <=? length (queue q))%nat then
    match call_substring 50 (a_message a) with
    | inl error => (inl error, q)
    | inr _ => (inr false, q)
    end
  else
    let q := mkState (queue q ++ [mkMessage (a_to a) (a_message a) (a_retries a) (a_now a)])
                     (processing q) (item q) in
    (inr true, if processing q then q else processQueue_start (a_connected a) q).

Definition enqueue_all (arrivals : list Arrival) (q : State) : State :=
  foldl (λ q a, (enqueue a q).2) q arrivals.

(** [this.queue.unshift(item)] *)
Definition unshift (it : PendingMessage) (q : State) : State :=
  mkState (it :: queue q) (processing q) (item q).

(** The same entry with another number of attempts left. *)
Definition with_retries (it : PendingMessage) (r : Z) : PendingMessage :=
  mkMessage (to it) (message it) r (timestamp it).

(** One turn of the [while] loop, from the pending send to the next one. *)
Definition iteration (env : Await) (q : State) : State * list Event :=
  match item q with
  | None => (q, [])
  | Some (it, st) =>
      let q := enqueue_all (during_send env) q in
      let result := sendMessage_settle st (engine env) in
      match result with
      | inr _ =>
          let q := enqueue_all (during_rate_limit env) q in
          (loop_head (connected env) q,
           [Attempted it result; Slept 100])
      | inl _ =>
          if retries it >? 1 then
            let it' := with_retries it (retries it - 1) in
            let q := unshift it' q in
            let q := enqueue_all (during_retry_delay env) q in
            let q := enqueue_all (during_rate_limit env) q in
            (loop_head (connected env) q,
             [Attempted it result; Requeued it';
              Slept CONFIG.messageRetryDelay; Slept 100])
          else
            let q := enqueue_all (during_rate_limit env) q in
            (loop_head (connected env) q,
             [Attempted it result; Dropped it; Slept 100])
      end
  end.

(** The loop over a schedule of turns. *)
Fixpoint processQueue (envs : list Await) (q : State) : State * list Event :=
  match envs with
  | [] => (q, [])
  | env :: rest =>
      let '(q', tr) := iteration env q in
      let '(q'', tr') := processQueue rest q' in
      (q'', tr ++ tr')
  end.

(** The entries the queue still holds: the one being sent, then the
    waiting ones. *)
Definition pending (q : State) : list PendingMessage :=
  match item q with
  | Some (it, _) => it :: queue q
  | None => queue q
  end.

(** The entry that a call of [enqueue] appends. *)
Definition arrival_item (a : Arrival) : PendingMessage :=
  mkMessage (a_to a) (a_message a) (a_retries a) (a_now a).

(** All calls of [enqueue] made during one turn of the loop. *)
Definition arrivals (env : Await) : list Arrival :=
  during_send env ++ during_retry_delay env ++ during_rate_limit env.

(** The engine does not deliver during this turn. *)
Definition engine_fails (env : Await) : Prop :=
  match engine env with
  | inl _ => True
  | inr _ => False
  end.

Definition attempts (tr : list Event) : list PendingMessage :=
  omap (λ ev, match ev with Attempted it _ => Some it | _ => None end) tr.

Definition requeues (tr : list Event) : list PendingMessage :=
  omap (λ ev, match ev with Requeued it => Some it | _ => None end) tr.

(** The engine delivers during this turn. *)
Definition engine_delivers (env : Await) : Prop :=
  match engine env with
  | inr _ => True
  | inl _ => False
  end.

(** The loop runs exactly while an entry is being sent, and when it has
    stopped nothing waits. *)
Definition consistent (q : State) : Prop :=
  (processing q = true ↔ is_Some (item q))
  ∧ (processing q = false → queue q = []).

(** The waiting list respects [CONFIG.messageQueueMaxSize]. *)
Definition within_capacity (q : State) : Prop :=
  (length (queue q) ≤ CONFIG.messageQueueMaxSize)%nat.

(** What can happen to the queue: a handler calls [enqueue], or the loop
    makes a turn. *)
Inductive Op :=
| Enqueue (a : Arrival)
| Turn (env : Await).

Definition apply_op (q : State) (op : Op) : State :=
  match op with
  | Enqueue a => (enqueue a q).2
  | Turn env => (iteration env q).1
  end.

Definition run_ops (ops : list Op) (q : State) : State := foldl apply_op q ops.

(** The queue of a new [MessageQueue()]. *)
Definition empty_queue : State := mkState [] false None.

(** The same turn with an engine that answers with an error. *)
Definition silenced (env : Await) : Await :=
  mkAwait (inl (mkError "unused" None)) (during_send env) (during_retry_delay env)
          (during_rate_limit env) (connected env).

(** The results of the attempts of a trace. *)
Definition results (tr : list Event) : list (JsError + string) :=
  omap (λ ev, match ev with Attempted _ r => Some r | _ => None end) tr.

(** *** The loop between its [await]s *)

(** The two sleeps of a turn: [await sleep(CONFIG.messageRetryDelay)]
    after [unshift], and [await sleep(100)]. *)
Inductive Sleep := RetryDelay | RateLimit.

(** What a handler finds when it runs while [processQueue] is suspended or
    not running: the fields of the class with the pending send, if the
    loop waits for one ([item] is [None] during a sleep: no send is
    pending then), and the sleep the loop is in otherwise. *)
Record Suspended := mkSuspended { fields : State; sleeping : option Sleep }.

(** What happens next: a handler calls [enqueue], the pending send ends
    with the engine's answer, or the timer of the sleep fires
    ([is_connected] is the state of the bot when the loop then comes back
    to its head). *)
Inductive Moment :=
| Enqueues (a : Arrival)
| SendSettles (answer : JsError + string)
| SleepEnds (is_connected : bool).

Definition moment (s : Suspended) (m : Moment) : Suspended :=
  let q := fields s in
  match m with
  | Enqueues a => mkSuspended (enqueue a q).2 (sleeping s)
  | SendSettles answer =>
      match sleeping s, item q with
      | None, Some (it, st) =>
          match sendMessage_settle st answer with
          | inr _ => mkSuspended (mkState (queue q) true None) (Some RateLimit)
          | inl _ =>
              if retries it >? 1 then
                mkSuspended
                  (mkState (with_retries it (retries it - 1) :: queue q) true None)
                  (Some RetryDelay)
              else mkSuspended (mkState (queue q) true None) (Some RateLimit)
          end
      | _, _ => s
      end
  | SleepEnds is_connected =>
      match sleeping s with
      | Some RetryDelay => mkSuspended q (Some RateLimit)
      | Some RateLimit => mkSuspended (loop_head is_connected q) None
      | None => s
      end
  end.

Definition moments (ms : list Moment) (s : Suspended) : Suspended := foldl moment s ms.

(** A new [MessageQueue()]. *)
Definition new_queue : Suspended := mkSuspended empty_queue None.

(** Whether the turn [env] puts the entry being sent back. *)
Definition requeued (env : Await) (q : State) : bool :=
  match item q with
  | Some (it, st) =>
      match sendMessage_settle st (engine env) with
      | inl _ => retries it >? 1
      | inr _ => false
      end
  | None => false
  end.

(** The moments of one turn of the loop, as [iteration] orders them. *)
Definition turn (env : Await) (q : State) : list Moment :=
  (Enqueues <$> during_send env) ++ [SendSettles (engine env)]
  ++ (if requeued env q
      then (Enqueues <$> during_retry_delay env) ++ [SleepEnds (connected env)]
      else [])
  ++ (Enqueues <$> during_rate_limit env) ++ [SleepEnds (connected env)].

(** What holds whenever the loop is suspended or not running. *)
Definition suspended_ok (s : Suspended) : Prop :=
  match sleeping s with
  | None => consistent (fields s) ∧ within_capacity (fields s)
  | Some _ =>
      processing (fields s) = true ∧ item (fields s) = None
      ∧ (length (queue (fields s)) ≤ S CONFIG.messageQueueMaxSize)%nat
  end.

End MessageQueue.

(** ** The bot ([class BaileysWhatsAppBot]) *)

Module Bot.
Import Storage.

(** The fields of a [connection.update] event of the engine. *)
Inductive Connection := conn_close | conn_open | conn_connecting.

(** [lastDisconnect.error]: a [Boom] error carries
    [output.statusCode]; any other error does not. *)
Inductive DisconnectError :=
| Boom (statusCode : Z) (msg : string)
| OtherError (msg : string).

Record LastDisconnect := mkLastDisconnect { error : option DisconnectError }.

Record Update := mkUpdate {
  connection : option Connection;
  lastDisconnect : option LastDisconnect;
  qr : option string
}.

(** The fields of the class that the handlers read and write. [sock] and
    [saveCreds] record whether the field is set. *)
Record Bot := mkBot {
  sock : bool;
  isConnected : bool;
  saveCreds : bool;
  isShuttingDown : bool;
  lastQRTime : Z;
  qrCodeBase64 : option string
}.

(** A pending [setTimeout]. *)
Inductive Timer :=
| ReconnectTimer (delay : Z)
| InitializeTimer (delay : Z).

(** Calls made on the engine and warnings, in order (not a field of the
    class: it records what the handlers did). *)
Inductive Action :=
| ReconnectAttempt
| SocketCreated
| SocketEnded
| WarnNoLock.

Record System := mkSystem {
  bot : Bot;
  world : World;
  timers : list Timer;
  actions : list Action
}.

Definition set_bot (b : Bot) (s : System) : System :=
  mkSystem b (world s) (timers s) (actions s).
Definition set_world (w : World) (s : System) : System :=
  mkSystem (bot s) w (timers s) (actions s).
Definition add_timer (t : Timer) (s : System) : System :=
  mkSystem (bot s) (world s) (timers s ++ [t]) (actions s).
Definition act (a : Action) (s : System) : System :=
  mkSystem (bot s) (world s) (timers s) (actions s ++ [a]).

(** The initial values of the constructor. *)
Definition new_bot : Bot := mkBot false false false false 0 None.

Section Handlers.
Variable sessionsPrefix : string.
Variable instanceId : string.
Variable Date_now : nat → Z.
Variable random : Z → Q.
(** [DisconnectReason.loggedOut], a constant of the engine. *)
Variable loggedOut : Z.
(** [QRCode.toDataURL(qr, options)] *)
Variable toDataURL : string → JsError + string.
(** The engine's [saveCreds] routine, which writes credential files into
    the session directory. *)
Variable engine_saveCreds : World → World.

(** The [if (qr)] block.  [None] is the early [return] of the debounce,
    which ends the whole handler. *)
Definition on_qr (now : Z) (u : Update) (b : Bot) : option Bot :=
  match qr u with
  | None => Some b
  | Some q =>
      if String.eqb q EmptyString then Some b
      else if now - lastQRTime b <? CONFIG.qrDebounceMs then None
      else
        let b := mkBot (sock b) (isConnected b) (saveCreds b) (isShuttingDown b)
                       now (qrCodeBase64 b) in
        match toDataURL q with
        | inr image =>
            Some (mkBot (sock b) (isConnected b) (saveCreds b) (isShuttingDown b)
                        (lastQRTime b) (Some image))
        | inl _ => Some b
        end
  end.

(** Whether the debounce of the [if (qr)] block ends the handler. *)
Definition debounced (now : Z) (u : Update) (b : Bot) : bool :=
  match on_qr now u b with
  | None => true
  | Some _ => false
  end.

(** [lastDisconnect?.error instanceof Boom &&
     lastDisconnect.error.output.statusCode === DisconnectReason.loggedOut] *)
Definition is_logged_out (u : Update) : bool :=
  match lastDisconnect u with
  | Some (mkLastDisconnect (Some (Boom statusCode _))) => statusCode =? loggedOut
  | _ => false
  end.

Definition shouldReconnect (u : Update) : bool :=
  match lastDisconnect u with
  | Some (mkLastDisconnect (Some (Boom statusCode _))) => negb (statusCode =? loggedOut)
  | _ => true
  end.

(** The [connection === 'close'] branch. *)
Definition on_close (u : Update) (s : System) : System :=
  let b := bot s in
  let s := set_bot (mkBot (sock b) false (saveCreds b) (isShuttingDown b)
                          (lastQRTime b) None) s in
  let cleared : System * bool :=
    if is_logged_out u then
      let w := fs_mkdir (fs_rm (world s)) in
      match SessionStore.clearSessionFromBucket sessionsPrefix random w with
      | (Threw _, w', _) => (set_world w' s, false)
      | (_, w', _) => (set_world w' s, true)
      end
    else (s, true) in
  let '(s, continues) := cleared in
  if continues && shouldReconnect u && negb (isShuttingDown (bot s))
  then add_timer (ReconnectTimer 5000) s
  else s.

Definition on_open (s : System) : System :=
  let b := bot s in
  set_bot (mkBot (sock b) true (saveCreds b) (isShuttingDown b) (lastQRTime b) None) s.

(** The handler of [connection.update], run at clock reading [now]. *)
Definition on_connection_update (now : Z) (u : Update) (s : System) : System :=
  match on_qr now u (bot s) with
  | None => s
  | Some b =>
      let s := set_bot b s in
      match connection u with
      | Some conn_close => on_close u s
      | Some conn_open => on_open s
      | Some conn_connecting | None => s
      end
  end.

(** The handler of [creds.update]; its [catch] swallows a failed upload. *)
Definition on_creds_update (s : System) : System :=
  let w := engine_saveCreds (world s) in
  let '(_, w', _) := SessionStore.uploadSessionToBucket sessionsPrefix random w in
  set_world w' s.

(** [connectToWhatsApp()]: a new socket with the handlers attached. *)
Definition connectToWhatsApp (s : System) : System :=
  let b := bot s in
  act SocketCreated
      (set_bot (mkBot true (isConnected b) (saveCreds b) (isShuttingDown b)
                      (lastQRTime b) (qrCodeBase64 b)) s).

(** [initialize()]; its [catch] schedules another call after 10 seconds. *)
Definition initialize (s : System) : System :=
  let failed (s : System) := add_timer (InitializeTimer 10000) s in
  match SessionLock.acquireLock sessionsPrefix instanceId Date_now (world s) with
  | None => s
  | Some (Threw _, w, _) => failed (set_world w s)
  | Some (o, w, _) =>
      let s := set_world w s in
      let s := match o with Returned true => s | _ => act WarnNoLock s end in
      let s := set_world (fs_mkdir (world s)) s in
      match SessionStore.downloadSessionFromBucket sessionsPrefix random (world s) with
      | (Threw _, w', _) => failed (set_world w' s)
      | (_, w', _) =>
          let s := set_world w' s in
          let b := bot s in
          let s := set_bot (mkBot (sock b) (isConnected b) true (isShuttingDown b)
                                  (lastQRTime b) (qrCodeBase64 b)) s in
          connectToWhatsApp s
      end
  end.

(** The callback of the timer at position [i] of the pending ones. *)
Definition on_timer (i : nat) (s : System) : System :=
  match timers s !! i with
  | None => s
  | Some t =>
      let s := mkSystem (bot s) (world s) (delete i (timers s)) (actions s) in
      match t with
      | ReconnectTimer _ =>
          if negb (isShuttingDown (bot s))
          then connectToWhatsApp (act ReconnectAttempt s)
          else s
      | InitializeTimer _ => initialize s
      end
  end.

(** [shutdown()].  A failed upload skips the rest of the [try] block. *)
Definition shutdown (s : System) : System :=
  let b := bot s in
  let s := set_bot (mkBot (sock b) (isConnected b) (saveCreds b) true
                          (lastQRTime b) (qrCodeBase64 b)) s in
  let saved : System * bool :=
    if saveCreds (bot s) then
      let w := engine_saveCreds (world s) in
      match SessionStore.uploadSessionToBucket sessionsPrefix random w with
      | (Threw _, w', _) => (set_world w' s, false)
      | (_, w', _) => (set_world w' s, true)
      end
    else (s, true) in
  let '(s, continues) := saved in
  if continues then
    let s := if sock (bot s) then act SocketEnded s else s in
    set_world (SessionLock.releaseLock sessionsPrefix (world s)).1 s
  else s.

(** What can happen to the bot. *)
Inductive Input :=
| ConnectionUpdate (now : Z) (u : Update)
| CredsUpdate
| TimerFired (i : nat)
| Initialize
| Shutdown.

Definition step (s : System) (i : Input) : System :=
  match i with
  | ConnectionUpdate now u => on_connection_update now u s
  | CredsUpdate => on_creds_update s
  | TimerFired i => on_timer i s
  | Initialize => initialize s
  | Shutdown => shutdown s
  end.

Definition run (inputs : list Input) (s : System) : System := foldl step s inputs.

(** The pending reconnect timers and the reconnect attempts made so far. *)
Definition is_reconnect_timer (t : Timer) : bool :=
  match t with ReconnectTimer _ => true | InitializeTimer _ => false end.

Definition is_reconnect_attempt (a : Action) : bool :=
  match a with ReconnectAttempt => true | _ => false end.

Definition reconnect_timers (s : System) : list Timer :=
  filter (λ t, is_reconnect_timer t = true) (timers s).

Definition reconnect_attempts (s : System) : list Action :=
  filter (λ a, is_reconnect_attempt a = true) (actions s).

End Handlers.

(** [s'] comes from [s] without touching the flag, without a new
    reconnect timer and without a reconnect attempt. *)
Definition no_reconnect (s s' : System) : Prop :=
  isShuttingDown (bot s') = isShuttingDown (bot s)
  ∧ reconnect_timers s' `sublist_of` reconnect_timers s
  ∧ reconnect_attempts s' = reconnect_attempts s.

End Bot.

(** ** HTTP endpoint [POST /send-message] of the production server *)

Module Http.

(** The status and the fields of the JSON body of the response. *)
Record Response := mkResponse {
  status : Z;
  body_success : bool;
  body_queued : option bool;
  body_to : option string;
  body_error : option string;
  body_timestamp : option Z
}.

Definition failure (code : Z) (error : string) : Response :=
  mkResponse code false None None (Some error) None.

(** The [catch] of the handlers:
    [res.status(500).json({ success: false, error: error.message || 'Failed to send message' })] *)
Definition caught (error : JsError) : Response :=
  failure 500 (if String.eqb (message error) EmptyString
               then "Failed to send message" else message error).

(** [req.body] as [express.json()] leaves it: the two fields the handler
    reads, each with the value the client sent, [JsUndefined] when the
    field is absent (also when the body is empty or an array). *)
Record Request := mkRequest { to : JsValue; message : JsValue }.

(** The handler.  [now] is the reading of [Date.now()] inside [enqueue],
    [stamp] the time put into the response.  The fields go to [enqueue]
    and to [toWhatsAppJID] as they came; what these throw reaches the
    [catch]. *)
Definition post_send_message (now stamp : Z) (req : Request)
    (b : Bot.Bot) (q : MessageQueue.State) : Response * MessageQueue.State :=
  if negb (truthy (to req)) || negb (truthy (message req)) then
    (failure 400 "Missing required fields: to, message", q)
  else if negb (Bot.isConnected b) || negb (Bot.sock b) then
    (failure 503 "WhatsApp not connected. Please scan QR code first.", q)
  else
    match MessageQueue.enqueue
            (MessageQueue.mkArrival (to req) (message req) 3 now
                                    (Bot.sock b && Bot.isConnected b)) q with
    | (inl error, q') => (caught error, q')
    | (inr false, q') => (failure 503 "Message queue full. Please try again later.", q')
    | (inr true, q') =>
        match call_toWhatsAppJID (to req) with
        | inr jid => (mkResponse 200 true (Some true) (Some jid) None (Some stamp), q')
        | inl error => (caught error, q')
        end
    end.

(** [GET /api/qr-status]: the fields of the body that depend on the bot
    ([phoneNumber] and [timestamp] are left out). *)
Inductive QrStatus := st_connected | st_waiting_for_scan | st_generating_qr.

Record QrStatusBody := mkQrStatusBody {
  hasQR : bool;
  body_isConnected : bool;
  body_status : QrStatus
}.

Definition get_qr_status (b : Bot.Bot) : QrStatusBody :=
  mkQrStatusBody
    (negb (JsString.falsy (Bot.qrCodeBase64 b)))
    (Bot.isConnected b)
    (if Bot.isConnected b then st_connected
     else if negb (JsString.falsy (Bot.qrCodeBase64 b)) then st_waiting_for_scan
     else st_generating_qr).

(** [GET /health]: the status code and the fields [connected] and
    [queueSize] of the body (the other fields are constants of the
    process). *)
Record HealthBody := mkHealthBody { body_connected : bool; body_queueSize : nat }.

Definition get_health (b : Bot.Bot) (q : MessageQueue.State) : Z * HealthBody :=
  (if Bot.isConnected b then 200 else 503,
   mkHealthBody (Bot.isConnected b) (length (MessageQueue.queue q))).

End Http.

(** ** Listing the session directory ([listLocalFiles]) *)

Module LocalFs.

(** What [fs.readdir(dir, { withFileTypes: true })] shows of a directory
    tree: files and directories with their names. *)
#[warnings="-register-all"] Inductive Entry :=
| File (name : string)
| Directory (name : string) (entries : list Entry).

Definition name_of (e : Entry) : string :=
  match e with
  | File name => name
  | Directory name _ => name
  end.

(** [path.join(a, b)] for a directory entry [a] and a relative path [b]
    below it. *)
Definition path_join (a b : string) : string := a +:+ "/" +:+ b.

(** The paths that one entry contributes to [files]. *)
Fixpoint files_of (e : Entry) : list string :=
  match e with
  | File name => [name]
  | Directory name entries => path_join name <$> flat_map files_of entries
  end.

(** [listLocalFiles(dir)]; [None] is a directory that does not exist
    ([readdir] fails with [ENOENT], which the [catch] swallows). *)
Definition listLocalFiles (dir : option (list Entry)) : list string :=
  match dir with
  | None => []
  | Some entries => flat_map files_of entries
  end.

(** The number of files in a tree. *)
Fixpoint count_files (e : Entry) : nat :=
  match e with
  | File _ => 1%nat
  | Directory _ entries => list_sum (map count_files entries)
  end.

(** A tree as a file system has it: no name contains a slash, and the
    names within one directory are distinct. *)
#[warnings="-register-all"] Inductive well_formed : Entry → Prop :=
| wf_file name :
    JsString.includes "/" name = false → well_formed (File name)
| wf_directory name entries :
    JsString.includes "/" name = false →
    NoDup (name_of <$> entries) →
    Forall well_formed entries →
    well_formed (Directory name entries).

(** The part of a path before its first slash. *)
Fixpoint first_segment (path : string) : string :=
  match path with
  | EmptyString => EmptyString
  | String c r => if Ascii.eqb "/" c then EmptyString else String c (first_segment r)
  end.

End LocalFs.

(** ** Incoming messages (the handler of [messages.upsert]) *)

Module Inbound.

(** The fields of [messageUpdate.messages[0]] that the handler reads:
    [key.fromMe], [key.remoteJid], [key.id], [message?.conversation] and
    [message?.extendedTextMessage?.text]. *)
Record Message := mkMessage {
  fromMe : bool;
  remoteJid : string;
  id : string;
  conversation : option string;
  extendedText : option string
}.

Record MessageUpdate := mkMessageUpdate { messages : list Message; type : string }.

(** [conversation || extendedTextMessage?.text || null] *)
Definition messageText (m : Message) : option string :=
  if negb (JsString.falsy (conversation m)) then conversation m
  else if negb (JsString.falsy (extendedText m)) then extendedText m
  else None.

(** [text.substring(0, n) + (text.length > n ? '...' : '')] *)
Definition preview (n : nat) (text : string) : string :=
  String.substring 0 n text
  +:+ (if (n <? String.length text)%nat then "..." else EmptyString).

Definition quote : string := String (Ascii.ascii_of_nat 34) EmptyString.

Definition replyText (text : string) : string :=
  "Thanks for your message! I received: " +:+ quote +:+ preview 50 text +:+ quote.

(** The body of the request sent to the webhook ([timestamp] left out). *)
Record WebhookPost := mkPost {
  url : string;
  post_from : string;
  post_message : string;
  post_messageId : string
}.

(** The handler of the production server.  [webhookUrl] is
    [CONFIG.webhookUrl], [now] and [is_connected] are read inside
    [enqueue].  An empty [messages] makes the first line throw, which the
    outer [catch] logs; a failed request to the webhook is logged and the
    handler goes on; the result of [enqueue] is not looked at. *)
Definition on_messages_upsert (webhookUrl : option string) (now : Z)
    (is_connected : bool) (u : MessageUpdate) (q : MessageQueue.State)
  : MessageQueue.State * list WebhookPost :=
  match messages u with
  | [] => (q, [])
  | m :: _ =>
      if fromMe m || negb (String.eqb (type u) "notify") then (q, [])
      else
        match messageText m with
        | None => (q, [])
        | Some text =>
            let from := remoteJid m in
            let posts :=
              if JsString.falsy webhookUrl then []
              else [mkPost (default EmptyString webhookUrl) from text (id m)] in
            let '(_, q') :=
              MessageQueue.enqueue
                (MessageQueue.mkArrival from (replyText text) 3 now is_connected) q in
            (q', posts)
        end
  end.

End Inbound.

(** ** [index.js]: the functions whose text differs *)

Module IndexJs.
Import Storage.

Definition maxRetries : Z := 3.
Definition retryDelay : Q := 2000.

Inductive Event (A : Type) :=
| Invoked (r : JsError + A)
| LogError (operationName : string) (attempt maxRetries : Z) (error : string)
| LogInfo (operationName : string) (delay : Q)
| Slept (delay : Q).
Arguments Invoked {A} r.
Arguments LogError {A} _ _ _ _.
Arguments LogInfo {A} _ _.
Arguments Slept {A} _.

Section WithRetry.
Context {St A : Type}.
Variable operation : St → (JsError + A) * St.
Variable operationName : string.
Variable maxRetries : Z.

(** The loop of [withRetry] in [index.js]: the delay is
    [CONFIG.retryDelay * Math.pow(2, attempt - 1)], without jitter and
    without an upper bound. *)
Fixpoint withRetry_loop (fuel : nat) (attempt : Z) (s : St)
  : Outcome A * St * list (Event A) :=
  match fuel with
  | O => (ReturnedUndefined, s, [])
  | S fuel' =>
      if attempt <=? maxRetries then
        match operation s with
        | (inr a, s') => (Returned a, s', [Invoked (inr a)])
        | (inl error, s') =>
            let logged := LogError operationName attempt maxRetries (message error) in
            if attempt =? maxRetries then
              (Threw error, s', [Invoked (inl error); logged])
            else
              let delay := (retryDelay * Qpower 2 (attempt - 1))%Q in
              let '(o, s'', tr) := withRetry_loop fuel' (attempt + 1) s' in
              (o, s'',
               Invoked (inl error) :: logged :: LogInfo operationName delay
                 :: Slept delay :: tr)
        end
      else (ReturnedUndefined, s, [])
  end.

Definition withRetry (s : St) : Outcome A * St * list (Event A) :=
  withRetry_loop (Z.to_nat maxRetries) 1 s.

End WithRetry.

(** [clearSessionFromBucket] of [index.js]: skipped without a bucket;
    otherwise every object under the prefix is deleted. *)
Definition clear_operation (sessionsPrefix : string) (b : gmap string Blob)
  : (JsError + unit) * gmap string Blob :=
  SessionStore.delete_each (getFiles sessionsPrefix b) b.

Definition clearSessionFromBucket (sessionsPrefix : string)
    (b : option (gmap string Blob)) : Outcome unit * option (gmap string Blob) :=
  match b with
  | None => (ReturnedUndefined, None)
  | Some b =>
      let '(o, b', _) :=
        withRetry (clear_operation sessionsPrefix) "clearSessionFromBucket" maxRetries b in
      (match o with Threw e => Threw e | _ => ReturnedUndefined end, Some b')
  end.

(** [POST /send-message] of [index.js]: the message is sent at once;
    [sent] is what [this.sendMessage(to, message)] yields.  (That call
    itself begins with [toWhatsAppJID(to)], so for a recipient that is not
    a string it yields the error, and the second call of the handler is
    not reached.) *)
Record Response := mkResponse {
  status : Z;
  body_success : bool;
  body_messageId : option string;
  body_to : option string;
  body_error : option string
}.

Definition caught (error : JsError) : Response :=
  mkResponse 500 false None None
             (Some (if String.eqb (message error) EmptyString
                    then "Failed to send message" else message error)).

Definition post_send_message (req : Http.Request) (b : Bot.Bot)
    (sent : JsError + string) : Response :=
  if negb (truthy (Http.to req)) || negb (truthy (Http.message req)) then
    mkResponse 400 false None None (Some "Missing required fields: to, message")
  else if negb (Bot.isConnected b) || negb (Bot.sock b) then
    mkResponse 503 false None None
               (Some "WhatsApp not connected. Please scan QR code first.")
  else
    match sent with
    | inr messageId =>
        match call_toWhatsAppJID (Http.to req) with
        | inr jid => mkResponse 200 true (Some messageId) (Some jid) None
        | inl error => caught error
        end
    | inl error => caught error
    end.

(** Projections of a trace of [withRetry]. *)
Definition invocations {A : Type} (tr : list (Event A)) : list (JsError + A) :=
  omap (λ ev, match ev with Invoked r => Some r | _ => None end) tr.

Definition sleeps {A : Type} (tr : list (Event A)) : list Q :=
  omap (λ ev, match ev with Slept d => Some d | _ => None end) tr.

(** The delays slept after failures number [a], [a+1], ..., [a+n-1]. *)
Fixpoint delays_from (a : Z) (n : nat) : list Q :=
  match n with
  | O => []
  | S n' => (retryDelay * Qpower 2 (a - 1))%Q :: delays_from (a + 1) n'
  end.

(** The handler of [messages.upsert] in [index.js]: the reply is handed to
    the engine at once, addressed to [remoteJid] as it came; the result is
    the list of calls of [sock.sendMessage(jid, { text })]. *)
Definition on_messages_upsert (u : Inbound.MessageUpdate) : list (string * string) :=
  match Inbound.messages u with
  | [] => []
  | m :: _ =>
      if Inbound.fromMe m || negb (String.eqb (Inbound.type u) "notify") then []
      else
        match Inbound.messageText m with
        | None => []
        | Some text => [(Inbound.remoteJid m, Inbound.replyText text)]
        end
  end.

(** [GET /health] of [index.js]: always status 200. *)
Definition get_health (b : Bot.Bot) : Z * bool := (200, Bot.isConnected b).

End IndexJs.

(** ** Sample inputs, used where a statement is evaluated *)

Module Sample.
Import Storage.

(** An operation that always throws the same error and counts its calls. *)
Definition always_failing (e : JsError) (calls : nat) : (JsError + unit) * nat :=
  (inl e, S calls).

Definition sessionsPrefix : string := "sessions/whatsapp-bot/".

(** A bucket after a session was uploaded: credentials, the version file
    of the engine's [critical_block] collection, and the lock. *)
Definition remote : gmap string Blob :=
  {[ "sessions/whatsapp-bot/creds.json" := Bytes "creds";
     "sessions/whatsapp-bot/app-state-sync-version-critical_block.json" := Bytes "v7";
     "sessions/whatsapp-bot/lock.json" := LockJson (mkLock "other-instance" 1000 300000) ]}.

Definition local : gmap string Blob :=
  {[ "creds.json" := Bytes "creds";
     "app-state-sync-version-critical_block.json" := Bytes "v7" ]}.

Definition world0 : World := mkWorld remote (Some local) 0.

Definition random (k : Z) : Q := 1 # 2.
Definition Date_now (k : nat) : Z := 400000 + Z.of_nat k.
Definition loggedOut : Z := 401.
Definition toDataURL (qr : string) : JsError + string := inr ("data:image/png;base64," +:+ qr).
Definition engine_saveCreds (w : World) : World := w.

Definition system0 : Bot.System := Bot.mkSystem Bot.new_bot world0 [] [].

(** The message of the scenario in the specification, one queued behind
    it, and a turn of the loop in which the engine fails while another
    message arrives. *)
Definition test_message : MessageQueue.PendingMessage :=
  MessageQueue.mkMessage "+5511999999999" "Test" 3 1000.

Definition other_message : MessageQueue.PendingMessage :=
  MessageQueue.mkMessage "+5511888888888" "Later" 3 1001.

Definition failing_turn : MessageQueue.Await :=
  MessageQueue.mkAwait (inl (mkError "Connection Closed" None))
                       [MessageQueue.mkArrival "+5511777777777" "New" 3 2000 false]
                       [] [] false.

Definition queue0 : MessageQueue.State :=
  MessageQueue.mkState [other_message] true
                       (Some (test_message, MessageQueue.NotConnected)).

Definition logout_event : Bot.Update :=
  Bot.mkUpdate (Some Bot.conn_close)
               (Some (Bot.mkLastDisconnect (Some (Bot.Boom 401 "Logged Out")))) None.

Definition lost_event : Bot.Update :=
  Bot.mkUpdate (Some Bot.conn_close)
               (Some (Bot.mkLastDisconnect (Some (Bot.Boom 428 "Connection Closed")))) None.

Definition qr_event : Bot.Update := Bot.mkUpdate None None (Some "2@pairing-token").


(** A turn in which the engine delivers while another message arrives, and
    a queue whose first entry is with the engine. *)
Definition delivering_turn : MessageQueue.Await :=
  MessageQueue.mkAwait (inr "3EB0A1")
                       [MessageQueue.mkArrival "+5511777777777" "New" 3 2000 true]
                       [] [] true.

Definition queue1 : MessageQueue.State :=
  MessageQueue.mkState [other_message] true
    (Some (test_message,
           MessageQueue.EngineCalled "5511999999999@s.whatsapp.net" "Test")).

(** A turn during which the bot stays disconnected; the engine would have
    delivered had it been called. *)
Definition disconnected_turn : MessageQueue.Await :=
  MessageQueue.mkAwait (inr "3EB0A1") [] [] [] false.

(** The world after ["instance-1"] took over the expired sample lock. *)
Definition world_locked : World :=
  mkWorld (<["sessions/whatsapp-bot/lock.json" :=
              LockJson (mkLock "instance-1" (Date_now 2) CONFIG.lockTtlMs)]> remote)
          (Some local) 3.

(** An incoming text message from a Brazilian number, and one from a
    number of eleven digits without the country code 55. *)
Definition incoming : Inbound.MessageUpdate :=
  Inbound.mkMessageUpdate
    [Inbound.mkMessage false "5511999999999@s.whatsapp.net" "3EB0C7" (Some "Hello") None]
    "notify".

Definition incoming_foreign : Inbound.MessageUpdate :=
  Inbound.mkMessageUpdate
    [Inbound.mkMessage false "14155550100@s.whatsapp.net" "3EB0C8" (Some "Hello") None]
    "notify".

(** A session directory with a subdirectory and an empty one. *)
Definition session_tree : list LocalFs.Entry :=
  [LocalFs.File "creds.json";
   LocalFs.Directory "keys" [LocalFs.File "pre-key-1.json"; LocalFs.File "pre-key-2.json"];
   LocalFs.Directory "tmp" []].
End Sample.

(** * Part II: properties *)

(** ** Strings *)

(** stdpp keeps [String.append] folded; these are its two equations. *)
Lemma append_nil s : EmptyString +:+ s = s.
Proof. reflexivity. Qed.

Lemma append_cons c a b : String c a +:+ b = String c (a +:+ b).
Proof. reflexivity. Qed.

Lemma append_empty_r s : s +:+ EmptyString = s.
Proof.
  induction s as [|c s IH]; [reflexivity|].
  rewrite append_cons. now rewrite IH.
Qed.

Lemma strip_app a b :
  JsString.strip_non_digits (a +:+ b)
  = JsString.strip_non_digits a +:+ JsString.strip_non_digits b.
Proof.
  induction a as [|c a IH]; [reflexivity|].
  rewrite append_cons. simpl.
  destruct (JsString.is_digit c); [rewrite append_cons|]; now rewrite IH.
Qed.

Lemma strip_idem s :
  JsString.strip_non_digits (JsString.strip_non_digits s) = JsString.strip_non_digits s.
Proof.
  induction s as [|c s IH]; simpl; [reflexivity|].
  destruct (JsString.is_digit c) eqn:E; simpl; [rewrite E, IH|]; done.
Qed.

Lemma includes_strip c s :
  JsString.is_digit c = false →
  JsString.includes c (JsString.strip_non_digits s) = false.
Proof.
  intros Hc. induction s as [|d s IH]; simpl; [reflexivity|].
  destruct (JsString.is_digit d) eqn:E; simpl; [|exact IH].
  destruct (Ascii.eqb c d) eqn:Ecd; [|exact IH].
  apply Ascii.eqb_eq in Ecd. congruence.
Qed.

Lemma length_append a b :
  String.length (a +:+ b) = (String.length a + String.length b)%nat.
Proof.
  induction a as [|c a IH]; [reflexivity|].
  rewrite append_cons. simpl. now rewrite IH.
Qed.

Lemma substring_all s : String.substring 0 (String.length s) s = s.
Proof. induction s as [|c s IH]; simpl; [reflexivity | now rewrite IH]. Qed.

Lemma substring_skip a t :
  String.substring (String.length a) (String.length t) (a +:+ t) = t.
Proof.
  induction a as [|c a IH]; [apply substring_all|].
  rewrite append_cons. simpl. exact IH.
Qed.

Lemma endsWith_append a t : JsString.endsWith t (a +:+ t) = true.
Proof.
  unfold JsString.endsWith. rewrite length_append.
  replace (String.length a + String.length t - String.length t)%nat
    with (String.length a) by lia.
  rewrite substring_skip, String.eqb_refl, andb_true_r.
  apply Nat.leb_le. lia.
Qed.

Lemma startsWith_append p s : JsString.startsWith p (p +:+ s) = true.
Proof.
  induction p as [|c p IH]; [reflexivity|].
  rewrite append_cons. simpl. now rewrite Ascii.eqb_refl, IH.
Qed.

(** ** Recipient normalisation *)

(** The result is always the digits of the input, possibly behind the
    country code, followed by the domain: the [includes('@')] test sees
    digits only and never succeeds. *)
Lemma toWhatsAppJID_shape s :
  ∃ d, toWhatsAppJID s = d +:+ jid_suffix
       ∧ JsString.strip_non_digits d = d
       ∧ (JsString.startsWith "55" d = true ∨ (11 < String.length d)%nat).
Proof.
  unfold toWhatsAppJID.
  pose proof (strip_idem s) as Hc.
  pose proof (includes_strip "@" s eq_refl) as Hat.
  revert Hc Hat. generalize (JsString.strip_non_digits s) as cleaned.
  intros cleaned Hc Hat.
  assert (Hat55 : JsString.includes "@" ("55" +:+ cleaned) = false) by exact Hat.
  destruct (JsString.startsWith "55" cleaned) eqn:E55; simpl.
  - rewrite Hat. simpl. eauto.
  - destruct (String.length cleaned <=? 11)%nat eqn:Elen.
    + rewrite Hat55. simpl. exists ("55" +:+ cleaned). split; [done|]. split.
      * rewrite strip_app, Hc. reflexivity.
      * left. reflexivity.
    + rewrite Hat. simpl. exists cleaned. split; [done|]. split; [done|].
      right. apply Nat.leb_gt in Elen. lia.
Qed.

Lemma toWhatsAppJID_fixed d :
  JsString.strip_non_digits d = d →
  JsString.startsWith "55" d = true ∨ (11 < String.length d)%nat →
  toWhatsAppJID (d +:+ jid_suffix) = d +:+ jid_suffix.
Proof.
  intros Hd Hcc. unfold toWhatsAppJID.
  rewrite strip_app, Hd.
  change (JsString.strip_non_digits jid_suffix) with EmptyString.
  rewrite append_empty_r.
  assert (Hat : JsString.includes "@" d = false)
    by (rewrite <- Hd; apply includes_strip; reflexivity).
  destruct Hcc as [H55 | Hlen].
  - rewrite H55. simpl. now rewrite Hat.
  - apply Nat.leb_gt in Hlen. rewrite Hlen, andb_false_r. now rewrite Hat.
Qed.

(** C9. [toWhatsAppJID] is idempotent, and each of its results ends with
    ["@s.whatsapp.net"]. *)
Theorem toWhatsAppJID_idempotent_suffix (s : string) :
  toWhatsAppJID (toWhatsAppJID s) = toWhatsAppJID s
  ∧ JsString.endsWith "@s.whatsapp.net" (toWhatsAppJID s) = true.
Proof.
  destruct (toWhatsAppJID_shape s) as (d & -> & Hd & Hcc). split.
  - now apply toWhatsAppJID_fixed.
  - apply endsWith_append.
Qed.

Example toWhatsAppJID_international :
  toWhatsAppJID "+5511999999999" = "5511999999999@s.whatsapp.net".
Proof. reflexivity. Qed.

Example toWhatsAppJID_local :
  toWhatsAppJID "(11) 91836-8812" = "5511918368812@s.whatsapp.net".
Proof. reflexivity. Qed.

Example toWhatsAppJID_already_jid :
  toWhatsAppJID "5511918368812@s.whatsapp.net" = "5511918368812@s.whatsapp.net".
Proof. reflexivity. Qed.

(** ** Retry policy *)

Lemma exponentialDelay_nonneg (baseDelay : Q) (attempt : Z) :
  (0 <= baseDelay)%Q → (0 <= Retry.exponentialDelay baseDelay attempt)%Q.
Proof.
  intros Hb. unfold Retry.exponentialDelay.
  apply Qmult_le_0_compat; [exact Hb|].
  apply Qpower_0_le. discriminate.
Qed.

(** The jitter lies between nothing and a tenth of the exponential delay. *)
Lemma jitter_bounds (random baseDelay : Q) (attempt : Z) :
  (0 <= random)%Q → (random < 1)%Q → (0 <= baseDelay)%Q →
  (0 <= Retry.jitter random baseDelay attempt)%Q
  ∧ (Retry.jitter random baseDelay attempt
     <= (1 # 10) * Retry.exponentialDelay baseDelay attempt)%Q.
Proof.
  intros H0 H1 Hb. unfold Retry.jitter.
  pose proof (exponentialDelay_nonneg baseDelay attempt Hb) as He.
  split.
  - apply Qmult_le_0_compat; [|exact He].
    apply Qmult_le_0_compat; [exact H0 | discriminate].
  - apply Qmult_le_compat_r; [|exact He].
    rewrite <- (Qmult_1_l (1 # 10)) at 2.
    apply Qmult_le_compat_r; [|discriminate].
    now apply Qlt_le_weak.
Qed.

Lemma getBackoffDelay_capped (random : Q) (attempt : Z) (baseDelay : Q) :
  (Retry.getBackoffDelay random attempt baseDelay <= CONFIG.maxRetryDelay)%Q.
Proof. unfold Retry.getBackoffDelay. apply Q.le_min_r. Qed.

Section RetryFacts.
Context {St A : Type}.
Variable operation : St → (JsError + A) * St.
Variable operationName : string.
Variable maxRetries : Z.
Variable random : Z → Q.

Local Abbreviation loop := (Retry.withRetry_loop operation operationName maxRetries random).
Local Abbreviation calls := (Retry.calls operation).
Local Abbreviation delays_from := (Retry.delays_from random).

(** What one run of the loop does, entered at [attempt] with exactly the
    iterations that remain. *)
Lemma withRetry_loop_sound (n : nat) (attempt : Z) (s : St) o s' tr :
  Z.of_nat n = maxRetries - attempt + 1 → (1 ≤ n)%nat →
  loop n attempt s = (o, s', tr) →
  calls (length (Retry.invocations tr)) s = (Retry.invocations tr, s')
  ∧ ∃ errs : list JsError,
      (∃ v, o = Returned v
            ∧ Retry.invocations tr = (inl <$> errs) ++ [inr v]
            ∧ (length errs < n)%nat
            ∧ Retry.sleeps tr = delays_from attempt (length errs))
      ∨ (∃ e, o = Threw e
              ∧ Retry.invocations tr = inl <$> errs
              ∧ length errs = n
              ∧ last errs = Some e
              ∧ Retry.sleeps tr = delays_from attempt (n - 1)
              ∧ last tr = Some (Retry.LogError operationName maxRetries (message e))).
Proof.
  revert attempt s o s' tr.
  induction n as [|n IH]; intros attempt s o s' tr Hn Hpos Hrun; [lia|].
  simpl in Hrun.
  assert (Hle : (attempt <=? maxRetries) = true) by (apply Z.leb_le; lia).
  rewrite Hle in Hrun.
  destruct (operation s) as [[error|v] s1] eqn:Hop.
  - destruct (attempt =? maxRetries) eqn:Hlast.
    + apply Z.eqb_eq in Hlast. assert (n = 0%nat) by lia. subst n.
      injection Hrun as <- <- <-. simpl. rewrite Hop. split; [reflexivity|].
      exists [error]. right. exists error. repeat split; reflexivity.
    + apply Z.eqb_neq in Hlast.
      destruct (loop n (attempt + 1) s1) as [[o1 s2] tr1] eqn:Hrec.
      injection Hrun as <- <- <-.
      destruct (IH (attempt + 1) s1 o1 s2 tr1) as [Hcalls [errs Hcase]];
        [lia | lia | exact Hrec |].
      split.
      * simpl. rewrite Hop. fold (Retry.invocations tr1). now rewrite Hcalls.
      * exists (error :: errs).
        destruct Hcase as [(v & -> & Hinv & Hlen & Hsl) | (e & -> & Hinv & Hlen & Hlast' & Hsl & Hlog)].
        -- left. exists v. simpl. fold (Retry.invocations tr1) (Retry.sleeps tr1).
           rewrite Hinv, Hsl. repeat split; try reflexivity.
           lia.
        -- right. exists e. simpl. fold (Retry.invocations tr1) (Retry.sleeps tr1).
           rewrite Hinv, Hsl. repeat split; try reflexivity.
           ++ lia.
           ++ destruct errs; [simpl in Hlen; lia | exact Hlast'].
           ++ destruct n as [|n]; [lia|]. simpl. now rewrite Nat.sub_0_r.
           ++ destruct tr1; [discriminate | exact Hlog].
  - injection Hrun as <- <- <-. simpl. rewrite Hop. split; [reflexivity|].
    exists []. left. exists v. repeat split; try reflexivity. simpl. lia.
Qed.

(** More fuel than the loop can use changes nothing. *)
Lemma withRetry_loop_fuel (n m : nat) (attempt : Z) (s : St) :
  maxRetries - attempt + 1 ≤ Z.of_nat n → (n ≤ m)%nat →
  loop m attempt s = loop n attempt s.
Proof.
  revert m attempt s.
  induction n as [|n IH]; intros m attempt s Hn Hm.
  - destruct m as [|m]; [reflexivity|]. simpl.
    replace (attempt <=? maxRetries) with false; [reflexivity|].
    symmetry. apply Z.leb_gt. lia.
  - destruct m as [|m]; [lia|]. simpl.
    destruct (attempt <=? maxRetries); [|reflexivity].
    destruct (operation s) as [[error|v] s1]; [|reflexivity].
    destruct (attempt =? maxRetries); [reflexivity|].
    rewrite (IH m (attempt + 1) s1) by lia. reflexivity.
Qed.

End RetryFacts.

Lemma delays_from_lookup (random : Z → Q) (a : Z) (n i : nat) (d : Q) :
  Retry.delays_from random a n !! i = Some d →
  d = Retry.getBackoffDelay (random (a + Z.of_nat i)) (a + Z.of_nat i)
                            CONFIG.baseRetryDelay.
Proof.
  revert a i. induction n as [|n IH]; intros a i Hd; [discriminate|].
  destruct i as [|i]; simpl in Hd.
  - injection Hd as <-. now rewrite Z.add_0_r.
  - apply IH in Hd. subst d.
    now replace (a + 1 + Z.of_nat i) with (a + Z.of_nat (S i)) by lia.
Qed.

Lemma delays_from_length (random : Z → Q) (a : Z) (n : nat) :
  length (Retry.delays_from random a n) = n.
Proof. revert a. induction n as [|n IH]; intros a; simpl; [|rewrite IH]; reflexivity. Qed.

(** C10. With [maxRetries] below 1 the loop body never runs: [withRetry]
    returns [undefined], the operation is not invoked (the trace is empty
    and the state is the initial one) and nothing is thrown. *)
Theorem withRetry_no_attempts {St A : Type} (operation : St → (JsError + A) * St)
    (operationName : string) (maxRetries : Z) (random : Z → Q) (s : St) :
  maxRetries < 1 →
  Retry.withRetry operation operationName maxRetries random s
  = (ReturnedUndefined, s, []).
Proof.
  intros Hmax. unfold Retry.withRetry.
  destruct (Z.to_nat maxRetries) as [|n] eqn:Hn; [reflexivity | lia].
Qed.

(** The same for every amount of fuel: the result does not come from the
    bound on the iterations. *)
Lemma withRetry_loop_no_attempts {St A : Type} (operation : St → (JsError + A) * St)
    (operationName : string) (maxRetries : Z) (random : Z → Q) (fuel : nat) (s : St) :
  maxRetries < 1 →
  Retry.withRetry_loop operation operationName maxRetries random fuel 1 s
  = (ReturnedUndefined, s, []).
Proof.
  intros Hmax. destruct fuel as [|fuel]; [reflexivity|]. simpl.
  replace (1 <=? maxRetries) with false; [reflexivity|].
  symmetry. apply Z.leb_gt. lia.
Qed.

Lemma withRetry_no_attempts_witness :
  Retry.withRetry (Sample.always_failing (mkError "boom" None)) "uploadSessionToBucket" 0
                  (λ _, 0%Q) 0%nat
  = (ReturnedUndefined, 0%nat, []).
Proof. apply withRetry_no_attempts. lia. Defined.

(** C4, as amended.  For [maxRetries >= 1], [withRetry] invokes the
    operation at most [maxRetries] times, each call on the state the
    previous one left, and returns the first successful result.  After the
    [k]-th failure with [k < maxRetries] it sleeps for
    [baseRetryDelay * 2^(k-1)] plus a jitter between nothing and a tenth
    of that, capped at [maxRetryDelay].  After the [maxRetries]-th failure
    it writes an error record with the operation name and the attempt
    count to the log and throws the last error, unchanged. *)
Theorem withRetry_contract {St A : Type} (operation : St → (JsError + A) * St)
    (operationName : string) (maxRetries : Z) (random : Z → Q) (s : St) :
  1 ≤ maxRetries →
  (∀ k, (0 <= random k)%Q ∧ (random k < 1)%Q) →
  let '(o, s', tr) := Retry.withRetry operation operationName maxRetries random s in
  (length (Retry.invocations tr) ≤ Z.to_nat maxRetries)%nat
  ∧ Retry.calls operation (length (Retry.invocations tr)) s = (Retry.invocations tr, s')
  ∧ (∃ errs : list JsError,
        (∃ v, o = Returned v
              ∧ Retry.invocations tr = (inl <$> errs) ++ [inr v]
              ∧ length (Retry.sleeps tr) = length errs)
        ∨ (∃ e, o = Threw e
                ∧ Retry.invocations tr = inl <$> errs
                ∧ length errs = Z.to_nat maxRetries
                ∧ last errs = Some e
                ∧ length (Retry.sleeps tr) = (Z.to_nat maxRetries - 1)%nat
                ∧ last tr = Some (Retry.LogError operationName maxRetries (message e))))
  ∧ (∀ (i : nat) (d : Q), Retry.sleeps tr !! i = Some d →
        let k := Z.of_nat (i + 1) in
        ∃ j : Q,
          (0 <= j)%Q
          ∧ (j <= (1 # 10) * Retry.exponentialDelay CONFIG.baseRetryDelay k)%Q
          ∧ d = Qmin (Retry.exponentialDelay CONFIG.baseRetryDelay k + j)
                     CONFIG.maxRetryDelay).
Proof.
  intros Hmax Hrandom.
  destruct (Retry.withRetry operation operationName maxRetries random s)
    as [[o s'] tr] eqn:Hrun.
  unfold Retry.withRetry in Hrun.
  destruct (withRetry_loop_sound operation operationName maxRetries random
              (Z.to_nat maxRetries) 1 s o s' tr) as [Hcalls [errs Hcase]];
    [lia | lia | exact Hrun |].
  assert (Hsleeps : ∃ n, Retry.sleeps tr = Retry.delays_from random 1 n).
  { destruct Hcase as [(v & _ & _ & _ & Hsl) | (e & _ & _ & _ & _ & Hsl & _)]; eauto. }
  split; [|split; [exact Hcalls | split]].
  - destruct Hcase as [(v & _ & Hinv & Hlen & _) | (e & _ & Hinv & Hlen & _)];
      rewrite Hinv; rewrite ?length_app, ?length_fmap; simpl; lia.
  - exists errs.
    destruct Hcase as [(v & -> & Hinv & Hlen & Hsl) | (e & -> & Hinv & Hlen & Hlast & Hsl & Hlog)].
    + left. exists v. rewrite Hsl, delays_from_length. repeat split; assumption.
    + right. exists e. rewrite Hsl, delays_from_length. repeat split; assumption.
  - intros i d Hd k. destruct Hsleeps as [n Hsl]. rewrite Hsl in Hd.
    apply delays_from_lookup in Hd.
    replace (1 + Z.of_nat i) with k in Hd by (unfold k; lia).
    exists (Retry.jitter (random k) CONFIG.baseRetryDelay k).
    destruct (Hrandom k) as [H0 H1].
    destruct (jitter_bounds (random k) CONFIG.baseRetryDelay k H0 H1) as [Hj0 Hj1];
      [discriminate|].
    auto.
Qed.

Lemma withRetry_contract_witness :
  let '(o, s', tr) :=
    Retry.withRetry (Sample.always_failing (mkError "boom" None)) "uploadSessionToBucket" 2
                    (λ _, (1 # 2)%Q) 0%nat in
  (length (Retry.invocations tr) ≤ Z.to_nat 2)%nat
  ∧ Retry.calls (Sample.always_failing (mkError "boom" None)) (length (Retry.invocations tr)) 0%nat
    = (Retry.invocations tr, s')
  ∧ (∃ errs : list JsError,
        (∃ v, o = Returned v
              ∧ Retry.invocations tr = (inl <$> errs) ++ [inr v]
              ∧ length (Retry.sleeps tr) = length errs)
        ∨ (∃ e, o = Threw e
                ∧ Retry.invocations tr = inl <$> errs
                ∧ length errs = Z.to_nat 2
                ∧ last errs = Some e
                ∧ length (Retry.sleeps tr) = (Z.to_nat 2 - 1)%nat
                ∧ last tr = Some (Retry.LogError "uploadSessionToBucket" 2 (message e))))
  ∧ (∀ (i : nat) (d : Q), Retry.sleeps tr !! i = Some d →
        let k := Z.of_nat (i + 1) in
        ∃ j : Q,
          (0 <= j)%Q
          ∧ (j <= (1 # 10) * Retry.exponentialDelay CONFIG.baseRetryDelay k)%Q
          ∧ d = Qmin (Retry.exponentialDelay CONFIG.baseRetryDelay k + j)
                     CONFIG.maxRetryDelay).
Proof.
  apply (withRetry_contract (Sample.always_failing (mkError "boom" None))
           "uploadSessionToBucket" 2 (λ _, (1 # 2)%Q) 0%nat).
  - lia.
  - intros k. split; [discriminate | reflexivity].
Defined.

(** The error that reaches the caller is the operation's own: the same
    value whatever the operation name and the number of attempts, so it
    carries neither of them. *)
Lemma withRetry_throws_untagged :
  (Retry.withRetry (Sample.always_failing (mkError "boom" None)) "uploadSessionToBucket" 1
                   (λ _, 0%Q) 0%nat).1.1
  = Threw (mkError "boom" None)
  ∧ (Retry.withRetry (Sample.always_failing (mkError "boom" None)) "clearSessionFromBucket" 2
                     (λ _, 0%Q) 0%nat).1.1
    = Threw (mkError "boom" None).
Proof. split; reflexivity. Qed.

(** An operation that succeeds at once is called once. *)
Lemma withRetry_first_success {St A : Type} (operation : St → (JsError + A) * St)
    (operationName : string) (maxRetries : Z) (random : Z → Q) (s s' : St) (v : A) :
  1 ≤ maxRetries → operation s = (inr v, s') →
  Retry.withRetry operation operationName maxRetries random s
  = (Returned v, s', [Retry.Invoked (inr v)]).
Proof.
  intros Hmax Hop. unfold Retry.withRetry.
  destruct (Z.to_nat maxRetries) as [|n] eqn:Hn; [lia|]. simpl.
  replace (1 <=? maxRetries) with true by (symmetry; apply Z.leb_le; lia).
  now rewrite Hop.
Qed.

(** ** Session store *)

Section StoreFacts.
Import Storage.
Variable sessionsPrefix : string.
Variable random : Z → Q.

Lemma getFiles_spec (b : gmap string Blob) (name : string) :
  name ∈ getFiles sessionsPrefix b
  ↔ JsString.startsWith sessionsPrefix name = true ∧ is_Some (b !! name).
Proof.
  unfold getFiles. rewrite list_elem_of_filter, list_elem_of_fmap. split.
  - intros [Hp [[k v] [-> Hkv]]]. split; [exact Hp|].
    apply elem_of_map_to_list in Hkv. eauto.
  - intros [Hp [v Hv]]. split; [exact Hp|].
    exists (name, v). split; [reflexivity|]. now apply elem_of_map_to_list.
Qed.

Lemma getFiles_NoDup (b : gmap string Blob) : NoDup (getFiles sessionsPrefix b).
Proof. unfold getFiles. apply NoDup_filter, NoDup_fst_map_to_list. Qed.

(** Deleting names that are all present, each once, cannot fail, and
    removes exactly them. *)
Lemma delete_each_present (names : list string) (b : gmap string Blob) :
  NoDup names → (∀ name, name ∈ names → is_Some (b !! name)) →
  ∃ b', SessionStore.delete_each names b = (inr tt, b')
        ∧ ∀ k, b' !! k = if decide (k ∈ names) then None else b !! k.
Proof.
  revert b. induction names as [|name rest IH]; intros b Hnd Hin.
  - exists b. split; [reflexivity|]. intros k.
    destruct (decide (k ∈ [])) as [H|_]; [inversion H | reflexivity].
  - apply NoDup_cons in Hnd as [Hnotin Hnd]. simpl. unfold delete_file.
    destruct (Hin name) as [v Hv]; [left|]. rewrite Hv.
    destruct (IH (delete name b) Hnd) as (b' & Hrun & Hlook).
    { intros n Hn. rewrite lookup_delete_ne; [apply Hin; now right|].
      intros ->. contradiction. }
    exists b'. split; [exact Hrun|]. intros k. rewrite Hlook.
    destruct (decide (k ∈ rest)) as [Hk|Hk].
    + rewrite decide_True; [reflexivity | now right].
    + destruct (decide (k = name)) as [->|Hne].
      * rewrite decide_True by left. apply lookup_delete_eq.
      * rewrite decide_False; [now apply lookup_delete_ne|].
        intros [?|?]%elem_of_cons; contradiction.
Qed.

(** What [clear()] leaves in the bucket: an object is removed exactly
    when its name starts with the prefix and does not end in
    ["lock.json"]; everything else is as before.  The call does not fail
    and is made once. *)
Lemma clearSessionFromBucket_spec (w : World) :
  ∃ b', SessionStore.clearSessionFromBucket sessionsPrefix random w
        = (Returned tt, set_bucket b' w, [Retry.Invoked (inr tt)])
        ∧ ∀ name,
            b' !! name =
            if JsString.startsWith sessionsPrefix name
               && negb (JsString.endsWith "lock.json" name)
            then None else bucket w !! name.
Proof.
  destruct (delete_each_present
              (SessionStore.sessionFiles (getFiles sessionsPrefix (bucket w)))
              (bucket w)) as (b' & Hrun & Hlook).
  { apply NoDup_filter, getFiles_NoDup. }
  { intros name [_ Hin]%list_elem_of_filter. now apply getFiles_spec in Hin. }
  exists b'. split.
  - apply withRetry_first_success; [done|].
    unfold SessionStore.clear_operation. now rewrite Hrun.
  - intros name. rewrite Hlook. unfold SessionStore.sessionFiles.
    destruct (JsString.startsWith sessionsPrefix name) eqn:Hp;
      destruct (JsString.endsWith "lock.json" name) eqn:Hs; simpl.
    + rewrite decide_False; [reflexivity|].
      intros [Hs' _]%list_elem_of_filter. congruence.
    + destruct (bucket w !! name) as [v|] eqn:Hv.
      * rewrite decide_True; [reflexivity|].
        apply list_elem_of_filter. split; [exact Hs|].
        apply getFiles_spec. eauto.
      * now destruct (decide _).
    + rewrite decide_False; [reflexivity|].
      intros [Hs' _]%list_elem_of_filter. congruence.
    + rewrite decide_False; [reflexivity|].
      intros [_ [Hp' _]%getFiles_spec]%list_elem_of_filter. congruence.
Qed.

(** Downloading objects that were just listed cannot fail and leaves the
    bucket as it is. *)
Lemma download_each_present (names : list string) (w : World) :
  (∀ name, name ∈ names → is_Some (bucket w !! name)) →
  ∃ w', SessionStore.download_each sessionsPrefix names w = (inr tt, w')
        ∧ bucket w' = bucket w ∧ ticks w' = ticks w.
Proof.
  revert w. induction names as [|name rest IH]; intros w Hin; [by exists w|].
  simpl.
  assert (Hrest : ∀ n, n ∈ rest → is_Some (bucket w !! n))
    by (intros n Hn; apply Hin; now right).
  destruct (String.eqb _ _); [now apply IH|].
  unfold download.
  replace (bucket (fs_mkdir w)) with (bucket w)
    by (unfold fs_mkdir; now destruct (sessionDir w)).
  destruct (Hin name) as [v ->]; [left|].
  match goal with
  | |- ∃ w', SessionStore.download_each _ _ ?w1 = _ ∧ _ =>
      destruct (IH w1) as (w' & Hrun & Hb & Ht);
        [unfold fs_mkdir, set_sessionDir; now destruct (sessionDir w)|];
      exists w'; split; [exact Hrun|];
      rewrite Hb, Ht; unfold fs_mkdir, set_sessionDir; now destruct (sessionDir w)
  end.
Qed.

Lemma downloadSessionFromBucket_spec (w : World) :
  ∃ w', SessionStore.downloadSessionFromBucket sessionsPrefix random w
        = (Returned tt, w', [Retry.Invoked (inr tt)])
        ∧ bucket w' = bucket w ∧ ticks w' = ticks w.
Proof.
  assert (Hop : ∃ w', SessionStore.download_operation sessionsPrefix w = (inr tt, w')
                      ∧ bucket w' = bucket w ∧ ticks w' = ticks w).
  { unfold SessionStore.download_operation.
    assert (Hb : bucket (fs_mkdir w) = bucket w ∧ ticks (fs_mkdir w) = ticks w)
      by (unfold fs_mkdir; now destruct (sessionDir w)).
    destruct Hb as [Hb Ht].
    destruct (SessionStore.sessionFiles _) as [|name rest] eqn:Hfiles; [eauto|].
    destruct (download_each_present (name :: rest) (fs_mkdir w)) as (w' & Hrun & Hb' & Ht').
    - intros n Hn. rewrite <- Hfiles in Hn.
      apply list_elem_of_filter in Hn as [_ Hn]. now apply getFiles_spec in Hn.
    - exists w'. rewrite Hrun. split; [reflexivity|]. split; congruence. }
  destruct Hop as (w' & Hop & Hb & Ht). exists w'. split; [|auto].
  now apply withRetry_first_success.
Qed.

End StoreFacts.

(** C5, evaluated on a bucket that holds the engine's version file for its
    [critical_block] collection.  [clear()] deletes the credentials and
    leaves the lock, but it also leaves the version file, whose name ends in
    ["lock.json"] without being the lock object. *)
Theorem clear_keeps_critical_block (random : Z → Q) :
  let '(o, w', _) :=
    SessionStore.clearSessionFromBucket Sample.sessionsPrefix random Sample.world0 in
  o = Returned tt
  ∧ Storage.bucket w' !! "sessions/whatsapp-bot/creds.json" = None
  ∧ Storage.bucket w' !! "sessions/whatsapp-bot/lock.json"
    = Some (Storage.LockJson (Storage.mkLock "other-instance" 1000 300000))
  ∧ Storage.bucket w' !! "sessions/whatsapp-bot/app-state-sync-version-critical_block.json"
    = Some (Storage.Bytes "v7")
  ∧ "sessions/whatsapp-bot/app-state-sync-version-critical_block.json"
    ≠ SessionLock.lockFile Sample.sessionsPrefix.
Proof.
  destruct (clearSessionFromBucket_spec Sample.sessionsPrefix random Sample.world0)
    as (b' & -> & Hlook).
  simpl. rewrite !Hlook. repeat split; try reflexivity. discriminate.
Qed.

(** ** Connection manager *)

Section BotFacts.
Import Storage Bot.
Variable sessionsPrefix : string.
Variable instanceId : string.
Variable Date_now : nat → Z.
Variable random : Z → Q.
Variable loggedOut : Z.
Variable toDataURL : string → JsError + string.
Variable engine_saveCreds : World → World.

Local Abbreviation on_connection_update :=
  (Bot.on_connection_update sessionsPrefix random loggedOut toDataURL).
Local Abbreviation on_close := (Bot.on_close sessionsPrefix random loggedOut).
Local Abbreviation step :=
  (Bot.step sessionsPrefix instanceId Date_now random loggedOut toDataURL engine_saveCreds).
Local Abbreviation run :=
  (Bot.run sessionsPrefix instanceId Date_now random loggedOut toDataURL engine_saveCreds).

(** The logout test of the handler holds exactly for a [Boom] error with
    the status code [DisconnectReason.loggedOut]. *)
Lemma is_logged_out_spec (u : Update) :
  is_logged_out loggedOut u = true
  ↔ ∃ msg, lastDisconnect u = Some (mkLastDisconnect (Some (Boom loggedOut msg))).
Proof.
  unfold is_logged_out. split.
  - destruct (lastDisconnect u) as [[[[c m|m]|]]|]; try discriminate.
    intros ->%Z.eqb_eq. eauto.
  - intros [msg ->]. apply Z.eqb_refl.
Qed.

Lemma shouldReconnect_logged_out (u : Update) :
  shouldReconnect loggedOut u = negb (is_logged_out loggedOut u).
Proof.
  unfold shouldReconnect, is_logged_out.
  now destruct (lastDisconnect u) as [[[[c m|m]|]]|].
Qed.

Lemma on_qr_keeps (now : Z) (u : Update) (b b' : Bot) :
  on_qr toDataURL now u b = Some b' →
  sock b' = sock b ∧ isConnected b' = isConnected b
  ∧ saveCreds b' = saveCreds b ∧ isShuttingDown b' = isShuttingDown b.
Proof.
  unfold on_qr. destruct (qr u) as [q|]; [|intros [= <-]; auto].
  destruct (String.eqb q EmptyString); [intros [= <-]; auto|].
  destruct (now - lastQRTime b <? CONFIG.qrDebounceMs); [discriminate|].
  destruct (toDataURL q); intros [= <-]; auto.
Qed.

(** The close branch after a logout: the session directory is empty, the
    bucket is what [clear()] leaves, and no timer is added. *)
Lemma on_close_logged_out (u : Update) (s : System) :
  is_logged_out loggedOut u = true →
  sessionDir (world (on_close u s)) = Some ∅
  ∧ (∀ name,
        bucket (world (on_close u s)) !! name =
        if JsString.startsWith sessionsPrefix name
           && negb (JsString.endsWith "lock.json" name)
        then None else bucket (world s) !! name)
  ∧ timers (on_close u s) = timers s
  ∧ actions (on_close u s) = actions s.
Proof.
  intros Hout. unfold Bot.on_close. rewrite Hout, shouldReconnect_logged_out, Hout.
  cbn [world set_bot].
  destruct (clearSessionFromBucket_spec sessionsPrefix random (fs_mkdir (fs_rm (world s))))
    as (b' & -> & Hlook).
  rewrite andb_false_r. cbn.
  split; [reflexivity|]. split; [exact Hlook | split; reflexivity].
Qed.

Lemma on_close_other (u : Update) (s : System) :
  is_logged_out loggedOut u = false →
  world (on_close u s) = world s
  ∧ actions (on_close u s) = actions s
  ∧ timers (on_close u s)
    = if isShuttingDown (bot s) then timers s else timers s ++ [ReconnectTimer 5000].
Proof.
  intros Hout. unfold Bot.on_close. rewrite Hout, shouldReconnect_logged_out, Hout.
  cbn. now destruct (isShuttingDown (bot s)).
Qed.

(** What the close branch does for every event: a close event that the
    handler processes (it is not ended by the QR debounce) and whose reason
    is "logged out" deletes and recreates the local session directory and
    then runs [clearSessionFromBucket()]: the directory is empty, the
    bucket is what that function leaves (it spares every object whose
    name ends in ["lock.json"]), and no reconnect timer is added.  A close
    event with any other reason, or with none, changes neither the
    directory nor the bucket. *)
Theorem close_clears_session_only_on_logout (now : Z) (u : Update) (s : System) :
  connection u = Some conn_close →
  debounced toDataURL now u (bot s) = false →
  let s' := on_connection_update now u s in
  ((∃ msg, lastDisconnect u = Some (mkLastDisconnect (Some (Boom loggedOut msg)))) →
     (∃ tr, SessionStore.clearSessionFromBucket sessionsPrefix random
              (fs_mkdir (fs_rm (world s)))
            = (Returned tt, world s', tr))
     ∧ sessionDir (world s') = Some ∅
     ∧ (∀ name,
           bucket (world s') !! name =
           if JsString.startsWith sessionsPrefix name
              && negb (JsString.endsWith "lock.json" name)
           then None else bucket (world s) !! name)
     ∧ timers s' = timers s)
  ∧ ((∀ msg, lastDisconnect u ≠ Some (mkLastDisconnect (Some (Boom loggedOut msg)))) →
     world s' = world s).
Proof.
  intros Hclose Hdeb s'. subst s'. unfold Bot.on_connection_update.
  unfold debounced in Hdeb.
  destruct (on_qr toDataURL now u (bot s)) as [b'|] eqn:Hqr; [|discriminate].
  rewrite Hclose. split.
  - intros Hout%is_logged_out_spec.
    destruct (on_close_logged_out u (set_bot b' s) Hout) as (Hdir & Hbucket & Htimers & _).
    split; [|auto].
    unfold Bot.on_close. rewrite Hout. cbn [world set_bot].
    destruct (clearSessionFromBucket_spec sessionsPrefix random (fs_mkdir (fs_rm (world s))))
      as (b1 & Hrun & _).
    rewrite Hrun, shouldReconnect_logged_out, Hout. cbn. eauto.
  - intros Hother.
    destruct (is_logged_out loggedOut u) eqn:Hout.
    + apply is_logged_out_spec in Hout as [msg Hmsg]. now destruct (Hother msg).
    + now destruct (on_close_other u (set_bot b' s) Hout) as (Hw & _).
Qed.

(** *** Pairing challenge and debounce *)

Lemma on_close_bot (u : Update) (s : System) :
  isShuttingDown (bot (on_close u s)) = isShuttingDown (bot s)
  ∧ lastQRTime (bot (on_close u s)) = lastQRTime (bot s).
Proof.
  unfold Bot.on_close.
  destruct (is_logged_out loggedOut u).
  - destruct (SessionStore.clearSessionFromBucket _ _ _) as [[[v| |e] w'] tr]; cbn;
      destruct (shouldReconnect loggedOut u); cbn;
      destruct (isShuttingDown (bot s)); cbn; auto.
  - cbn. destruct (shouldReconnect loggedOut u); cbn;
      destruct (isShuttingDown (bot s)); cbn; auto.
Qed.

(** C7. A pairing challenge that arrives while the time since the last
    processed one is below the debounce window changes nothing: the exposed
    artifact and the debounce timer stay as they are.  One that arrives
    later sets the debounce timer to the current time and, on an event that
    is only a challenge (its connection field reports neither close nor
    open), exposes the newly rendered artifact. *)
Theorem qr_debounce (now : Z) (u : Update) (s : System) (q : string) :
  qr u = Some q → q ≠ EmptyString →
  let s' := on_connection_update now u s in
  (now - lastQRTime (bot s) < CONFIG.qrDebounceMs → s' = s)
  ∧ (CONFIG.qrDebounceMs ≤ now - lastQRTime (bot s) →
     lastQRTime (bot s') = now
     ∧ ∀ image, toDataURL q = inr image →
         connection u ≠ Some conn_close → connection u ≠ Some conn_open →
         qrCodeBase64 (bot s') = Some image).
Proof.
  intros Hqr Hq s'. subst s'. unfold Bot.on_connection_update, on_qr. rewrite Hqr.
  replace (String.eqb q EmptyString) with false
    by (symmetry; now apply String.eqb_neq).
  split.
  - intros Hlt. now replace (now - lastQRTime (bot s) <? CONFIG.qrDebounceMs) with true
      by (symmetry; now apply Z.ltb_lt).
  - intros Hge.
    replace (now - lastQRTime (bot s) <? CONFIG.qrDebounceMs) with false
      by (symmetry; apply Z.ltb_ge; lia).
    split.
    + destruct (toDataURL q) as [e|image]; cbn [lastQRTime];
        destruct (connection u) as [[| |]|]; cbn; try reflexivity;
        now rewrite (proj2 (on_close_bot u _)).
    + intros image -> Hnc Hno.
      destruct (connection u) as [[| |]|]; cbn; try reflexivity; congruence.
Qed.

End BotFacts.

Lemma close_clears_session_only_on_logout_witness :
  let s' := Bot.on_connection_update Sample.sessionsPrefix Sample.random Sample.loggedOut
              Sample.toDataURL 1000 Sample.logout_event Sample.system0 in
  ((∃ msg, Bot.lastDisconnect Sample.logout_event
           = Some (Bot.mkLastDisconnect (Some (Bot.Boom Sample.loggedOut msg)))) →
     (∃ tr, SessionStore.clearSessionFromBucket Sample.sessionsPrefix Sample.random
              (Storage.fs_mkdir (Storage.fs_rm (Bot.world Sample.system0)))
            = (Returned tt, Bot.world s', tr))
     ∧ Storage.sessionDir (Bot.world s') = Some ∅
     ∧ (∀ name,
           Storage.bucket (Bot.world s') !! name =
           if JsString.startsWith Sample.sessionsPrefix name
              && negb (JsString.endsWith "lock.json" name)
           then None else Storage.bucket (Bot.world Sample.system0) !! name)
     ∧ Bot.timers s' = Bot.timers Sample.system0)
  ∧ ((∀ msg, Bot.lastDisconnect Sample.logout_event
             ≠ Some (Bot.mkLastDisconnect (Some (Bot.Boom Sample.loggedOut msg)))) →
     Bot.world s' = Bot.world Sample.system0).
Proof.
  apply (close_clears_session_only_on_logout Sample.sessionsPrefix Sample.random
           Sample.loggedOut Sample.toDataURL 1000 Sample.logout_event Sample.system0);
    reflexivity.
Defined.

(** C3. The handler on the sample logout event, in a bucket that holds the
    credentials, the lock and the version file the engine keeps for its
    [critical_block] collection.  The session directory is emptied, the
    credentials are deleted, the lock object is kept, and no reconnect is
    scheduled or attempted; but the version file, an object under the
    prefix that is not the lock object, is still there: the remote
    session was not cleared. *)
Theorem logout_keeps_critical_block (random : Z → Q)
    (toDataURL : string → JsError + string) (now : Z) :
  let s' := Bot.on_connection_update Sample.sessionsPrefix random Sample.loggedOut
              toDataURL now Sample.logout_event Sample.system0 in
  Storage.sessionDir (Bot.world s') = Some ∅
  ∧ Storage.bucket (Bot.world s') !! "sessions/whatsapp-bot/creds.json" = None
  ∧ Storage.bucket (Bot.world s') !! "sessions/whatsapp-bot/lock.json"
    = Some (Storage.LockJson (Storage.mkLock "other-instance" 1000 300000))
  ∧ Storage.bucket (Bot.world s')
    !! "sessions/whatsapp-bot/app-state-sync-version-critical_block.json"
    = Some (Storage.Bytes "v7")
  ∧ JsString.startsWith Sample.sessionsPrefix
      "sessions/whatsapp-bot/app-state-sync-version-critical_block.json" = true
  ∧ "sessions/whatsapp-bot/app-state-sync-version-critical_block.json"
    ≠ SessionLock.lockFile Sample.sessionsPrefix
  ∧ Bot.timers s' = []
  ∧ Bot.actions s' = [].
Proof.
  cbn zeta. unfold Bot.on_connection_update.
  change (Bot.on_qr toDataURL now Sample.logout_event (Bot.bot Sample.system0))
    with (Some (Bot.bot Sample.system0)).
  cbn [Bot.connection Sample.logout_event].
  destruct (on_close_logged_out Sample.sessionsPrefix random Sample.loggedOut
              Sample.logout_event
              (Bot.set_bot (Bot.bot Sample.system0) Sample.system0) eq_refl)
    as (Hdir & Hbucket & Htimers & Hactions).
  rewrite Hdir, !Hbucket, Htimers, Hactions.
  repeat split; try reflexivity. discriminate.
Qed.

Lemma qr_debounce_witness :
  let s' := Bot.on_connection_update Sample.sessionsPrefix Sample.random Sample.loggedOut
              Sample.toDataURL 6000 Sample.qr_event Sample.system0 in
  (6000 - Bot.lastQRTime (Bot.bot Sample.system0) < CONFIG.qrDebounceMs → s' = Sample.system0)
  ∧ (CONFIG.qrDebounceMs ≤ 6000 - Bot.lastQRTime (Bot.bot Sample.system0) →
     Bot.lastQRTime (Bot.bot s') = 6000
     ∧ ∀ image, Sample.toDataURL "2@pairing-token" = inr image →
         Bot.connection Sample.qr_event ≠ Some Bot.conn_close →
         Bot.connection Sample.qr_event ≠ Some Bot.conn_open →
         Bot.qrCodeBase64 (Bot.bot s') = Some image).
Proof.
  apply (qr_debounce Sample.sessionsPrefix Sample.random Sample.loggedOut Sample.toDataURL
           6000 Sample.qr_event Sample.system0 "2@pairing-token").
  - reflexivity.
  - discriminate.
Defined.

(** The same events evaluated: a challenge 6 seconds after start-up is
    rendered, a second one 2 seconds later is dropped, a third one after
    the window is rendered again. *)
Example qr_debounce_trace :
  let handler := Bot.on_connection_update Sample.sessionsPrefix Sample.random
                   Sample.loggedOut Sample.toDataURL in
  let s1 := handler 6000 Sample.qr_event Sample.system0 in
  let s2 := handler 8000 (Bot.mkUpdate None None (Some "2@second")) s1 in
  let s3 := handler 11000 (Bot.mkUpdate None None (Some "2@third")) s2 in
  Bot.qrCodeBase64 (Bot.bot s1) = Some "data:image/png;base64,2@pairing-token"
  ∧ s2 = s1
  ∧ Bot.qrCodeBase64 (Bot.bot s3) = Some "data:image/png;base64,2@third"
  ∧ Bot.lastQRTime (Bot.bot s3) = 11000.
Proof. repeat split; reflexivity. Qed.

(** *** Shutdown flag and reconnect policy *)

Section ReconnectFacts.
Import Storage Bot.
Variable sessionsPrefix : string.
Variable instanceId : string.
Variable Date_now : nat → Z.
Variable random : Z → Q.
Variable loggedOut : Z.
Variable toDataURL : string → JsError + string.
Variable engine_saveCreds : World → World.

Local Abbreviation on_connection_update :=
  (Bot.on_connection_update sessionsPrefix random loggedOut toDataURL).
Local Abbreviation on_close := (Bot.on_close sessionsPrefix random loggedOut).
Local Abbreviation initialize :=
  (Bot.initialize sessionsPrefix instanceId Date_now random).
Local Abbreviation shutdown := (Bot.shutdown sessionsPrefix random engine_saveCreds).
Local Abbreviation step :=
  (Bot.step sessionsPrefix instanceId Date_now random loggedOut toDataURL engine_saveCreds).
Local Abbreviation run :=
  (Bot.run sessionsPrefix instanceId Date_now random loggedOut toDataURL engine_saveCreds).

Ltac no_reconnect_cases :=
  unfold no_reconnect, reconnect_timers, reconnect_attempts; cbn;
  rewrite ?filter_app; cbn; rewrite ?app_nil_r; auto.

Lemma no_reconnect_refl (s : System) : no_reconnect s s.
Proof. no_reconnect_cases. Qed.

Lemma no_reconnect_trans (s1 s2 s3 : System) :
  no_reconnect s1 s2 → no_reconnect s2 s3 → no_reconnect s1 s3.
Proof.
  intros (Hf & Ht & Ha) (Hf' & Ht' & Ha'). repeat split.
  - congruence.
  - now transitivity (reconnect_timers s2).
  - congruence.
Qed.

Lemma initialize_no_reconnect (s : System) : no_reconnect s (initialize s).
Proof.
  unfold Bot.initialize.
  destruct (SessionLock.acquireLock _ _ _ _) as [[[[[]| |e] w] tr]|];
    try (no_reconnect_cases; fail);
    destruct (SessionStore.downloadSessionFromBucket _ _ _) as [[[v| |e'] w'] tr'];
    no_reconnect_cases.
Qed.

Lemma shutdown_sets_flag (s : System) :
  isShuttingDown (bot (shutdown s)) = true
  ∧ timers (shutdown s) = timers s
  ∧ reconnect_attempts (shutdown s) = reconnect_attempts s.
Proof.
  unfold Bot.shutdown. cbn.
  destruct (saveCreds (bot s)); cbn.
  - destruct (SessionStore.uploadSessionToBucket _ _ _) as [[[v| |e] w'] tr]; cbn;
      destruct (sock (bot s)); no_reconnect_cases.
  - destruct (sock (bot s)); no_reconnect_cases.
Qed.

Lemma on_close_flag_set (u : Update) (s : System) :
  isShuttingDown (bot s) = true → no_reconnect s (on_close u s).
Proof.
  destruct s as [[sk ic sc sd lq qc] w ts acts]. cbn. intros ->.
  unfold Bot.on_close. cbn.
  destruct (is_logged_out loggedOut u).
  - destruct (SessionStore.clearSessionFromBucket _ _ _) as [[[v| |e] w'] tr]; cbn;
      rewrite ?andb_false_r; no_reconnect_cases.
  - cbn. rewrite andb_false_r. no_reconnect_cases.
Qed.

(** With the flag set, no handler clears it, adds a reconnect timer or
    makes a reconnect attempt. *)
Lemma step_flag_set (s : System) (i : Input) :
  isShuttingDown (bot s) = true →
  isShuttingDown (bot (step s i)) = true
  ∧ reconnect_timers (step s i) `sublist_of` reconnect_timers s
  ∧ reconnect_attempts (step s i) = reconnect_attempts s.
Proof.
  intros Hflag.
  assert (Hfrom : ∀ s', no_reconnect s s' →
            isShuttingDown (bot s') = true
            ∧ reconnect_timers s' `sublist_of` reconnect_timers s
            ∧ reconnect_attempts s' = reconnect_attempts s).
  { intros s' (Hf & Ht & Ha). rewrite Hf. auto. }
  destruct i as [now u| |i| |]; cbn [Bot.step].
  - apply Hfrom. unfold Bot.on_connection_update.
    destruct (on_qr toDataURL now u (bot s)) as [b'|] eqn:Hqr; [|apply no_reconnect_refl].
    destruct (on_qr_keeps toDataURL now u (bot s) b' Hqr) as (_ & _ & _ & Hf).
    assert (Hset : no_reconnect s (set_bot b' s)) by (no_reconnect_cases).
    destruct (connection u) as [[| |]|]; try exact Hset.
    eapply no_reconnect_trans; [exact Hset|].
    apply on_close_flag_set. cbn. congruence.
  - apply Hfrom. unfold on_creds_update.
    destruct (SessionStore.uploadSessionToBucket _ _ _) as [[o w'] tr].
    no_reconnect_cases.
  - apply Hfrom. unfold on_timer.
    destruct (timers s !! i) as [t|] eqn:Ht; [|apply no_reconnect_refl].
    assert (Hdel : no_reconnect s (mkSystem (bot s) (world s) (delete i (timers s)) (actions s))).
    { unfold no_reconnect, reconnect_timers, reconnect_attempts. cbn.
      repeat split. clear. generalize (sublist_delete (timers s) i).
      generalize (delete i (timers s)) as l1. generalize (timers s) as l2.
      intros l2 l1 Hsub. induction Hsub as [|x l1 l2 Hsub IH|x l1 l2 Hsub IH].
      - constructor.
      - rewrite !filter_cons. destruct (decide _); [now constructor | exact IH].
      - rewrite filter_cons. destruct (decide _); [now constructor | exact IH]. }
    destruct t as [d|d].
    + cbn. rewrite Hflag. exact Hdel.
    + eapply no_reconnect_trans; [exact Hdel | apply initialize_no_reconnect].
  - apply Hfrom, initialize_no_reconnect.
  - destruct (shutdown_sets_flag s) as (Hf & Ht & Ha). repeat split; auto.
    unfold reconnect_timers. now rewrite Ht.
Qed.

Lemma run_flag_set (inputs : list Input) (s : System) :
  isShuttingDown (bot s) = true →
  isShuttingDown (bot (run inputs s)) = true
  ∧ reconnect_timers (run inputs s) `sublist_of` reconnect_timers s
  ∧ reconnect_attempts (run inputs s) = reconnect_attempts s.
Proof.
  revert s. induction inputs as [|i inputs IH]; intros s Hflag; [now auto|].
  destruct (step_flag_set s i Hflag) as (Hf & Ht & Ha).
  destruct (IH (step s i) Hf) as (Hf' & Ht' & Ha').
  unfold Bot.run in *. cbn [foldl]. repeat split.
  - exact Hf'.
  - etransitivity; [exact Ht' | exact Ht].
  - congruence.
Qed.

(** C6. [shutdown()] sets the flag; once the flag is set, whatever
    happens next leaves it set, adds no reconnect timer and makes no
    reconnect attempt; and a close event that the handler processes, whose
    reason is not logout, arriving while the flag is unset, adds exactly
    one reconnect timer, with the fixed delay of 5000 ms. *)
Theorem shutdown_flag_one_way_reconnect_policy :
  (∀ s, isShuttingDown (bot (shutdown s)) = true)
  ∧ (∀ inputs s,
        isShuttingDown (bot s) = true →
        isShuttingDown (bot (run inputs s)) = true
        ∧ reconnect_timers (run inputs s) `sublist_of` reconnect_timers s
        ∧ reconnect_attempts (run inputs s) = reconnect_attempts s)
  ∧ (∀ now u s,
        connection u = Some conn_close →
        debounced toDataURL now u (bot s) = false →
        (∀ msg, lastDisconnect u ≠ Some (mkLastDisconnect (Some (Boom loggedOut msg)))) →
        isShuttingDown (bot s) = false →
        timers (on_connection_update now u s) = timers s ++ [ReconnectTimer 5000]).
Proof.
  split; [|split].
  - intros s. apply shutdown_sets_flag.
  - apply run_flag_set.
  - intros now u s Hclose Hdeb Hother Hflag.
    unfold Bot.on_connection_update. unfold debounced in Hdeb.
    destruct (on_qr toDataURL now u (bot s)) as [b'|] eqn:Hqr; [|discriminate].
    rewrite Hclose.
    destruct (on_qr_keeps toDataURL now u (bot s) b' Hqr) as (_ & _ & _ & Hf).
    assert (Hout : is_logged_out loggedOut u = false).
    { destruct (is_logged_out loggedOut u) eqn:Hout; [|reflexivity].
      apply is_logged_out_spec in Hout as [msg Hmsg]. now destruct (Hother msg). }
    destruct (on_close_other sessionsPrefix random loggedOut u (set_bot b' s) Hout)
      as (_ & _ & ->).
    cbn. now rewrite Hf, Hflag.
Qed.

End ReconnectFacts.

Lemma shutdown_flag_one_way_reconnect_policy_witness :
  Bot.timers (Bot.on_connection_update Sample.sessionsPrefix Sample.random Sample.loggedOut
                Sample.toDataURL 1000 Sample.lost_event Sample.system0)
  = Bot.timers Sample.system0 ++ [Bot.ReconnectTimer 5000].
Proof.
  apply (shutdown_flag_one_way_reconnect_policy Sample.sessionsPrefix "instance-1"
           Sample.Date_now Sample.random Sample.loggedOut Sample.toDataURL
           Sample.engine_saveCreds).
  - reflexivity.
  - reflexivity.
  - intros msg. discriminate.
  - reflexivity.
Defined.

(** Without a shutdown the timer keeps its promise: one reconnect attempt,
    which creates a new socket. *)
Example reconnect_after_close :
  let s :=
    Bot.run Sample.sessionsPrefix "instance-1" Sample.Date_now Sample.random
            Sample.loggedOut Sample.toDataURL Sample.engine_saveCreds
            [Bot.ConnectionUpdate 1000 Sample.lost_event; Bot.TimerFired 0]
            Sample.system0 in
  Bot.timers s = [] ∧ Bot.actions s = [Bot.ReconnectAttempt; Bot.SocketCreated].
Proof. split; reflexivity. Qed.

(** A run of the sample system: connection lost, shutdown, then the timer
    fires and a further close event arrives.  The timer makes no attempt
    and the close event schedules nothing. *)
Example reconnect_suppressed_after_shutdown :
  let s :=
    Bot.run Sample.sessionsPrefix "instance-1" Sample.Date_now Sample.random
            Sample.loggedOut Sample.toDataURL Sample.engine_saveCreds
            [Bot.ConnectionUpdate 1000 Sample.lost_event; Bot.Shutdown;
             Bot.TimerFired 0; Bot.ConnectionUpdate 7000 Sample.lost_event]
            Sample.system0 in
  Bot.isShuttingDown (Bot.bot s) = true
  ∧ Bot.timers s = []
  ∧ Bot.actions s = [].
Proof. repeat split; reflexivity. Qed.

(** ** Session lock *)

Section LockFacts.
Import Storage SessionLock.
Variable sessionsPrefix : string.
Variable instanceId : string.
Variable Date_now : nat → Z.
Variable random : Z → Q.

Local Abbreviation lockFile := (SessionLock.lockFile sessionsPrefix).
Local Abbreviation acquireLock_fuel :=
  (SessionLock.acquireLock_fuel sessionsPrefix instanceId Date_now).
Local Abbreviation acquireLock :=
  (SessionLock.acquireLock sessionsPrefix instanceId Date_now).

(** Without a lock object the conditional create succeeds at once. *)
Lemma acquireLock_fuel_absent (n : nat) (w : World) :
  bucket w !! lockFile = None →
  acquireLock_fuel (S n) w
  = Some (Returned true,
          mkWorld (<[lockFile := LockJson (mkLock instanceId (Date_now (ticks w))
                                                  CONFIG.lockTtlMs)]> (bucket w))
                  (sessionDir w) (S (ticks w)),
          [SaveAttempt true]).
Proof.
  intros Habsent. cbn. unfold save_if_absent. cbn. now rewrite Habsent.
Qed.

(** An expired lock: deleted, and the nested call creates the new one. *)
Lemma acquireLock_fuel_stale (n : nat) (w : World) (held : LockRecord) :
  bucket w !! lockFile = Some (LockJson held) →
  Date_now (S (ticks w)) - timestamp held > ttl held →
  acquireLock_fuel (S (S n)) w
  = Some (Returned true,
          mkWorld (<[lockFile := LockJson (mkLock instanceId (Date_now (S (S (ticks w))))
                                                  CONFIG.lockTtlMs)]> (bucket w))
                  (sessionDir w) (S (S (S (ticks w)))),
          [SaveAttempt false; Download; Delete; SaveAttempt true]).
Proof.
  intros Hheld Hage.
  cbn. unfold save_if_absent, download. cbn. rewrite Hheld. cbn.
  replace (Date_now (S (ticks w)) - timestamp held >? ttl held) with true
    by (symmetry; apply Z.gtb_lt; lia).
  unfold delete_file. cbn. rewrite Hheld. cbn.
  rewrite lookup_delete_eq. cbn. now rewrite insert_delete_eq.
Qed.

(** A lock that has not expired: the call returns [false], and the bucket
    is as before. *)
Lemma acquireLock_fuel_held (n : nat) (w : World) (held : LockRecord) :
  bucket w !! lockFile = Some (LockJson held) →
  Date_now (S (ticks w)) - timestamp held ≤ ttl held →
  acquireLock_fuel (S n) w
  = Some (Returned false,
          mkWorld (bucket w) (sessionDir w) (S (S (S (ticks w)))),
          [SaveAttempt false; Download;
           WarnHeld (Storage.instanceId held)
                    (Date_now (S (S (ticks w))) - timestamp held)]).
Proof.
  intros Hheld Hage.
  cbn. unfold save_if_absent, download. cbn. rewrite Hheld. cbn.
  replace (Date_now (S (ticks w)) - timestamp held >? ttl held) with false
    by (symmetry; rewrite Z.gtb_ltb; apply Z.ltb_ge; lia).
  reflexivity.
Qed.

(** A lock object that does not parse is broken like an expired one. *)
Lemma acquireLock_fuel_invalid (n : nat) (w : World) (content : string) :
  bucket w !! lockFile = Some (Bytes content) →
  acquireLock_fuel (S (S n)) w
  = Some (Returned true,
          mkWorld (<[lockFile := LockJson (mkLock instanceId (Date_now (S (ticks w)))
                                                  CONFIG.lockTtlMs)]> (bucket w))
                  (sessionDir w) (S (S (ticks w))),
          [SaveAttempt false; Download; WarnInvalid; Delete; SaveAttempt true]).
Proof.
  intros Hheld.
  cbn. unfold save_if_absent, download. cbn. rewrite Hheld. cbn.
  unfold delete_file. cbn. rewrite Hheld. cbn.
  rewrite lookup_delete_eq. cbn. now rewrite insert_delete_eq.
Qed.

(** In this store one nested call is all that [acquireLock()] makes:
    fuel 2 always gives a result, and more fuel gives the same. *)
Lemma acquireLock_total (n : nat) (w : World) :
  acquireLock_fuel (S (S n)) w = acquireLock w ∧ is_Some (acquireLock w).
Proof.
  unfold SessionLock.acquireLock.
  destruct (bucket w !! lockFile) as [[held|content]|] eqn:Hlock.
  - destruct (Z_le_gt_dec (Date_now (S (ticks w)) - timestamp held) (ttl held)).
    + rewrite !(acquireLock_fuel_held _ w held) by assumption. eauto.
    + rewrite !(acquireLock_fuel_stale _ w held) by assumption. eauto.
  - rewrite !(acquireLock_fuel_invalid _ w content) by assumption. eauto.
  - rewrite !acquireLock_fuel_absent by assumption. eauto.
Qed.

(** After a refused lock [initialize()] goes on: it warns, and ends by
    creating the socket. *)
Lemma initialize_without_lock (s : Bot.System) (held : LockRecord) :
  bucket (Bot.world s) !! lockFile = Some (LockJson held) →
  Date_now (S (ticks (Bot.world s))) - timestamp held ≤ ttl held →
  Bot.actions (Bot.initialize sessionsPrefix instanceId Date_now random s)
  = Bot.actions s ++ [Bot.WarnNoLock; Bot.SocketCreated].
Proof.
  intros Hheld Hage. unfold Bot.initialize, SessionLock.acquireLock.
  rewrite (acquireLock_fuel_held 1 (Bot.world s) held Hheld Hage). cbn.
  destruct (downloadSessionFromBucket_spec sessionsPrefix random
              (fs_mkdir (mkWorld (bucket (Bot.world s)) (sessionDir (Bot.world s))
                                 (S (S (S (ticks (Bot.world s))))))))
    as (w' & -> & _).
  cbn. now rewrite <- app_assoc.
Qed.

(** C2. When [acquireLock()] finds a lock record whose age exceeds its
    [ttl], it deletes the record and retries once, and the retry creates
    the caller's lock: the result is [true].  When the record has not
    expired, the result is [false], nothing is thrown, the bucket is
    unchanged, and [initialize()], the caller, warns and goes on to create
    the socket. *)
Theorem acquireLock_stale_or_held (w : World) (held : LockRecord) :
  bucket w !! lockFile = Some (LockJson held) →
  let age := Date_now (S (ticks w)) - timestamp held in
  (age > ttl held →
     ∃ w', acquireLock w
           = Some (Returned true, w', [SaveAttempt false; Download; Delete; SaveAttempt true])
           ∧ bucket w'
             = <[lockFile := LockJson (mkLock instanceId (Date_now (S (S (ticks w))))
                                              CONFIG.lockTtlMs)]> (bucket w))
  ∧ (age ≤ ttl held →
     (∃ w' warning, acquireLock w
           = Some (Returned false, w', [SaveAttempt false; Download; warning])
           ∧ bucket w' = bucket w)
     ∧ ∀ s, Bot.world s = w →
         Bot.actions (Bot.initialize sessionsPrefix instanceId Date_now random s)
         = Bot.actions s ++ [Bot.WarnNoLock; Bot.SocketCreated]).
Proof.
  intros Hheld age. subst age. unfold SessionLock.acquireLock. split; intros Hage.
  - rewrite (acquireLock_fuel_stale 0 w held Hheld Hage). eauto.
  - split.
    + rewrite (acquireLock_fuel_held 1 w held Hheld Hage). eauto.
    + intros s <-. now apply (initialize_without_lock s held).
Qed.

End LockFacts.

Lemma acquireLock_stale_or_held_witness :
  let age := Sample.Date_now 1 - 1000 in
  (age > 300000 →
     ∃ w', SessionLock.acquireLock Sample.sessionsPrefix "instance-1" Sample.Date_now
             Sample.world0
           = Some (Returned true, w',
                   [SessionLock.SaveAttempt false; SessionLock.Download;
                    SessionLock.Delete; SessionLock.SaveAttempt true])
           ∧ Storage.bucket w'
             = <[SessionLock.lockFile Sample.sessionsPrefix :=
                   Storage.LockJson (Storage.mkLock "instance-1" (Sample.Date_now 2)
                                                    CONFIG.lockTtlMs)]>
                 (Storage.bucket Sample.world0))
  ∧ (age ≤ 300000 →
     (∃ w' warning,
       SessionLock.acquireLock Sample.sessionsPrefix "instance-1" Sample.Date_now
         Sample.world0
       = Some (Returned false, w',
               [SessionLock.SaveAttempt false; SessionLock.Download; warning])
       ∧ Storage.bucket w' = Storage.bucket Sample.world0)
     ∧ ∀ s, Bot.world s = Sample.world0 →
         Bot.actions (Bot.initialize Sample.sessionsPrefix "instance-1" Sample.Date_now
                        Sample.random s)
         = Bot.actions s ++ [Bot.WarnNoLock; Bot.SocketCreated]).
Proof.
  apply (acquireLock_stale_or_held Sample.sessionsPrefix "instance-1" Sample.Date_now
           Sample.random Sample.world0 (Storage.mkLock "other-instance" 1000 300000)).
  reflexivity.
Defined.

(** The sample lock was taken at 1000 and the clock reads 400001 at the
    check: the lock is expired and the caller takes it over. *)
Example acquireLock_sample :
  (λ r, r.1.1) <$> SessionLock.acquireLock Sample.sessionsPrefix "instance-1"
                     Sample.Date_now Sample.world0
  = Some (Returned true).
Proof. reflexivity. Qed.


(** ** Message queue *)

Section QueueFacts.
Import MessageQueue.

(** The state that [enqueue] leaves, whether it returns or throws. *)
Lemma enqueue_snd (a : Arrival) (q : State) :
  (enqueue a q).2
  = if (CONFIG.messageQueueMaxSize <=? length (queue q))%nat then q
    else if processing q
         then mkState (queue q ++ [mkMessage (a_to a) (a_message a) (a_retries a) (a_now a)])
                      (processing q) (item q)
         else processQueue_start (a_connected a)
                (mkState (queue q ++ [mkMessage (a_to a) (a_message a) (a_retries a) (a_now a)])
                         (processing q) (item q)).
Proof.
  unfold enqueue. destruct (_ <=? _)%nat; [|reflexivity].
  now destruct (call_substring 50 (a_message a)).
Qed.

(** While the loop runs, [enqueue] only appends: the entries accepted are
    some of those offered, in their order, behind everything already in
    the queue. *)
Lemma enqueue_all_processing (arr : list Arrival) (q : State) :
  processing q = true →
  ∃ accepted,
    enqueue_all arr q = mkState (queue q ++ accepted) true (item q)
    ∧ accepted `sublist_of` (arrival_item <$> arr).
Proof.
  revert q. induction arr as [|a arr IH]; intros [l p i] Hproc;
    cbn in Hproc; subst p.
  - exists []. cbn. now rewrite app_nil_r.
  - unfold enqueue_all. cbn [foldl]. rewrite enqueue_snd. cbn [queue processing item].
    destruct (CONFIG.messageQueueMaxSize <=? length l)%nat.
    + destruct (IH (mkState l true i) eq_refl) as (acc & Hrun & Hsub).
      exists acc. split; [exact Hrun|]. cbn. now constructor.
    + destruct (IH (mkState (l ++ [mkMessage (a_to a) (a_message a) (a_retries a) (a_now a)])
                            true i) eq_refl) as (acc & Hrun & Hsub).
      exists (arrival_item a :: acc). split.
      * unfold enqueue_all in Hrun. rewrite Hrun. cbn. now rewrite <- app_assoc.
      * cbn. now constructor.
Qed.

Lemma sendMessage_settle_fails (st : SendState) (env : Await) :
  engine_fails env → ∃ e, sendMessage_settle st (engine env) = inl e.
Proof.
  unfold engine_fails. intros Hfail. destruct st; cbn; [eauto | | eauto].
  destruct (engine env); [eauto | contradiction].
Qed.

Lemma pending_loop_head (c : bool) (l : list PendingMessage) (p : bool)
    (i : option (PendingMessage * SendState)) :
  pending (loop_head c (mkState l p i)) = l.
Proof. now destruct l. Qed.

(** One failed turn for an entry with attempts to spare: it goes back to
    the head of the queue and is the one taken next. *)
Lemma iteration_requeues (env : Await) (m : PendingMessage) (st : SendState)
    (rest : list PendingMessage) :
  engine_fails env → 1 < retries m →
  ∃ st' later result,
    iteration env (mkState rest true (Some (m, st)))
    = (mkState (rest ++ later) true (Some (with_retries m (retries m - 1), st')),
       [Attempted m (inl result); Requeued (with_retries m (retries m - 1));
        Slept CONFIG.messageRetryDelay; Slept 100])
    ∧ later `sublist_of` (arrival_item <$> arrivals env).
Proof.
  intros Hfail Hretries. unfold iteration. cbn [item].
  destruct (enqueue_all_processing (during_send env) (mkState rest true (Some (m, st))))
    as (a1 & Hrun1 & H1); [reflexivity|].
  cbn [queue item] in Hrun1. rewrite Hrun1. clear Hrun1.
  destruct (sendMessage_settle_fails st env Hfail) as [e ->].
  replace (retries m >? 1) with true by (symmetry; apply Z.gtb_lt; lia).
  unfold unshift. cbn [queue processing item].
  destruct (enqueue_all_processing (during_retry_delay env)
              (mkState (with_retries m (retries m - 1) :: rest ++ a1) true (Some (m, st))))
    as (a2 & Hrun2 & H2); [reflexivity|].
  cbn [queue item] in Hrun2. rewrite Hrun2. clear Hrun2.
  destruct (enqueue_all_processing (during_rate_limit env)
              (mkState ((with_retries m (retries m - 1) :: rest ++ a1) ++ a2) true
                       (Some (m, st))))
    as (a3 & Hrun3 & H3); [reflexivity|].
  cbn [queue item] in Hrun3. rewrite Hrun3. clear Hrun3.
  cbn [queue processing item]. unfold loop_head. cbn.
  eexists _, (a1 ++ a2 ++ a3), e. split.
  - rewrite <- !app_assoc. reflexivity.
  - unfold arrivals. rewrite !fmap_app. now repeat apply sublist_app.
Qed.

(** The failed turn of an entry on its last attempt: it is not put back. *)
Lemma iteration_drops (env : Await) (m : PendingMessage) (st : SendState)
    (rest : list PendingMessage) :
  engine_fails env → retries m ≤ 1 →
  ∃ later result,
    let '(q', tr) := iteration env (mkState rest true (Some (m, st))) in
    pending q' = rest ++ later
    ∧ tr = [Attempted m (inl result); Dropped m; Slept 100]
    ∧ later `sublist_of` (arrival_item <$> arrivals env).
Proof.
  intros Hfail Hretries. unfold iteration. cbn [item].
  destruct (enqueue_all_processing (during_send env) (mkState rest true (Some (m, st))))
    as (a1 & Hrun1 & H1); [reflexivity|].
  cbn [queue item] in Hrun1. rewrite Hrun1. clear Hrun1.
  destruct (sendMessage_settle_fails st env Hfail) as [e ->].
  replace (retries m >? 1) with false
    by (symmetry; rewrite Z.gtb_ltb; apply Z.ltb_ge; lia).
  destruct (enqueue_all_processing (during_rate_limit env)
              (mkState (rest ++ a1) true (Some (m, st))))
    as (a3 & Hrun3 & H3); [reflexivity|].
  cbn [queue item] in Hrun3. rewrite Hrun3. clear Hrun3.
  cbn [queue processing item]. rewrite pending_loop_head.
  exists (a1 ++ a3), e. split; [now rewrite app_assoc|]. split; [reflexivity|].
  unfold arrivals. rewrite !fmap_app. apply sublist_app; [exact H1|].
  now apply sublist_inserts_l.
Qed.

(** Whatever the outcome of the send, a turn of the loop leaves the
    waiting entries as they are and in their order: at most the entry just
    tried is put in front of them, and new ones come behind.  So an entry
    reaches the head of the queue with the attempts it was enqueued with. *)
Lemma iteration_keeps_waiting (env : Await) (m : PendingMessage) (st : SendState)
    (rest : list PendingMessage) :
  ∃ front later,
    pending (iteration env (mkState rest true (Some (m, st)))).1 = front ++ rest ++ later
    ∧ (front = [] ∨ front = [with_retries m (retries m - 1)])
    ∧ later `sublist_of` (arrival_item <$> arrivals env).
Proof.
  unfold iteration. cbn [item].
  destruct (enqueue_all_processing (during_send env) (mkState rest true (Some (m, st))))
    as (a1 & Hrun1 & H1); [reflexivity|].
  cbn [queue item] in Hrun1. rewrite Hrun1. clear Hrun1.
  assert (Hplain : ∃ later,
            pending (loop_head (connected env)
                       (enqueue_all (during_rate_limit env)
                          (mkState (rest ++ a1) true (Some (m, st)))))
            = rest ++ later
            ∧ later `sublist_of` (arrival_item <$> arrivals env)).
  { destruct (enqueue_all_processing (during_rate_limit env)
                (mkState (rest ++ a1) true (Some (m, st))))
      as (a3 & Hrun3 & H3); [reflexivity|].
    cbn [queue item] in Hrun3. rewrite Hrun3, pending_loop_head.
    exists (a1 ++ a3). split; [now rewrite app_assoc|].
    unfold arrivals. rewrite !fmap_app. apply sublist_app; [exact H1|].
    now apply sublist_inserts_l. }
  destruct (sendMessage_settle st (engine env)) as [e|id].
  - destruct (retries m >? 1).
    + unfold unshift. cbn [queue processing item].
      destruct (enqueue_all_processing (during_retry_delay env)
                  (mkState (with_retries m (retries m - 1) :: rest ++ a1) true (Some (m, st))))
        as (a2 & Hrun2 & H2); [reflexivity|].
      cbn [queue item] in Hrun2. rewrite Hrun2. clear Hrun2.
      destruct (enqueue_all_processing (during_rate_limit env)
                  (mkState ((with_retries m (retries m - 1) :: rest ++ a1) ++ a2) true
                           (Some (m, st))))
        as (a3 & Hrun3 & H3); [reflexivity|].
      cbn [queue item] in Hrun3. rewrite Hrun3. clear Hrun3.
      cbn [fst]. rewrite pending_loop_head.
      exists [with_retries m (retries m - 1)], (a1 ++ a2 ++ a3). split; [|split].
      * cbn. now rewrite <- !app_assoc.
      * now right.
      * unfold arrivals. rewrite !fmap_app. now repeat apply sublist_app.
    + destruct Hplain as (later & Hp & Hsub). exists [], later. cbn [fst]. auto.
  - destruct Hplain as (later & Hp & Hsub). exists [], later. cbn [fst]. auto.
Qed.

Lemma enqueue_room (a : Arrival) (q : State) :
  (length (queue q) < CONFIG.messageQueueMaxSize)%nat → (enqueue a q).1 = inr true.
Proof.
  intros Hroom. unfold enqueue.
  now replace (CONFIG.messageQueueMaxSize <=? length (queue q))%nat with false
    by (symmetry; apply Nat.leb_gt; lia).
Qed.

(** [enqueue] on a queue with room: the entry is appended with the
    attempts given, behind everything the queue holds. *)
Lemma enqueue_appends (a : Arrival) (q : State) :
  (length (queue q) < CONFIG.messageQueueMaxSize)%nat →
  (is_Some (item q) → processing q = true) →
  (enqueue a q).1 = inr true
  ∧ pending (enqueue a q).2 = pending q ++ [arrival_item a].
Proof.
  intros Hroom Hinv. unfold enqueue.
  replace (CONFIG.messageQueueMaxSize <=? length (queue q))%nat with false
    by (symmetry; apply Nat.leb_gt; lia).
  cbn [fst snd processing]. split; [reflexivity|].
  destruct q as [l p [[it st]|]]; cbn in *.
  - rewrite Hinv by eauto. reflexivity.
  - destruct p; [reflexivity|].
    unfold processQueue_start. cbn. unfold loop_head. cbn. destruct l; reflexivity.
Qed.

End QueueFacts.

Section QueueRuns.
Import MessageQueue.

Lemma with_retries_same (m : PendingMessage) : with_retries m (retries m) = m.
Proof. now destruct m. Qed.

Lemma with_retries_twice (m : PendingMessage) (a b : Z) :
  with_retries (with_retries m a) b = with_retries m b.
Proof. reflexivity. Qed.

(** A run of failed turns, no longer than the attempts the entry has. *)
Lemma processQueue_failing (envs : list Await) :
  ∀ (m : PendingMessage) (st : SendState) (rest : list PendingMessage),
    Forall engine_fails envs →
    1 ≤ retries m →
    Z.of_nat (length envs) ≤ retries m →
    ∃ later,
      let '(q', tr) := processQueue envs (mkState rest true (Some (m, st))) in
      attempts tr
      = (λ k, with_retries m (retries m - Z.of_nat k)) <$> seq 0 (length envs)
      ∧ requeues tr
        = (λ k, with_retries m (retries m - Z.of_nat k))
            <$> seq 1 (Nat.min (length envs) (Z.to_nat (retries m) - 1))
      ∧ pending q'
        = (if Z.of_nat (length envs) <? retries m
           then [with_retries m (retries m - Z.of_nat (length envs))] else [])
          ++ rest ++ later
      ∧ later `sublist_of` (arrival_item <$> concat (arrivals <$> envs)).
Proof.
  induction envs as [|env envs IH]; intros m st rest Hfail Hpos Hlen.
  - exists []. cbn. change (Z.of_nat 0) with 0.
    replace (0 <? retries m) with true by (symmetry; apply Z.ltb_lt; lia).
    rewrite Z.sub_0_r, with_retries_same, app_nil_r. repeat split. constructor.
  - apply Forall_cons in Hfail as [Hfail Hfails]. cbn [length] in Hlen.
    cbn [processQueue].
    destruct (Z_lt_le_dec 1 (retries m)) as [Hmore|Hlast].
    + destruct (iteration_requeues env m st rest Hfail Hmore)
        as (st' & l1 & e & -> & Hl1).
      destruct (IH (with_retries m (retries m - 1)) st' (rest ++ l1) Hfails)
        as (later & Hrun); [cbn; lia | cbn; lia|].
      destruct (processQueue envs _) as [q'' tr'].
      destruct Hrun as (Hatt & Hreq & Hpend & Hsub).
      exists (l1 ++ later). cbn [retries with_retries] in *.
      unfold attempts, requeues in *. rewrite !omap_app.
      split; [|split; [|split]].
      * rewrite Hatt. cbn [omap app length seq fmap list_fmap].
        rewrite Z.sub_0_r, with_retries_same. f_equal.
        rewrite <- fmap_S_seq, <- list_fmap_compose.
        apply list_fmap_ext. intros _ k _. cbn. f_equal. lia.
      * rewrite Hreq. cbn [omap app length].
        replace (Nat.min (S (length envs)) (Z.to_nat (retries m) - 1))
          with (S (Nat.min (length envs) (Z.to_nat (retries m - 1) - 1))) by lia.
        generalize (Nat.min (length envs) (Z.to_nat (retries m - 1) - 1)) as n.
        intros n. cbn [seq fmap list_fmap]. f_equal.
        rewrite <- (fmap_S_seq 1), <- list_fmap_compose.
        apply list_fmap_ext. intros _ k _. cbn. f_equal. lia.
      * rewrite Hpend, <- !app_assoc.
        replace (Z.of_nat (length envs) <? retries m - 1)
          with (Z.of_nat (S (length envs)) <? retries m)
          by (destruct (Z.ltb_spec (Z.of_nat (S (length envs))) (retries m));
              symmetry; [apply Z.ltb_lt | apply Z.ltb_ge]; lia).
        replace (retries m - 1 - Z.of_nat (length envs))
          with (retries m - Z.of_nat (S (length envs))) by lia.
        reflexivity.
      * cbn. rewrite fmap_app. now apply sublist_app.
    + assert (envs = []) by (destruct envs; [reflexivity | cbn in Hlen; lia]). subst envs.
      destruct (iteration_drops env m st rest Hfail Hlast) as (later & e & Hrun).
      destruct (iteration env _) as [q' tr]. destruct Hrun as (Hpend & -> & Hsub).
      exists later. cbn. change (Z.of_nat 1) with 1.
      replace (1 <? retries m) with false by (symmetry; apply Z.ltb_ge; lia).
      rewrite Z.sub_0_r, with_retries_same, ?app_nil_r.
      replace (Z.to_nat (retries m) - 1)%nat with 0%nat by lia.
      repeat split; try assumption; reflexivity.
Qed.


End QueueRuns.


(** The scenario of the specification, evaluated: the message is tried
    with 3, 2 and 1 attempts left, then the loop turns to the entry that
    waited behind it; the three entries that arrived meanwhile follow. *)
Example failing_message_scenario :
  let '(q', tr) :=
    MessageQueue.processQueue
      [Sample.failing_turn; Sample.failing_turn; Sample.failing_turn] Sample.queue0 in
  MessageQueue.retries <$> MessageQueue.attempts tr = [3; 2; 1]
  ∧ MessageQueue.to <$> MessageQueue.attempts tr
    = JsStr <$> ["+5511999999999"; "+5511999999999"; "+5511999999999"]
  ∧ MessageQueue.to <$> MessageQueue.pending q'
    = JsStr <$> ["+5511888888888"; "+5511777777777"; "+5511777777777"; "+5511777777777"].
Proof. repeat split; reflexivity. Qed.

(** ** HTTP endpoint *)

(** C8. [POST /send-message], for every request.  It answers 400 when
    [to] or [message] is missing or falsy (the handler tests
    [!to || !message]); otherwise 503 when the bot is not connected.
    Otherwise the fields are handed to [enqueue] as they came: on a full
    queue the answer is 503 when [message] is a string and 500 when it is
    not, and the queue is left alone; on a queue with room the entry is
    queued, and the answer is 200 with [success: true], [queued: true] and
    the normalised recipient when [to] is a string, and 500 when it is
    not. *)
Theorem post_send_message_responses (now stamp : Z) (req : Http.Request)
    (b : Bot.Bot) (q : MessageQueue.State) :
  let '(response, q') := Http.post_send_message now stamp req b q in
  ((truthy (Http.to req) = false ∨ truthy (Http.message req) = false) →
     Http.status response = 400 ∧ q' = q)
  ∧ (truthy (Http.to req) = true → truthy (Http.message req) = true →
       ((Bot.isConnected b = false ∨ Bot.sock b = false) →
          Http.status response = 503 ∧ q' = q)
       ∧ (Bot.isConnected b = true → Bot.sock b = true →
            ((CONFIG.messageQueueMaxSize ≤ length (MessageQueue.queue q))%nat →
               Http.status response
               = (if is_string (Http.message req) then 503 else 500)
               ∧ q' = q)
            ∧ ((length (MessageQueue.queue q) < CONFIG.messageQueueMaxSize)%nat →
               q' = (MessageQueue.enqueue
                       (MessageQueue.mkArrival (Http.to req) (Http.message req) 3 now true)
                       q).2
               ∧ ((is_Some (MessageQueue.item q) → MessageQueue.processing q = true) →
                  MessageQueue.pending q'
                  = MessageQueue.pending q
                    ++ [MessageQueue.mkMessage (Http.to req) (Http.message req) 3 now])
               ∧ (∀ t, Http.to req = JsStr t →
                    response
                    = Http.mkResponse 200 true (Some true) (Some (toWhatsAppJID t)) None
                                      (Some stamp))
               ∧ (is_string (Http.to req) = false → Http.status response = 500)))).
Proof.
  unfold Http.post_send_message.
  destruct (truthy (Http.to req)) eqn:Hto; cbn [negb orb].
  2:{ split; [intros _; split; reflexivity | discriminate]. }
  destruct (truthy (Http.message req)) eqn:Hmsg; cbn [negb orb].
  2:{ split; [intros _; split; reflexivity | discriminate]. }
  destruct (Bot.isConnected b) eqn:Hconn; cbn [negb orb].
  2:{ split; [intros [H|H]; discriminate|]. intros _ _.
      split; [intros _; split; reflexivity | discriminate]. }
  destruct (Bot.sock b) eqn:Hsock; cbn [negb andb].
  2:{ split; [intros [H|H]; discriminate|]. intros _ _.
      split; [intros _; split; reflexivity | discriminate]. }
  set (a := MessageQueue.mkArrival (Http.to req) (Http.message req) 3 now true).
  destruct (Nat.leb_spec CONFIG.messageQueueMaxSize (length (MessageQueue.queue q)))
    as [Hfull|Hroom].
  - unfold MessageQueue.enqueue.
    replace (CONFIG.messageQueueMaxSize <=? length (MessageQueue.queue q))%nat with true
      by (symmetry; now apply Nat.leb_le).
    cbn [MessageQueue.a_message a].
    assert (Hcaught : ∀ e, Http.status (Http.caught e) = 500) by reflexivity.
    destruct (Http.message req) as [| | | |m|]; cbn [call_substring is_string].
    all: (split; [intros [H|H]; discriminate|]); intros _ _.
    all: (split; [intros [H|H]; discriminate|]); intros _ _.
    all: split; [intros _; split; reflexivity | intros Hlt; lia].
  - pose proof (enqueue_room a q Hroom) as Hr.
    pose proof (enqueue_appends a q Hroom) as Happ.
    destruct (MessageQueue.enqueue a q) as [r q'] eqn:Henq.
    cbn [fst snd] in Hr, Happ. subst r.
    assert (Hcaught : ∀ e, Http.status (Http.caught e) = 500) by reflexivity.
    destruct (Http.to req) as [| | | |t|] eqn:Hreq; cbn [call_toWhatsAppJID is_string].
    all: (split; [intros [H|H]; discriminate|]); intros _ _.
    all: (split; [intros [H|H]; discriminate|]); intros _ _.
    all: (split; [intros Hle; lia|]); intros _.
    all: (split; [reflexivity|]).
    all: (split; [intros Hcons; now apply Happ|]).
    all: split; [intros t' Ht'; try discriminate | intros Hs; try discriminate; try reflexivity].
    injection Ht' as <-. reflexivity.
Qed.

Lemma post_send_message_responses_witness :
  Http.post_send_message 1000 1001 (Http.mkRequest "+5511999999999" "Test")
    (Bot.mkBot true true true false 0 None) (MessageQueue.mkState [] false None)
  = (Http.mkResponse 200 true (Some true) (Some "5511999999999@s.whatsapp.net") None
                     (Some 1001),
     MessageQueue.mkState [] true
       (Some (MessageQueue.mkMessage "+5511999999999" "Test" 3 1000,
              MessageQueue.EngineCalled "5511999999999@s.whatsapp.net" "Test"))).
Proof.
  pose proof (post_send_message_responses 1000 1001
                (Http.mkRequest "+5511999999999" "Test")
                (Bot.mkBot true true true false 0 None)
                (MessageQueue.mkState [] false None)) as H.
  destruct (Http.post_send_message _ _ _ _ _) as [response q'].
  destruct H as [_ H].
  destruct (H eq_refl eq_refl) as [_ H'].
  destruct (H' eq_refl eq_refl) as [_ H''].
  destruct H'' as (Hq & _ & Hresp & _); [cbn; unfold CONFIG.messageQueueMaxSize; lia|].
  rewrite Hq, (Hresp "+5511999999999" eq_refl). reflexivity.
Defined.

(** A recipient that is not a string is not answered with 200.  The request
    [{ "to": 5511999999999, "message": "hi" }] has both fields, the bot is
    connected and the queue is empty; the entry is queued, its send is
    rejected by [toWhatsAppJID], and the same call in the handler throws:
    the answer is 500, not 200. *)
Lemma post_send_message_numeric_recipient :
  let req := Http.mkRequest (JsNumber 5511999999999) "hi" in
  let connected := Bot.mkBot true true true false 0 None in
  let fresh := MessageQueue.mkState [] false None in
  truthy (Http.to req) = true
  ∧ truthy (Http.message req) = true
  ∧ Bot.isConnected connected = true
  ∧ Bot.sock connected = true
  ∧ (length (MessageQueue.queue fresh) < CONFIG.messageQueueMaxSize)%nat
  ∧ Http.post_send_message 1000 1001 req connected fresh
    = (Http.failure 500 "phoneNumber.replace is not a function",
       MessageQueue.mkState [] true
         (Some (MessageQueue.mkMessage (JsNumber 5511999999999) "hi" 3 1000,
                MessageQueue.Rejected
                  (TypeError "phoneNumber.replace is not a function"))))
  ∧ Http.status (Http.post_send_message 1000 1001 req connected fresh).1 ≠ 200.
Proof.
  cbn zeta. repeat split; try reflexivity.
  - unfold CONFIG.messageQueueMaxSize. cbn. lia.
  - discriminate.
Qed.

(** The two requests of the repository's test script, sent before any
    connection: 503 for a complete request, 400 for one without [message].
    And on a full queue a message that is not a string is answered
    with 500. *)
Example post_send_message_test_script :
  let fresh := MessageQueue.mkState [] false None in
  let full :=
    MessageQueue.mkState (replicate 100 Sample.other_message) true
                         (Some (Sample.test_message, MessageQueue.NotConnected)) in
  Http.status (Http.post_send_message 1000 1001
                 (Http.mkRequest "+5511999999999" "Test") Bot.new_bot fresh).1
  = 503
  ∧ Http.status (Http.post_send_message 1000 1001
                   (Http.mkRequest "+5511999999999" JsUndefined) Bot.new_bot fresh).1
    = 400
  ∧ Http.post_send_message 1000 1001 (Http.mkRequest "+5511999999999" (JsNumber 7))
      (Bot.mkBot true true true false 0 None) full
    = (Http.failure 500 "message.substring is not a function", full).
Proof. repeat split; reflexivity. Qed.

(** ** [index.js] *)

(** The retry loop of [index.js] makes no call either when [maxRetries]
    is below 1. *)
Lemma IndexJs_withRetry_no_attempts {St A : Type} (operation : St → (JsError + A) * St)
    (operationName : string) (maxRetries : Z) (fuel : nat) (s : St) :
  maxRetries < 1 →
  IndexJs.withRetry operation operationName maxRetries s = (ReturnedUndefined, s, [])
  ∧ IndexJs.withRetry_loop operation operationName maxRetries fuel 1 s
    = (ReturnedUndefined, s, []).
Proof.
  intros Hmax. split.
  - unfold IndexJs.withRetry.
    destruct (Z.to_nat maxRetries) as [|n] eqn:Hn; [reflexivity | lia].
  - destruct fuel as [|fuel]; [reflexivity|]. simpl.
    replace (1 <=? maxRetries) with false; [reflexivity|].
    symmetry. apply Z.leb_gt. lia.
Qed.

(** Its delays double without jitter and without a cap: after the fifth
    failure it sleeps 32 seconds, where the production policy stops at 30. *)
Example IndexJs_withRetry_uncapped :
  let '(_, _, tr) :=
    IndexJs.withRetry (Sample.always_failing (mkError "boom" None))
                      "downloadSessionFromBucket" 6 0%nat in
  omap (λ ev, match ev with IndexJs.Slept d => Some (Qred d) | _ => None end) tr
  = [2000%Q; 4000%Q; 8000%Q; 16000%Q; 32000%Q].
Proof. reflexivity. Qed.

(** [clearSessionFromBucket] of [index.js] has no lock to spare: it
    empties the prefix. *)
Example IndexJs_clear_deletes_everything :
  IndexJs.clearSessionFromBucket Sample.sessionsPrefix (Some Sample.remote)
  = (ReturnedUndefined, Some ∅).
Proof. vm_compute. reflexivity. Qed.

(** [POST /send-message] of [index.js] sends at once and reports the
    message id; a failed send is answered with 500. *)
Example IndexJs_post_send_message :
  let req := Http.mkRequest "+5511999999999" "Test" in
  let connected := Bot.mkBot true true true false 0 None in
  IndexJs.post_send_message req connected (inr "3EB0")
  = IndexJs.mkResponse 200 true (Some "3EB0") (Some "5511999999999@s.whatsapp.net") None
  ∧ IndexJs.status (IndexJs.post_send_message req connected
                      (inl (mkError "Timed Out" None))) = 500
  ∧ IndexJs.status (IndexJs.post_send_message req Bot.new_bot (inr "3EB0")) = 503.
Proof. repeat split; reflexivity. Qed.

(** * Part III: further properties of the code *)

(** ** Message queue: invariants and order of delivery *)

Section QueueInvariants.
Import MessageQueue.

Lemma enqueue_all_length (arr : list Arrival) (q : State) :
  processing q = true →
  (length (queue (enqueue_all arr q))
   ≤ Nat.max (length (queue q)) CONFIG.messageQueueMaxSize)%nat
  ∧ processing (enqueue_all arr q) = true
  ∧ item (enqueue_all arr q) = item q
  ∧ (length (queue q) ≤ length (queue (enqueue_all arr q)))%nat.
Proof.
  revert q. induction arr as [|a arr IH]; intros [l p i] Hproc;
    cbn in Hproc; subst p.
  - cbn. repeat split; lia.
  - unfold enqueue_all. cbn [foldl]. rewrite !enqueue_snd. cbn [queue processing item].
    destruct (CONFIG.messageQueueMaxSize <=? length l)%nat eqn:Hfull.
    + exact (IH (mkState l true i) eq_refl).
    + apply Nat.leb_gt in Hfull.
      destruct (IH (mkState (l ++ [mkMessage (a_to a) (a_message a) (a_retries a) (a_now a)])
                            true i) eq_refl) as (Hlen & Hp & Hi & Hge).
      unfold enqueue_all in *. cbn [queue item] in *. rewrite length_app in *. cbn in *.
      repeat split; try assumption; lia.
Qed.

Lemma loop_head_consistent (c : bool) (q : State) : consistent (loop_head c q).
Proof.
  unfold loop_head, consistent.
  destruct (queue q); cbn; (split; [split|]); try done; eauto.
Qed.

Lemma loop_head_length (c : bool) (q : State) :
  length (queue (loop_head c q)) = (length (queue q) - 1)%nat.
Proof. unfold loop_head. destruct (queue q); cbn; lia. Qed.

(** A turn of the loop ends at the head of the loop, whatever happened. *)
Lemma iteration_ends_at_loop_head (env : Await) (q : State) :
  processing q = true → is_Some (item q) →
  ∃ q1, (iteration env q).1 = loop_head (connected env) q1
        ∧ (length (queue q1) ≤ S (Nat.max (length (queue q)) CONFIG.messageQueueMaxSize))%nat
        ∧ ((length (queue q1) ≤ Nat.max (length (queue q)) CONFIG.messageQueueMaxSize)%nat
           ∨ (1 ≤ length (queue q1))%nat).
Proof.
  intros Hproc [[it st] Hitem]. unfold iteration. rewrite Hitem.
  destruct (enqueue_all_length (during_send env) q Hproc) as (H1 & Hp1 & Hi1 & _).
  set (q1 := enqueue_all (during_send env) q) in *.
  destruct (sendMessage_settle st (engine env)) as [e|id].
  - destruct (retries it >? 1).
    + set (q2 := unshift (with_retries it (retries it - 1)) q1).
      assert (Hp2 : processing q2 = true) by exact Hp1.
      destruct (enqueue_all_length (during_retry_delay env) q2 Hp2) as (H3 & Hp3 & _ & Hg3).
      set (q3 := enqueue_all (during_retry_delay env) q2) in *.
      destruct (enqueue_all_length (during_rate_limit env) q3 Hp3) as (H4 & _ & _ & Hg4).
      eexists. split; [reflexivity|].
      assert (Hl2 : length (queue q2) = S (length (queue q1))) by reflexivity.
      split; [lia | right; lia].
    + destruct (enqueue_all_length (during_rate_limit env) q1 Hp1) as (H4 & _ & _ & _).
      eexists. split; [reflexivity|]. split; [lia | left; lia].
  - destruct (enqueue_all_length (during_rate_limit env) q1 Hp1) as (H4 & _ & _ & _).
    eexists. split; [reflexivity|]. split; [lia | left; lia].
Qed.

Lemma enqueue_keeps_invariants (a : Arrival) (q : State) :
  consistent q → within_capacity q →
  consistent (enqueue a q).2 ∧ within_capacity (enqueue a q).2.
Proof.
  intros Hcons Hcap. pose proof Hcons as [Hrun Hidle].
  rewrite !enqueue_snd. unfold within_capacity in *.
  destruct (CONFIG.messageQueueMaxSize <=? length (queue q))%nat eqn:Hfull; [auto|].
  apply Nat.leb_gt in Hfull.
  destruct (processing q) eqn:Hproc.
  - cbn. rewrite length_app. cbn. split; [|lia]. split; cbn; [exact Hrun | discriminate].
  - rewrite (Hidle eq_refl). unfold processQueue_start. cbn.
    split; [|lia]. split; [split; eauto | discriminate].
Qed.

Lemma iteration_keeps_invariants (env : Await) (q : State) :
  consistent q → within_capacity q →
  consistent (iteration env q).1 ∧ within_capacity (iteration env q).1.
Proof.
  intros Hcons Hcap. pose proof Hcons as [Hrun Hidle].
  destruct (item q) as [[it st]|] eqn:Hitem.
  - destruct (iteration_ends_at_loop_head env q) as (q1 & -> & Hlen & Hcase);
      [apply Hrun; eauto | rewrite Hitem; eauto|].
    split; [apply loop_head_consistent|].
    unfold within_capacity in *. rewrite loop_head_length. lia.
  - unfold iteration. rewrite Hitem. auto.
Qed.

(** Between two turns of the loop, that is while a send is pending or the
    loop has stopped: the loop is running exactly while an entry is being
    sent, a stopped loop leaves nothing waiting, and the waiting list does
    not exceed [messageQueueMaxSize].  (During the sleeps of a turn the
    list can hold one more entry, see [queue_bounds_while_suspended].) *)
Lemma queue_invariants_between_turns (ops : list Op) :
  consistent (run_ops ops empty_queue)
  ∧ within_capacity (run_ops ops empty_queue)
  ∧ (length (pending (run_ops ops empty_queue)) ≤ S CONFIG.messageQueueMaxSize)%nat.
Proof.
  assert (Hgen : ∀ q, consistent q → within_capacity q →
                      consistent (run_ops ops q) ∧ within_capacity (run_ops ops q)).
  { induction ops as [|op ops IH]; intros q Hc Hw; [auto|].
    unfold run_ops. cbn [foldl].
    assert (Hstep : consistent (apply_op q op) ∧ within_capacity (apply_op q op)).
    { destruct op as [a|env]; cbn [apply_op].
      - now apply enqueue_keeps_invariants.
      - now apply iteration_keeps_invariants. }
    apply IH; apply Hstep. }
  destruct (Hgen empty_queue) as [Hc Hw].
  - unfold consistent, empty_queue. cbn. split; [split|]; try done.
  - unfold within_capacity. cbn. lia.
  - split; [exact Hc|]. split; [exact Hw|].
    unfold within_capacity, pending in *. destruct (item _) as [[it st]|]; cbn; lia.
Qed.

(** *** At every [await] *)

Lemma moments_enqueues (arr : list Arrival) (q : State) (sl : option Sleep) :
  moments (Enqueues <$> arr) (mkSuspended q sl) = mkSuspended (enqueue_all arr q) sl.
Proof.
  revert q. induction arr as [|a arr IH]; intros q; [reflexivity|].
  cbn [fmap list_fmap]. unfold moments, enqueue_all in *. cbn [foldl moment fields sleeping].
  apply IH.
Qed.

Lemma moments_app (ms ms' : list Moment) (s : Suspended) :
  moments (ms ++ ms') s = moments ms' (moments ms s).
Proof. apply foldl_app. Qed.

(** While the loop runs, what [enqueue] does to the waiting list does not
    depend on the pending send. *)
Lemma enqueue_all_item (arr : list Arrival) (l : list PendingMessage)
    (i i' : option (PendingMessage * SendState)) :
  enqueue_all arr (mkState l true i)
  = mkState (queue (enqueue_all arr (mkState l true i'))) true i.
Proof.
  revert l. induction arr as [|a arr IH]; intros l; [reflexivity|].
  unfold enqueue_all in *. cbn [foldl]. rewrite !enqueue_snd. cbn [queue processing item].
  destruct (CONFIG.messageQueueMaxSize <=? length l)%nat; apply IH.
Qed.

Lemma moments_one (m : Moment) (s : Suspended) : moments [m] s = moment s m.
Proof. reflexivity. Qed.

(** A turn of [iteration] is the sequence of its moments. *)
Lemma iteration_as_moments (env : Await) (l : list PendingMessage)
    (it : PendingMessage) (st : SendState) :
  let q := mkState l true (Some (it, st)) in
  moments (turn env q) (mkSuspended q None) = mkSuspended (iteration env q).1 None.
Proof.
  cbn zeta. unfold turn, requeued, iteration. cbn [item].
  rewrite (enqueue_all_item (during_send env) l (Some (it, st)) None).
  set (l1 := queue (enqueue_all (during_send env) (mkState l true None))).
  assert (Hrate : ∀ l2 i,
            loop_head (connected env)
              (enqueue_all (during_rate_limit env) (mkState l2 true i))
            = loop_head (connected env)
                (enqueue_all (during_rate_limit env) (mkState l2 true None))).
  { intros l2 i. rewrite (enqueue_all_item _ l2 i None). reflexivity. }
  destruct (sendMessage_settle st (engine env)) as [e|id] eqn:Hsettle;
    [destruct (retries it >? 1) eqn:Hret|].
  all: cbv iota; rewrite ?app_nil_l.
  all: rewrite !moments_app, !moments_one, moments_enqueues.
  all: rewrite (enqueue_all_item (during_send env) l (Some (it, st)) None); fold l1.
  all: cbn [moment fields sleeping item queue]; rewrite Hsettle, ?Hret.
  - rewrite moments_enqueues. cbn [moment fields sleeping].
    rewrite moments_enqueues. cbn [moment fields sleeping fst]. f_equal.
    unfold unshift. cbn [queue processing item].
    rewrite (enqueue_all_item (during_retry_delay env) _ (Some (it, st)) None).
    rewrite (Hrate _ (Some (it, st))). do 2 f_equal. apply enqueue_all_item.
  - rewrite moments_enqueues. cbn [moment fields sleeping fst].
    f_equal. now rewrite (Hrate l1 (Some (it, st))).
  - rewrite moments_enqueues. cbn [moment fields sleeping fst].
    f_equal. now rewrite (Hrate l1 (Some (it, st))).
Qed.

Lemma moment_keeps_ok (s : Suspended) (m : Moment) :
  suspended_ok s → suspended_ok (moment s m).
Proof.
  destruct s as [q [sl|]]; unfold suspended_ok; cbn [sleeping fields].
  - intros (Hproc & Hitem & Hlen). destruct m as [a|answer|c]; cbn [moment fields sleeping].
    + rewrite enqueue_snd.
      destruct (Nat.leb_spec CONFIG.messageQueueMaxSize (length (queue q))) as [Hfull|Hroom].
      * auto.
      * rewrite Hproc. cbn [processing item queue]. rewrite length_app. cbn [length].
        repeat split; [exact Hitem | lia].
    + auto.
    + destruct sl; cbn [sleeping fields].
      * auto.
      * split; [apply loop_head_consistent|].
        unfold within_capacity. rewrite loop_head_length. lia.
  - intros [Hcons Hcap]. destruct m as [a|answer|c]; cbn [moment fields sleeping].
    + now apply enqueue_keeps_invariants.
    + unfold within_capacity in Hcap.
      destruct (item q) as [[it st]|]; [|cbn [sleeping fields]; auto].
      destruct (sendMessage_settle st answer) as [e|id];
        [destruct (retries it >? 1)|]; cbn [sleeping fields processing item queue length];
        repeat split; lia.
    + auto.
Qed.

(** X1. At every point at which the loop of [processQueue] is suspended
    or not running, whatever handlers enqueue and whatever the sends do,
    starting from a new queue: [queue] holds at most
    [messageQueueMaxSize + 1] entries, and at most [messageQueueMaxSize]
    while a send is pending or the loop has stopped (the extra entry is
    the one that [unshift] puts back before the sleeps); [processing] is
    [true] exactly while a send is pending or the loop sleeps; a stopped
    loop leaves nothing waiting; and [GET /health] never reports a
    [queueSize] above [messageQueueMaxSize + 1]. *)
Theorem queue_bounds_while_suspended (ms : list Moment) (b : Bot.Bot) :
  let s := moments ms new_queue in
  let q := fields s in
  (length (queue q) ≤ S CONFIG.messageQueueMaxSize)%nat
  ∧ (sleeping s = None → (length (queue q) ≤ CONFIG.messageQueueMaxSize)%nat)
  ∧ (processing q = true ↔ is_Some (item q) ∨ is_Some (sleeping s))
  ∧ (processing q = false → queue q = [])
  ∧ (length (pending q) ≤ S CONFIG.messageQueueMaxSize)%nat
  ∧ (Http.body_queueSize (Http.get_health b q).2 ≤ S CONFIG.messageQueueMaxSize)%nat.
Proof.
  cbn zeta.
  assert (Hok : suspended_ok (moments ms new_queue)).
  { assert (Hgen : ∀ s, suspended_ok s → suspended_ok (moments ms s)).
    { induction ms as [|m ms IH]; intros s Hs; [exact Hs|].
      unfold moments. cbn [foldl]. apply IH. now apply moment_keeps_ok. }
    apply Hgen. unfold suspended_ok, new_queue, consistent, within_capacity, empty_queue.
    cbn. repeat split; try done; try lia. }
  destruct (moments ms new_queue) as [q [sl|]]; unfold suspended_ok in Hok;
    cbn [sleeping fields Http.get_health snd Http.body_queueSize] in *.
  - destruct Hok as (Hproc & Hitem & Hlen).
    unfold pending. rewrite Hitem, Hproc.
    split; [exact Hlen|]. split; [discriminate|]. split.
    + split; [intros _; right; eauto | reflexivity].
    + split; [discriminate|]. split; exact Hlen.
  - destruct Hok as [[Hrun Hidle] Hcap]. unfold within_capacity in Hcap.
    split; [lia|]. split; [intros _; exact Hcap|]. split.
    + split.
      * intros H. left. now apply Hrun.
      * intros [H|[x H]]; [now apply Hrun | discriminate].
    + split; [exact Hidle|]. split; [|lia].
      unfold pending. destruct (item q) as [[it st]|]; cbn [length]; lia.
Qed.

End QueueInvariants.

(** The bound is reached: with a hundred entries waiting behind the one
    being sent, a failed send puts that entry back, and during the retry
    delay [queue] holds 101 entries, [GET /health] reports 101, and
    [enqueue] refuses. *)
Example queue_holds_101_during_retry_delay :
  let a := MessageQueue.mkArrival "+5511777777777" "New" 3 2000 false in
  let s := MessageQueue.moments
             ((MessageQueue.Enqueues <$> replicate 101 a)
              ++ [MessageQueue.SendSettles (inl (mkError "Connection Closed" None))])
             MessageQueue.new_queue in
  MessageQueue.sleeping s = Some MessageQueue.RetryDelay
  ∧ length (MessageQueue.queue (MessageQueue.fields s)) = 101%nat
  ∧ Http.body_queueSize (Http.get_health Bot.new_bot (MessageQueue.fields s)).2 = 101%nat
  ∧ (MessageQueue.enqueue a (MessageQueue.fields s)).1 = inr false.
Proof. vm_compute. repeat split. Qed.

Section QueueOrder.
Import MessageQueue.

(** A turn whose send succeeds: one attempt, nothing put back. *)
Lemma iteration_delivers (env : Await) (m : PendingMessage) (jid : string)
    (text : JsValue) (rest : list PendingMessage) :
  engine_delivers env →
  ∃ later id,
    iteration env (mkState rest true (Some (m, EngineCalled jid text)))
    = (loop_head (connected env)
         (mkState (rest ++ later) true (Some (m, EngineCalled jid text))),
       [Attempted m (inr id); Slept 100])
    ∧ later `sublist_of` (arrival_item <$> arrivals env).
Proof.
  intros Hok. unfold iteration. cbn [item sendMessage_settle].
  unfold engine_delivers in Hok. destruct (engine env) as [e|id]; [contradiction|].
  destruct (enqueue_all_processing (during_send env)
              (mkState rest true (Some (m, EngineCalled jid text))))
    as (a1 & Hrun1 & H1); [reflexivity|].
  cbn [queue item] in Hrun1. rewrite Hrun1. clear Hrun1.
  destruct (enqueue_all_processing (during_rate_limit env)
              (mkState (rest ++ a1) true (Some (m, EngineCalled jid text))))
    as (a3 & Hrun3 & H3); [reflexivity|].
  cbn [queue item] in Hrun3. rewrite Hrun3. clear Hrun3.
  exists (a1 ++ a3), id. rewrite app_assoc. split; [reflexivity|].
  unfold arrivals. rewrite !fmap_app. apply sublist_app; [exact H1|].
  now apply sublist_inserts_l.
Qed.

Lemma processQueue_delivering (envs : list Await) :
  ∀ (m : PendingMessage) (jid : string) (text : JsValue) (rest : list PendingMessage),
    Forall (λ env, engine_delivers env ∧ connected env = true) envs →
    Forall (λ it, is_string (to it) = true) (take (length envs - 1) rest) →
    (length envs ≤ S (length rest))%nat →
    ∃ later,
      let '(q', tr) :=
        processQueue envs (mkState rest true (Some (m, EngineCalled jid text))) in
      attempts tr = take (length envs) (m :: rest)
      ∧ requeues tr = []
      ∧ pending q' = drop (length envs) (m :: rest) ++ later
      ∧ later `sublist_of` (arrival_item <$> concat (arrivals <$> envs)).
Proof.
  induction envs as [|env envs IH]; intros m jid text rest Hok Hstr Hlen.
  - exists []. cbn. rewrite app_nil_r. repeat split. constructor.
  - apply Forall_cons in Hok as [[Hok Hconn] Hoks].
    replace (length (env :: envs) - 1)%nat with (length envs) in Hstr by (cbn; lia).
    cbn [length] in Hlen.
    cbn [processQueue].
    destruct (iteration_delivers env m jid text rest Hok) as (l1 & id & -> & Hl1).
    rewrite Hconn. unfold loop_head. cbn [queue].
    destruct rest as [|m' rest'].
    + assert (envs = []) by (destruct envs; [reflexivity | cbn in Hlen; lia]). subst envs.
      exists l1. cbn [processQueue]. rewrite app_nil_r.
      split; [reflexivity|]. split; [reflexivity|]. split.
      * cbn. now destruct l1.
      * cbn. now rewrite app_nil_r.
    + cbn [app]. destruct envs as [|env2 envs].
      * exists l1. cbn [processQueue].
        split; [reflexivity|]. split; [reflexivity|]. split; [reflexivity|].
        cbn. now rewrite app_nil_r.
      * cbn [length take] in Hstr. apply Forall_cons in Hstr as [Hm' Hstr].
        unfold sendMessage_start.
        destruct (to m') as [| | | |recipient|] eqn:Hto; try discriminate.
        cbn [call_toWhatsAppJID].
        destruct (IH m' (toWhatsAppJID recipient) (message m') (rest' ++ l1) Hoks)
          as (later & Hrun).
        { replace (length (env2 :: envs) - 1)%nat with (length envs) by (cbn; lia).
          rewrite take_app_le by (cbn [length] in Hlen; lia). exact Hstr. }
        { rewrite length_app. cbn [length] in *. lia. }
        destruct (processQueue (env2 :: envs) _) as [q'' tr'].
        destruct Hrun as (Hatt & Hreq & Hpend & Hsub).
        exists (l1 ++ later). lazy beta iota.
        change (attempts (Attempted m (inr id) :: Slept 100 :: tr'))
          with (m :: attempts tr').
        change (requeues (Attempted m (inr id) :: Slept 100 :: tr'))
          with (requeues tr').
        rewrite Hatt, Hreq, Hpend. cbn in Hlen.
        split; [|split; [reflexivity|split]].
        -- cbn [length take]. do 2 f_equal. apply take_app_le.
           cbn [length] in Hlen. lia.
        -- cbn [length drop]. rewrite drop_app_le by (cbn [length] in Hlen; lia).
           now rewrite <- app_assoc.
        -- cbn. rewrite fmap_app. now apply sublist_app.
Qed.

(** X2. While every send succeeds and the bot stays connected, the loop
    delivers in the order of the queue: [n] turns attempt the first [n]
    entries, each once, put nothing back, and leave the others in order,
    followed by what was enqueued meanwhile.  A send can only succeed for
    a recipient that is a string. *)
Theorem successful_sends_are_fifo (m : PendingMessage) (jid : string) (text : JsValue)
    (rest : list PendingMessage) (envs : list Await) :
  Forall (λ env, engine_delivers env ∧ connected env = true) envs →
  Forall (λ it, is_string (to it) = true) rest →
  (length envs ≤ S (length rest))%nat →
  let '(q', tr) :=
    processQueue envs (mkState rest true (Some (m, EngineCalled jid text))) in
  attempts tr = take (length envs) (m :: rest)
  ∧ requeues tr = []
  ∧ ∃ later,
      pending q' = drop (length envs) (m :: rest) ++ later
      ∧ later `sublist_of` (arrival_item <$> concat (arrivals <$> envs)).
Proof.
  intros Hok Hstr Hlen.
  destruct (processQueue_delivering envs m jid text rest Hok) as (later & Hrun);
    [now apply Forall_take | exact Hlen |].
  destruct (processQueue envs _) as [q' tr].
  destruct Hrun as (Hatt & Hreq & Hpend & Hsub). eauto.
Qed.

(** While the bot is disconnected the answers of the engine do not
    matter: the run is that of an engine that fails, and every attempt ends
    with the error of the connection check. *)
Lemma processQueue_not_connected (envs : list Await) :
  ∀ q : State,
    Forall (λ env, connected env = false) envs →
    processing q = true →
    (∃ it, item q = Some (it, NotConnected)) →
    processQueue envs q = processQueue (silenced <$> envs) q
    ∧ Forall (λ r, r = inl (mkError "WhatsApp not connected" None))
             (results (processQueue envs q).2).
Proof.
  assert (Hidle : ∀ es, processQueue es (mkState [] false None)
                        = (mkState [] false None, [])).
  { induction es as [|e es IHes]; [reflexivity|]. cbn. now rewrite IHes. }
  induction envs as [|env envs IH]; intros q Hdown Hproc [it Hitem].
  - split; [reflexivity | constructor].
  - apply Forall_cons in Hdown as [Hconn Hdown]. cbn [processQueue fmap list_fmap].
    assert (Hsame : iteration env q = iteration (silenced env) q).
    { unfold iteration. rewrite Hitem. reflexivity. }
    rewrite <- Hsame.
    assert (Hres : results (iteration env q).2
                   = [inl (mkError "WhatsApp not connected" None)]).
    { unfold iteration. rewrite Hitem. cbn [sendMessage_settle].
      destruct (retries it >? 1); reflexivity. }
    destruct (iteration_ends_at_loop_head env q Hproc) as (q1 & Hnext & _);
      [rewrite Hitem; eauto|].
    rewrite Hconn in Hnext.
    destruct (iteration env q) as [q' tr] eqn:Hit. cbn [fst snd] in *. subst q'.
    assert (Hrest : processQueue envs (loop_head false q1)
                    = processQueue (silenced <$> envs) (loop_head false q1)
                    ∧ Forall (λ r, r = inl (mkError "WhatsApp not connected" None))
                             (results (processQueue envs (loop_head false q1)).2)).
    { unfold loop_head. destruct (queue q1) as [|it' rest'].
      - rewrite !Hidle. split; [reflexivity | constructor].
      - apply IH; [exact Hdown | reflexivity | cbn; eauto]. }
    destruct Hrest as [Heq Hall]. rewrite <- Heq.
    destruct (processQueue envs (loop_head false q1)) as [q'' tr''].
    cbn [snd] in *. split; [reflexivity|].
    unfold results in *. rewrite omap_app, Hres.
    constructor; [reflexivity | exact Hall].
Qed.

Lemma silenced_fails (envs : list Await) : Forall engine_fails (silenced <$> envs).
Proof. induction envs; constructor; [exact I | assumption]. Qed.

Lemma silenced_arrivals (envs : list Await) :
  concat (arrivals <$> (silenced <$> envs)) = concat (arrivals <$> envs).
Proof. induction envs as [|env envs IH]; [reflexivity|]. cbn. now rewrite IH. Qed.

(** X3. An entry taken while the bot is disconnected, with [retries = N],
    is lost when the bot stays disconnected for [N] turns of the loop: the
    engine is never called for it (every attempt ends with "WhatsApp not
    connected", whatever the engine would have answered), it is attempted
    [N] times and then the queue holds only the other entries. *)
Theorem disconnected_message_is_dropped (m : PendingMessage)
    (rest : list PendingMessage) (envs : list Await) :
  1 ≤ retries m →
  Z.of_nat (length envs) = retries m →
  Forall (λ env, connected env = false) envs →
  let '(q', tr) := processQueue envs (mkState rest true (Some (m, NotConnected))) in
  results tr = replicate (length envs) (inl (mkError "WhatsApp not connected" None))
  ∧ attempts tr
    = (λ k, with_retries m (retries m - Z.of_nat k)) <$> seq 0 (length envs)
  ∧ ∃ later,
      pending q' = rest ++ later
      ∧ later `sublist_of` (arrival_item <$> concat (arrivals <$> envs)).
Proof.
  intros Hpos Hlen Hdown.
  destruct (processQueue_not_connected envs (mkState rest true (Some (m, NotConnected)))
              Hdown eq_refl) as [Heq Hall]; [cbn; eauto|].
  destruct (processQueue_failing (silenced <$> envs) m NotConnected rest
              (silenced_fails envs) Hpos) as (later & Hrun);
    [rewrite length_fmap; lia|].
  rewrite <- Heq in Hrun.
  destruct (processQueue envs _) as [q' tr]. cbn [snd] in Hall.
  destruct Hrun as (Hatt & _ & Hpend & Hsub).
  rewrite length_fmap in *. rewrite silenced_arrivals in Hsub.
  split; [|split; [exact Hatt|]].
  - assert (Hn : length (results tr) = length envs).
    { assert (Hl : length (attempts tr) = length envs)
        by (rewrite Hatt, length_fmap, length_seq; reflexivity).
      rewrite <- Hl. clear. unfold results, attempts.
      induction tr as [|[]]; cbn; congruence. }
    rewrite <- Hn. clear -Hall.
    induction Hall as [|r rs -> _ IH]; [reflexivity|]. cbn. now rewrite <- IH.
  - exists later. split; [|exact Hsub]. rewrite Hpend.
    now replace (Z.of_nat (length envs) <? retries m) with false
      by (symmetry; apply Z.ltb_ge; lia).
Qed.

End QueueOrder.

Lemma successful_sends_are_fifo_witness :
  let '(q', tr) :=
    MessageQueue.processQueue [Sample.delivering_turn; Sample.delivering_turn]
                              Sample.queue1 in
  MessageQueue.attempts tr = take 2 (Sample.test_message :: [Sample.other_message])
  ∧ MessageQueue.requeues tr = []
  ∧ ∃ later,
      MessageQueue.pending q'
      = drop 2 (Sample.test_message :: [Sample.other_message]) ++ later
      ∧ later `sublist_of`
          (MessageQueue.arrival_item
             <$> concat (MessageQueue.arrivals
                           <$> [Sample.delivering_turn; Sample.delivering_turn])).
Proof.
  apply (successful_sends_are_fifo Sample.test_message
           "5511999999999@s.whatsapp.net" "Test" [Sample.other_message]
           [Sample.delivering_turn; Sample.delivering_turn]).
  - repeat constructor.
  - repeat constructor.
  - cbn. lia.
Defined.

Lemma disconnected_message_is_dropped_witness :
  let envs := [Sample.disconnected_turn; Sample.disconnected_turn;
               Sample.disconnected_turn] in
  let m := Sample.test_message in
  let '(q', tr) := MessageQueue.processQueue envs Sample.queue0 in
  MessageQueue.results tr
  = replicate (length envs) (inl (mkError "WhatsApp not connected" None))
  ∧ MessageQueue.attempts tr
    = (λ k, MessageQueue.with_retries m (MessageQueue.retries m - Z.of_nat k))
        <$> seq 0 (length envs)
  ∧ ∃ later,
      MessageQueue.pending q' = [Sample.other_message] ++ later
      ∧ later `sublist_of`
          (MessageQueue.arrival_item <$> concat (MessageQueue.arrivals <$> envs)).
Proof.
  apply (disconnected_message_is_dropped Sample.test_message [Sample.other_message]
           [Sample.disconnected_turn; Sample.disconnected_turn;
            Sample.disconnected_turn]).
  - cbn. lia.
  - reflexivity.
  - repeat constructor.
Defined.

(** ** Retry policy: the backoff delays *)

Lemma exponentialDelay_doubles (baseDelay : Q) (attempt : Z) :
  (Retry.exponentialDelay baseDelay (attempt + 1)
   == 2 * Retry.exponentialDelay baseDelay attempt)%Q.
Proof.
  unfold Retry.exponentialDelay.
  replace (attempt + 1 - 1) with (attempt - 1 + 1) by lia.
  rewrite Qpower_plus by discriminate.
  change (2 ^ 1)%Q with 2%Q. ring.
Qed.

(** X4. Whatever [Math.random()] returns, the delay of [getBackoffDelay]
    never exceeds [maxRetryDelay], is at least the exponential delay or
    the cap, whichever is smaller, and does not decrease from one attempt
    to the next: the jitter of at most a tenth never outweighs the
    doubling. *)
Theorem getBackoffDelay_bounded_monotone (random random' baseDelay : Q) (attempt : Z) :
  (0 <= random)%Q → (random < 1)%Q → (0 <= random')%Q → (random' < 1)%Q →
  (0 <= baseDelay)%Q →
  (Retry.getBackoffDelay random attempt baseDelay <= CONFIG.maxRetryDelay)%Q
  ∧ (Qmin (Retry.exponentialDelay baseDelay attempt) CONFIG.maxRetryDelay
     <= Retry.getBackoffDelay random attempt baseDelay)%Q
  ∧ (Retry.getBackoffDelay random attempt baseDelay
     <= Retry.getBackoffDelay random' (attempt + 1) baseDelay)%Q.
Proof.
  intros H0 H1 H0' H1' Hb.
  destruct (jitter_bounds random baseDelay attempt H0 H1 Hb) as [Hj0 Hj1].
  destruct (jitter_bounds random' baseDelay (attempt + 1) H0' H1' Hb) as [Hj0' _].
  pose proof (exponentialDelay_nonneg baseDelay attempt Hb) as He.
  pose proof (exponentialDelay_doubles baseDelay attempt) as Hd.
  unfold Retry.getBackoffDelay.
  revert Hj0 Hj1 Hj0' He Hd.
  generalize (Retry.jitter random baseDelay attempt) as j.
  generalize (Retry.jitter random' baseDelay (attempt + 1)) as j'.
  generalize (Retry.exponentialDelay baseDelay attempt) as e.
  generalize (Retry.exponentialDelay baseDelay (attempt + 1)) as e'.
  intros e' e j' j Hj0 Hj1 Hj0' He Hd.
  split; [apply Q.le_min_r|]. split.
  - apply Q.min_le_compat_r. lra.
  - apply Q.min_le_compat_r. lra.
Qed.

Lemma getBackoffDelay_bounded_monotone_witness :
  (Retry.getBackoffDelay (9 # 10) 2 CONFIG.baseRetryDelay <= CONFIG.maxRetryDelay)%Q
  ∧ (Qmin (Retry.exponentialDelay CONFIG.baseRetryDelay 2) CONFIG.maxRetryDelay
     <= Retry.getBackoffDelay (9 # 10) 2 CONFIG.baseRetryDelay)%Q
  ∧ (Retry.getBackoffDelay (9 # 10) 2 CONFIG.baseRetryDelay
     <= Retry.getBackoffDelay 0 (2 + 1) CONFIG.baseRetryDelay)%Q.
Proof.
  apply (getBackoffDelay_bounded_monotone (9 # 10) 0 CONFIG.baseRetryDelay 2);
    first [discriminate | reflexivity].
Defined.

(** ** [index.js]: the retry wrapper *)

Section IndexJsRetry.
Context {St A : Type}.
Variable operation : St → (JsError + A) * St.
Variable operationName : string.
Variable maxRetries : Z.

Local Abbreviation loop := (IndexJs.withRetry_loop operation operationName maxRetries).

Lemma IndexJs_withRetry_loop_sound (n : nat) (attempt : Z) (s : St) o s' tr :
  Z.of_nat n = maxRetries - attempt + 1 → (1 ≤ n)%nat →
  loop n attempt s = (o, s', tr) →
  Retry.calls operation (length (IndexJs.invocations tr)) s = (IndexJs.invocations tr, s')
  ∧ ∃ errs : list JsError,
      (∃ v, o = Returned v
            ∧ IndexJs.invocations tr = (inl <$> errs) ++ [inr v]
            ∧ (length errs < n)%nat
            ∧ IndexJs.sleeps tr = IndexJs.delays_from attempt (length errs))
      ∨ (∃ e, o = Threw e
              ∧ IndexJs.invocations tr = inl <$> errs
              ∧ length errs = n
              ∧ last errs = Some e
              ∧ IndexJs.sleeps tr = IndexJs.delays_from attempt (n - 1)
              ∧ last tr
                = Some (IndexJs.LogError operationName maxRetries maxRetries (message e))).
Proof.
  revert attempt s o s' tr.
  induction n as [|n IH]; intros attempt s o s' tr Hn Hpos Hrun; [lia|].
  simpl in Hrun.
  assert (Hle : (attempt <=? maxRetries) = true) by (apply Z.leb_le; lia).
  rewrite Hle in Hrun.
  destruct (operation s) as [[error|v] s1] eqn:Hop.
  - destruct (attempt =? maxRetries) eqn:Hlast.
    + apply Z.eqb_eq in Hlast. assert (n = 0%nat) by lia. subst n.
      injection Hrun as <- <- <-. simpl. rewrite Hop. split; [reflexivity|].
      exists [error]. right. exists error. subst attempt. repeat split; reflexivity.
    + apply Z.eqb_neq in Hlast.
      destruct (loop n (attempt + 1) s1) as [[o1 s2] tr1] eqn:Hrec.
      injection Hrun as <- <- <-.
      destruct (IH (attempt + 1) s1 o1 s2 tr1) as [Hcalls [errs Hcase]];
        [lia | lia | exact Hrec |].
      split.
      * simpl. rewrite Hop. fold (IndexJs.invocations tr1). now rewrite Hcalls.
      * exists (error :: errs).
        destruct Hcase as [(v & -> & Hinv & Hlen & Hsl) | (e & -> & Hinv & Hlen & Hlast' & Hsl & Hlog)].
        -- left. exists v. simpl. fold (IndexJs.invocations tr1) (IndexJs.sleeps tr1).
           rewrite Hinv, Hsl. repeat split; try reflexivity. lia.
        -- right. exists e. simpl. fold (IndexJs.invocations tr1) (IndexJs.sleeps tr1).
           rewrite Hinv, Hsl. repeat split; try reflexivity.
           ++ lia.
           ++ destruct errs; [simpl in Hlen; lia | exact Hlast'].
           ++ destruct n as [|n]; [lia|]. simpl. now rewrite Nat.sub_0_r.
           ++ destruct tr1; [discriminate | exact Hlog].
  - injection Hrun as <- <- <-. simpl. rewrite Hop. split; [reflexivity|].
    exists []. left. exists v. repeat split; try reflexivity. simpl. lia.
Qed.

Lemma IndexJs_delays_from_lookup (a : Z) (n i : nat) (d : Q) :
  IndexJs.delays_from a n !! i = Some d →
  d = (IndexJs.retryDelay * Qpower 2 (a + Z.of_nat i - 1))%Q.
Proof.
  revert a i. induction n as [|n IH]; intros a i Hd; [discriminate|].
  destruct i as [|i]; simpl in Hd.
  - injection Hd as <-. now rewrite Z.add_0_r.
  - apply IH in Hd. subst d.
    now replace (a + 1 + Z.of_nat i - 1) with (a + Z.of_nat (S i) - 1) by lia.
Qed.

Lemma IndexJs_delays_from_length (a : Z) (n : nat) :
  length (IndexJs.delays_from a n) = n.
Proof. revert a. induction n as [|n IH]; intros a; simpl; [|rewrite IH]; reflexivity. Qed.

(** X5. [withRetry] of [index.js], for [maxRetries >= 1]: the operation
    is invoked at most [maxRetries] times, each call on the state the
    previous one left; the first success is returned; after the [k]-th
    failure with [k < maxRetries] it sleeps exactly
    [retryDelay * 2^(k-1)] ms, without jitter and without a cap; after the
    [maxRetries]-th failure it throws the last error unchanged, the log
    record "attempt maxRetries/maxRetries" being the last thing written. *)
Theorem IndexJs_withRetry_contract (s : St) :
  1 ≤ maxRetries →
  let '(o, s', tr) := IndexJs.withRetry operation operationName maxRetries s in
  (length (IndexJs.invocations tr) ≤ Z.to_nat maxRetries)%nat
  ∧ Retry.calls operation (length (IndexJs.invocations tr)) s
    = (IndexJs.invocations tr, s')
  ∧ (∃ errs : list JsError,
        (∃ v, o = Returned v
              ∧ IndexJs.invocations tr = (inl <$> errs) ++ [inr v]
              ∧ length (IndexJs.sleeps tr) = length errs)
        ∨ (∃ e, o = Threw e
                ∧ IndexJs.invocations tr = inl <$> errs
                ∧ length errs = Z.to_nat maxRetries
                ∧ last errs = Some e
                ∧ length (IndexJs.sleeps tr) = (Z.to_nat maxRetries - 1)%nat
                ∧ last tr
                  = Some (IndexJs.LogError operationName maxRetries maxRetries
                                           (message e))))
  ∧ (∀ (i : nat) (d : Q), IndexJs.sleeps tr !! i = Some d →
        d = (IndexJs.retryDelay * Qpower 2 (Z.of_nat i))%Q).
Proof.
  intros Hmax.
  destruct (IndexJs.withRetry operation operationName maxRetries s)
    as [[o s'] tr] eqn:Hrun.
  unfold IndexJs.withRetry in Hrun.
  destruct (IndexJs_withRetry_loop_sound (Z.to_nat maxRetries) 1 s o s' tr)
    as [Hcalls [errs Hcase]]; [lia | lia | exact Hrun |].
  assert (Hsleeps : ∃ n, IndexJs.sleeps tr = IndexJs.delays_from 1 n).
  { destruct Hcase as [(v & _ & _ & _ & Hsl) | (e & _ & _ & _ & _ & Hsl & _)]; eauto. }
  split; [|split; [exact Hcalls | split]].
  - destruct Hcase as [(v & _ & Hinv & Hlen & _) | (e & _ & Hinv & Hlen & _)];
      rewrite Hinv; rewrite ?length_app, ?length_fmap; simpl; lia.
  - exists errs.
    destruct Hcase as [(v & -> & Hinv & Hlen & Hsl) | (e & -> & Hinv & Hlen & Hlast & Hsl & Hlog)].
    + left. exists v. rewrite Hsl, IndexJs_delays_from_length. repeat split; assumption.
    + right. exists e. rewrite Hsl, IndexJs_delays_from_length. repeat split; assumption.
  - intros i d Hd. destruct Hsleeps as [n Hsl]. rewrite Hsl in Hd.
    apply IndexJs_delays_from_lookup in Hd. subst d.
    now replace (1 + Z.of_nat i - 1) with (Z.of_nat i) by lia.
Qed.

End IndexJsRetry.

Lemma IndexJs_withRetry_contract_witness :
  let '(o, s', tr) :=
    IndexJs.withRetry (Sample.always_failing (mkError "boom" None))
                      "uploadSessionToBucket" 2 0%nat in
  (length (IndexJs.invocations tr) ≤ Z.to_nat 2)%nat
  ∧ Retry.calls (Sample.always_failing (mkError "boom" None))
                (length (IndexJs.invocations tr)) 0%nat
    = (IndexJs.invocations tr, s')
  ∧ (∃ errs : list JsError,
        (∃ v, o = Returned v
              ∧ IndexJs.invocations tr = (inl <$> errs) ++ [inr v]
              ∧ length (IndexJs.sleeps tr) = length errs)
        ∨ (∃ e, o = Threw e
                ∧ IndexJs.invocations tr = inl <$> errs
                ∧ length errs = Z.to_nat 2
                ∧ last errs = Some e
                ∧ length (IndexJs.sleeps tr) = (Z.to_nat 2 - 1)%nat
                ∧ last tr
                  = Some (IndexJs.LogError "uploadSessionToBucket" 2 2 (message e))))
  ∧ (∀ (i : nat) (d : Q), IndexJs.sleeps tr !! i = Some d →
        d = (IndexJs.retryDelay * Qpower 2 (Z.of_nat i))%Q).
Proof.
  apply (IndexJs_withRetry_contract (Sample.always_failing (mkError "boom" None))
           "uploadSessionToBucket" 2 0%nat).
  lia.
Defined.

(** ** Session lock: the protocol *)

Section LockProtocol.
Import Storage SessionLock.
Variable sessionsPrefix : string.
Variable Date_now : nat → Z.

Local Abbreviation lockFile := (SessionLock.lockFile sessionsPrefix).

(** X6. In a store that no other process writes, [acquireLock()] never
    throws and always returns a boolean.  It leaves the session directory
    and every object other than the lock object as they are.  It returns
    [true] with the lock object holding the caller's record, stamped with
    a clock reading taken during the call and with the configured TTL; or
    it returns [false] with the bucket unchanged, and then the lock object
    held a record that parses and had not expired at the check. *)
Theorem acquireLock_outcome (instanceId : string) (w : World) :
  ∃ ok w' tr,
    SessionLock.acquireLock sessionsPrefix instanceId Date_now w
    = Some (Returned ok, w', tr)
    ∧ sessionDir w' = sessionDir w
    ∧ (∀ name, name ≠ lockFile → bucket w' !! name = bucket w !! name)
    ∧ if ok then
        ∃ k, (ticks w ≤ k < ticks w')%nat
             ∧ bucket w' !! lockFile
               = Some (LockJson (mkLock instanceId (Date_now k) CONFIG.lockTtlMs))
      else
        bucket w' = bucket w
        ∧ ∃ held, bucket w !! lockFile = Some (LockJson held)
                  ∧ Date_now (S (ticks w)) - timestamp held ≤ ttl held.
Proof.
  unfold SessionLock.acquireLock.
  destruct (bucket w !! lockFile) as [[held|content]|] eqn:Hlock.
  - destruct (Z_le_gt_dec (Date_now (S (ticks w)) - timestamp held) (ttl held)).
    + rewrite (acquireLock_fuel_held _ _ _ 1 w held) by assumption.
      eexists false, _, _. split; [reflexivity|]. cbn.
      split; [reflexivity|]. split; [reflexivity|]. split; [reflexivity|].
      exists held. split; [reflexivity | assumption].
    + rewrite (acquireLock_fuel_stale _ _ _ 0 w held) by assumption.
      eexists true, _, _. split; [reflexivity|]. cbn.
      split; [reflexivity|]. split.
      * intros name Hne. now apply lookup_insert_ne.
      * exists (S (S (ticks w))). split; [lia|]. apply lookup_insert_eq.
  - rewrite (acquireLock_fuel_invalid _ _ _ 0 w content) by assumption.
    eexists true, _, _. split; [reflexivity|]. cbn.
    split; [reflexivity|]. split.
    + intros name Hne. now apply lookup_insert_ne.
    + exists (S (ticks w)). split; [lia|]. apply lookup_insert_eq.
  - rewrite (acquireLock_fuel_absent _ _ _ 1 w) by assumption.
    eexists true, _, _. split; [reflexivity|]. cbn.
    split; [reflexivity|]. split.
    + intros name Hne. now apply lookup_insert_ne.
    + exists (ticks w). split; [lia|]. apply lookup_insert_eq.
Qed.

(** X7. Mutual exclusion within the TTL.  After a call of [acquireLock()]
    that returned [true], a call by any instance, the holder's own
    included, returns [false] and leaves the bucket as it is, as long as
    the clock does not run backwards and reads at most [lockTtlMs] more at
    the second caller's check than it did when the first call began.  The
    warning names the holder. *)
Theorem acquireLock_excludes (holder other : string) (w w' : World)
    (tr : list Event) :
  SessionLock.acquireLock sessionsPrefix holder Date_now w
  = Some (Returned true, w', tr) →
  (∀ i j, (i ≤ j)%nat → Date_now i ≤ Date_now j) →
  Date_now (S (ticks w')) - Date_now (ticks w) ≤ CONFIG.lockTtlMs →
  ∃ w'' age,
    SessionLock.acquireLock sessionsPrefix other Date_now w'
    = Some (Returned false, w'', [SaveAttempt false; Download; WarnHeld holder age])
    ∧ bucket w'' = bucket w'.
Proof.
  intros Hfirst Hmono Hclock.
  assert (Hlock : ∃ k, (ticks w ≤ k)%nat
            ∧ bucket w' !! lockFile
              = Some (LockJson (mkLock holder (Date_now k) CONFIG.lockTtlMs))).
  { unfold SessionLock.acquireLock in Hfirst.
    destruct (bucket w !! lockFile) as [[held|content]|] eqn:Hheld.
    - destruct (Z_le_gt_dec (Date_now (S (ticks w)) - timestamp held) (ttl held)).
      + rewrite (acquireLock_fuel_held _ _ _ 1 w held) in Hfirst by assumption.
        discriminate.
      + rewrite (acquireLock_fuel_stale _ _ _ 0 w held) in Hfirst by assumption.
        injection Hfirst as <- <-. exists (S (S (ticks w))).
        split; [lia | apply lookup_insert_eq].
    - rewrite (acquireLock_fuel_invalid _ _ _ 0 w content) in Hfirst by assumption.
      injection Hfirst as <- <-. exists (S (ticks w)).
      split; [lia | apply lookup_insert_eq].
    - rewrite (acquireLock_fuel_absent _ _ _ 1 w) in Hfirst by assumption.
      injection Hfirst as <- <-. exists (ticks w).
      split; [lia | apply lookup_insert_eq]. }
  destruct Hlock as (k & Hk & Hlock).
  unfold SessionLock.acquireLock.
  rewrite (acquireLock_fuel_held _ _ _ 1 w' _ Hlock).
  - eexists _, _. split; reflexivity.
  - cbn. pose proof (Hmono (ticks w) k). lia.
Qed.

(** X8. [releaseLock()] does not look at the holder: it removes the lock
    object whoever wrote it, changes nothing else, and the next
    [acquireLock()] of any instance creates its lock at the first
    attempt. *)
Theorem releaseLock_frees_any_lock (instanceId : string) (w : World) :
  let w1 := (SessionLock.releaseLock sessionsPrefix w).1 in
  bucket w1 !! lockFile = None
  ∧ (∀ name, name ≠ lockFile → bucket w1 !! name = bucket w !! name)
  ∧ sessionDir w1 = sessionDir w
  ∧ ∃ w2, SessionLock.acquireLock sessionsPrefix instanceId Date_now w1
          = Some (Returned true, w2, [SaveAttempt true])
          ∧ bucket w2 !! lockFile
            = Some (LockJson (mkLock instanceId (Date_now (ticks w)) CONFIG.lockTtlMs)).
Proof.
  cbn zeta. unfold SessionLock.releaseLock, delete_file.
  assert (Hb : ∀ name,
             (match bucket w !! lockFile with
              | Some _ => (inr tt : JsError + unit, delete lockFile (bucket w))
              | None => (inl (mkError "No such object" (Some 404)), bucket w)
              end).2 !! name
             = if decide (name = lockFile) then None else bucket w !! name).
  { intros name. destruct (bucket w !! lockFile) eqn:Hl; cbn;
      destruct (decide (name = lockFile)) as [->|Hne];
      rewrite ?lookup_delete_eq, ?lookup_delete_ne by congruence; done. }
  cbn [fst]. unfold set_bucket. cbn [bucket sessionDir].
  split; [rewrite Hb; now rewrite decide_True|].
  split; [intros name Hne; rewrite Hb; now rewrite decide_False|].
  split; [reflexivity|].
  unfold SessionLock.acquireLock.
  rewrite acquireLock_fuel_absent by (cbn; rewrite Hb; now rewrite decide_True).
  eexists. split; [reflexivity|]. cbn. apply lookup_insert_eq.
Qed.

End LockProtocol.

Lemma acquireLock_excludes_witness :
  ∃ w'' age,
    SessionLock.acquireLock Sample.sessionsPrefix "instance-2" Sample.Date_now
      Sample.world_locked
    = Some (Returned false, w'',
            [SessionLock.SaveAttempt false; SessionLock.Download;
             SessionLock.WarnHeld "instance-1" age])
    ∧ Storage.bucket w'' = Storage.bucket Sample.world_locked.
Proof.
  apply (acquireLock_excludes Sample.sessionsPrefix Sample.Date_now
           "instance-1" "instance-2" Sample.world0 Sample.world_locked
           [SessionLock.SaveAttempt false; SessionLock.Download;
            SessionLock.Delete; SessionLock.SaveAttempt true]).
  - reflexivity.
  - intros i j Hij. unfold Sample.Date_now. lia.
  - vm_compute. discriminate.
Defined.

(** ** Session store: what upload, download and clear do to the two stores *)

Lemma append_inj p a b : p +:+ a = p +:+ b → a = b.
Proof.
  induction p as [|c p IH]; [done|].
  rewrite !append_cons. intros H. injection H as H. auto.
Qed.

Lemma startsWith_inv p s : JsString.startsWith p s = true → ∃ r, s = p +:+ r.
Proof.
  revert s. induction p as [|a p IH]; intros s H; [by exists s|].
  destruct s as [|b s]; [discriminate|]. simpl in H.
  apply andb_true_iff in H as [Hab Hs]. apply Ascii.eqb_eq in Hab as ->.
  destruct (IH s Hs) as [r ->]. exists r. now rewrite append_cons.
Qed.

Lemma slice_append p r : SessionStore.slice (String.length p) (p +:+ r) = r.
Proof.
  unfold SessionStore.slice. rewrite length_append.
  replace (String.length p + String.length r - String.length p)%nat
    with (String.length r) by lia.
  apply substring_skip.
Qed.

Section StoreTransfers.
Import Storage.
Variable sessionsPrefix : string.
Variable random : Z → Q.

Local Abbreviation upload_step :=
  (λ (b : gmap string Blob) '(relativePath, content),
     upload (sessionsPrefix +:+ relativePath) content b).

Lemma upload_fold_lookup (l : list (string * Blob)) (b0 : gmap string Blob) :
  NoDup l.*1 →
  (∀ rel, foldl upload_step b0 l !! (sessionsPrefix +:+ rel)
          = match (list_to_map l : gmap string Blob) !! rel with
            | Some c => Some c
            | None => b0 !! (sessionsPrefix +:+ rel)
            end)
  ∧ (∀ name, JsString.startsWith sessionsPrefix name = false →
             foldl upload_step b0 l !! name = b0 !! name).
Proof.
  revert b0. induction l as [|[r c] l IH]; intros b0 Hnd; [done|].
  apply NoDup_cons in Hnd as [Hr Hnd]. cbn [foldl].
  destruct (IH (upload (sessionsPrefix +:+ r) c b0) Hnd) as [IH1 IH2]. split.
  - intros rel. rewrite IH1, list_to_map_cons. unfold upload.
    destruct (decide (rel = r)) as [->|Hne].
    + rewrite (not_elem_of_list_to_map_1 _ _ Hr).
      now rewrite !lookup_insert_eq.
    + rewrite !lookup_insert_ne; [done | congruence |].
      intros H%append_inj. congruence.
  - intros name Hname. rewrite IH2 by exact Hname. unfold upload.
    apply lookup_insert_ne. intros <-.
    rewrite startsWith_append in Hname. discriminate.
Qed.

Lemma upload_operation_spec (w : World) :
  ∃ b', SessionStore.upload_operation sessionsPrefix w = (inr tt, set_bucket b' w)
        ∧ ∀ name, b' !! name
                = (match sessionDir w with
                   | None => bucket w !! name
                   | Some files =>
                       if JsString.startsWith sessionsPrefix name then
                         match files !! SessionStore.slice (String.length sessionsPrefix) name with
                         | Some c => Some c
                         | None => bucket w !! name
                         end
                       else bucket w !! name
                   end).
Proof.
  unfold SessionStore.upload_operation.
  destruct (sessionDir w) as [files|] eqn:Hdir.
  - eexists. split; [reflexivity|]. intros name.
    destruct (upload_fold_lookup (map_to_list files) (bucket w)) as [H1 H2];
      [apply NoDup_fst_map_to_list|].
    destruct (JsString.startsWith sessionsPrefix name) eqn:Hp.
    + apply startsWith_inv in Hp as [rel ->].
      rewrite slice_append, H1. now rewrite list_to_map_to_list.
    + now apply H2.
  - exists (bucket w). split; [|done]. now destruct w.
Qed.

(** X9. [uploadSessionToBucket()] in a store that accepts every write:
    one call of the operation, no retry.  Afterwards the object
    [sessionsPrefix + relativePath] holds the content of the local file
    [relativePath], for every local file; every other object is as before,
    so nothing is ever removed from the bucket, not even the objects of
    files that no longer exist locally.  Without a session directory the
    bucket is untouched.  A second upload changes nothing. *)
Theorem uploadSessionToBucket_spec (w : World) :
  ∃ b',
    SessionStore.uploadSessionToBucket sessionsPrefix random w
    = (Returned tt, set_bucket b' w, [Retry.Invoked (inr tt)])
    ∧ (∀ name, b' !! name
                = (match sessionDir w with
                   | None => bucket w !! name
                   | Some files =>
                       if JsString.startsWith sessionsPrefix name then
                         match files !! SessionStore.slice (String.length sessionsPrefix) name with
                         | Some c => Some c
                         | None => bucket w !! name
                         end
                       else bucket w !! name
                   end))
    ∧ (∀ name, is_Some (bucket w !! name) → is_Some (b' !! name))
    ∧ SessionStore.uploadSessionToBucket sessionsPrefix random (set_bucket b' w)
      = (Returned tt, set_bucket b' w, [Retry.Invoked (inr tt)]).
Proof.
  destruct (upload_operation_spec w) as (b' & Hop & Hlook).
  exists b'. split; [now apply withRetry_first_success|].
  split; [exact Hlook|]. split.
  - intros name [c Hc]. rewrite Hlook.
    destruct (sessionDir w) as [files|]; [|eauto].
    destruct (JsString.startsWith _ _); [|eauto].
    destruct (files !! _); eauto.
  - destruct (upload_operation_spec (set_bucket b' w)) as (b'' & Hop' & Hlook').
    assert (b'' = b') as ->.
    { apply map_eq. intros name. rewrite Hlook'. cbn [set_bucket sessionDir bucket].
      rewrite Hlook.
      destruct (sessionDir w) as [files|]; [|done].
      destruct (JsString.startsWith _ _); [|done].
      now destruct (files !! _). }
    apply withRetry_first_success; [done|].
    rewrite Hop'. now destruct w.
Qed.

(** The loop of the download, on names that are present, distinct and
    under the prefix. *)
Lemma download_each_spec (names : list string) (w : World) (old : gmap string Blob) :
  sessionDir w = Some old →
  NoDup names →
  (∀ name, name ∈ names →
     JsString.startsWith sessionsPrefix name = true ∧ is_Some (bucket w !! name)) →
  ∃ d, SessionStore.download_each sessionsPrefix names w
       = (inr tt, mkWorld (bucket w) (Some d) (ticks w))
       ∧ ∀ rel, d !! rel
                = if decide (rel ≠ EmptyString ∧ sessionsPrefix +:+ rel ∈ names)
                  then bucket w !! (sessionsPrefix +:+ rel) else old !! rel.
Proof.
  revert w old. induction names as [|name rest IH]; intros w old Hdir Hnd Hin.
  - exists old. split; [destruct w; cbn in *; now subst|].
    intros rel. rewrite decide_False; [done|]. intros [_ H]. inversion H.
  - apply NoDup_cons in Hnd as [Hname Hnd].
    destruct (Hin name) as [Hp [c Hc]]; [left|].
    apply startsWith_inv in Hp as [r ->].
    assert (Hrest : ∀ n, n ∈ rest →
              JsString.startsWith sessionsPrefix n = true ∧ is_Some (bucket w !! n))
      by (intros n Hn; apply Hin; now right).
    cbn [SessionStore.download_each]. rewrite slice_append.
    destruct (String.eqb r EmptyString) eqn:Hr.
    + apply String.eqb_eq in Hr as ->.
      destruct (IH w old Hdir Hnd Hrest) as (d & Hrun & Hd).
      exists d. split; [exact Hrun|]. intros rel. rewrite Hd.
      destruct (decide (rel ≠ EmptyString ∧ sessionsPrefix +:+ rel ∈ rest)) as [[H1 H2]|H].
      * rewrite decide_True; [done|]. split; [done | now right].
      * rewrite decide_False; [done|]. intros [H1 [H2%append_inj|H2]%elem_of_cons]; tauto.
    + apply String.eqb_neq in Hr.
      assert (Hmk : fs_mkdir w = w) by (unfold fs_mkdir; now rewrite Hdir).
      rewrite Hmk. unfold download. rewrite Hc, Hdir. cbn [default].
      destruct (IH (set_sessionDir (Some (<[r := c]> old)) w) (<[r := c]> old))
        as (d & Hrun & Hd); [done | done | exact Hrest |].
      exists d. split; [exact Hrun|]. intros rel. rewrite Hd.
      cbn [set_sessionDir bucket].
      destruct (decide (rel = r)) as [->|Hne].
      * rewrite decide_False by tauto.
        rewrite decide_True by (split; [done | left]).
        now rewrite lookup_insert_eq.
      * rewrite lookup_insert_ne by done.
        destruct (decide (rel ≠ EmptyString ∧ sessionsPrefix +:+ rel ∈ rest)) as [[H1 H2]|H].
        -- rewrite decide_True; [done|]. split; [done | now right].
        -- rewrite decide_False; [done|].
           intros [H1 [H2%append_inj|H2]%elem_of_cons]; tauto.
Qed.

(** One run of the download: the bucket is only read, the session
    directory exists afterwards and holds the listed objects. *)
Lemma download_operation_spec (w : World) :
  ∃ d,
    SessionStore.download_operation sessionsPrefix w
    = (inr tt, mkWorld (bucket w) (Some d) (ticks w))
    ∧ ∀ rel,
        d !! rel
        = match bucket w !! (sessionsPrefix +:+ rel) with
          | Some c =>
              if negb (String.eqb rel EmptyString)
                 && negb (JsString.endsWith "lock.json" (sessionsPrefix +:+ rel))
              then Some c else default ∅ (sessionDir w) !! rel
          | None => default ∅ (sessionDir w) !! rel
          end.
Proof.
  set (old := default ∅ (sessionDir w)).
  assert (Hmk : fs_mkdir w = mkWorld (bucket w) (Some old) (ticks w)).
  { unfold fs_mkdir, old. destruct w as [b [dir|] t]; reflexivity. }
  destruct (download_each_spec
              (SessionStore.sessionFiles (getFiles sessionsPrefix (bucket w)))
              (fs_mkdir w) old) as (d & Hrun & Hd).
  { now rewrite Hmk. }
  { apply NoDup_filter, getFiles_NoDup. }
  { intros name [_ Hin]%list_elem_of_filter. rewrite Hmk. cbn [bucket].
    now apply getFiles_spec in Hin. }
  rewrite Hmk in Hrun, Hd. cbn [bucket ticks] in Hrun, Hd.
  exists d. split.
  - unfold SessionStore.download_operation. rewrite Hmk. cbn [bucket].
    destruct (SessionStore.sessionFiles _) eqn:Hfiles; [|exact Hrun].
    cbn in Hrun. exact Hrun.
  - intros rel. rewrite Hd. unfold SessionStore.sessionFiles.
    destruct (bucket w !! (sessionsPrefix +:+ rel)) as [c|] eqn:Hc.
    + destruct (String.eqb rel EmptyString) eqn:Hr; cbn [negb andb].
      * apply String.eqb_eq in Hr. rewrite decide_False; [done | tauto].
      * apply String.eqb_neq in Hr.
        destruct (JsString.endsWith "lock.json" (sessionsPrefix +:+ rel)) eqn:Hs;
          cbn [negb].
        -- rewrite decide_False; [done|].
           intros [_ [Hs' _]%list_elem_of_filter]. congruence.
        -- rewrite decide_True; [done|]. split; [done|].
           apply list_elem_of_filter. split; [exact Hs|].
           apply getFiles_spec. split; [apply startsWith_append | eauto].
    + destruct (decide _) as [[_ [_ Hin]%list_elem_of_filter]|]; [|done].
      apply getFiles_spec in Hin as [_ [c' Hc']]. congruence.
Qed.

(** X10. [downloadSessionFromBucket()] in a store that serves every
    object it lists: one call of the operation, no retry, and the bucket
    is only read.  The session directory exists afterwards.  The file
    [relativePath] holds the content of the object
    [sessionsPrefix + relativePath] when there is such an object, the path
    is not empty and the object's name does not end in ["lock.json"];
    every other local file is as before. *)
Theorem downloadSessionFromBucket_restores (w : World) :
  ∃ d,
    SessionStore.downloadSessionFromBucket sessionsPrefix random w
    = (Returned tt, mkWorld (bucket w) (Some d) (ticks w), [Retry.Invoked (inr tt)])
    ∧ ∀ rel,
        d !! rel
        = match bucket w !! (sessionsPrefix +:+ rel) with
          | Some c =>
              if negb (String.eqb rel EmptyString)
                 && negb (JsString.endsWith "lock.json" (sessionsPrefix +:+ rel))
              then Some c else default ∅ (sessionDir w) !! rel
          | None => default ∅ (sessionDir w) !! rel
          end.
Proof.
  destruct (download_operation_spec w) as (d & Hop & Hd).
  exists d. split; [|exact Hd].
  now apply withRetry_first_success.
Qed.

(** X11. Upload followed by a download into an emptied session directory,
    which is what a shutdown followed by a start in a fresh container
    does.  A local file comes back with its content, unless the name of
    its object ends in ["lock.json"]: such a file is uploaded and never
    restored. *)
Theorem upload_then_download (w : World) (files : gmap string Blob)
    (rel : string) (c : Blob) :
  sessionDir w = Some files →
  files !! rel = Some c →
  rel ≠ EmptyString →
  ∃ w1 w2 d tr tr',
    SessionStore.uploadSessionToBucket sessionsPrefix random w = (Returned tt, w1, tr)
    ∧ SessionStore.downloadSessionFromBucket sessionsPrefix random (fs_rm w1)
      = (Returned tt, w2, tr')
    ∧ sessionDir w2 = Some d
    ∧ bucket w2 = bucket w1
    ∧ d !! rel = if JsString.endsWith "lock.json" (sessionsPrefix +:+ rel)
                 then None else Some c.
Proof.
  intros Hdir Hrel Hne.
  destruct (upload_operation_spec w) as (b' & Hup & Hlook).
  destruct (download_operation_spec (fs_rm (set_bucket b' w))) as (d & Hdown & Hd).
  eexists _, _, d, _, _.
  split; [apply withRetry_first_success; [done | exact Hup]|].
  split; [apply withRetry_first_success; [done | exact Hdown]|].
  split; [reflexivity|]. split; [reflexivity|].
  rewrite Hd. cbn [fs_rm set_sessionDir set_bucket bucket sessionDir default].
  rewrite Hlook, Hdir, startsWith_append, slice_append, Hrel.
  apply String.eqb_neq in Hne. rewrite Hne. cbn [negb andb].
  destruct (JsString.endsWith _ _); [apply lookup_empty | reflexivity].
Qed.

(** X12. [clearSessionFromBucket()] followed by a start.  The clearing
    leaves the lock object as it is and is idempotent, and the download of
    the next start, into the directory that the logout handler has just
    emptied, restores nothing: the bot starts without a session. *)
Theorem clear_then_download_is_fresh (w : World) :
  sessionDir w = Some ∅ →
  ∃ w1 tr,
    SessionStore.clearSessionFromBucket sessionsPrefix random w = (Returned tt, w1, tr)
    ∧ bucket w1 !! SessionLock.lockFile sessionsPrefix
      = bucket w !! SessionLock.lockFile sessionsPrefix
    ∧ SessionStore.clearSessionFromBucket sessionsPrefix random w1 = (Returned tt, w1, tr)
    ∧ SessionStore.downloadSessionFromBucket sessionsPrefix random w1
      = (Returned tt, w1, [Retry.Invoked (inr tt)]).
Proof.
  intros Hdir.
  destruct (clearSessionFromBucket_spec sessionsPrefix random w) as (b' & Hclear & Hlook).
  exists (set_bucket b' w), [Retry.Invoked (inr tt)].
  split; [exact Hclear|]. split; [|split].
  - rewrite Hlook. unfold SessionLock.lockFile.
    now rewrite startsWith_append, endsWith_append.
  - destruct (clearSessionFromBucket_spec sessionsPrefix random (set_bucket b' w))
      as (b'' & Hclear' & Hlook').
    assert (b'' = b') as ->.
    { apply map_eq. intros name. rewrite Hlook'. cbn [set_bucket bucket].
      rewrite Hlook. now destruct (_ && _). }
    rewrite Hclear'. now destruct w.
  - destruct (download_operation_spec (set_bucket b' w)) as (d & Hdown & Hd).
    unfold SessionStore.downloadSessionFromBucket.
    rewrite (withRetry_first_success _ "downloadSessionFromBucket" CONFIG.maxRetries
               random _ _ _ ltac:(done) Hdown).
    cbn [set_bucket bucket sessionDir ticks] in *.
    assert (d = ∅) as ->.
    { apply map_eq. intros rel. rewrite Hd, Hdir. cbn [default].
      rewrite Hlook, startsWith_append. cbn [andb].
      destruct (JsString.endsWith "lock.json" (sessionsPrefix +:+ rel)); cbn [negb].
      - destruct (bucket w !! _); [|reflexivity].
        now rewrite andb_false_r.
      - reflexivity. }
    rewrite <- Hdir. reflexivity.
Qed.

End StoreTransfers.

Lemma upload_then_download_witness :
  ∃ w1 w2 d tr tr',
    SessionStore.uploadSessionToBucket Sample.sessionsPrefix Sample.random Sample.world0
    = (Returned tt, w1, tr)
    ∧ SessionStore.downloadSessionFromBucket Sample.sessionsPrefix Sample.random
        (Storage.fs_rm w1)
      = (Returned tt, w2, tr')
    ∧ Storage.sessionDir w2 = Some d
    ∧ Storage.bucket w2 = Storage.bucket w1
    ∧ d !! "app-state-sync-version-critical_block.json"
      = if JsString.endsWith "lock.json"
             (Sample.sessionsPrefix +:+ "app-state-sync-version-critical_block.json")
        then None else Some (Storage.Bytes "v7").
Proof.
  apply (upload_then_download Sample.sessionsPrefix Sample.random Sample.world0
           Sample.local "app-state-sync-version-critical_block.json"
           (Storage.Bytes "v7")).
  - reflexivity.
  - reflexivity.
  - discriminate.
Defined.

(** The version file of the sample session does not survive a restart,
    the credentials do. *)
Example restart_loses_critical_block :
  let '(_, w1, _) :=
    SessionStore.uploadSessionToBucket Sample.sessionsPrefix Sample.random Sample.world0 in
  let '(_, w2, _) :=
    SessionStore.downloadSessionFromBucket Sample.sessionsPrefix Sample.random
      (Storage.fs_rm w1) in
  Storage.sessionDir w2 = Some {[ "creds.json" := Storage.Bytes "creds" ]}.
Proof. vm_compute. reflexivity. Qed.

Lemma clear_then_download_is_fresh_witness :
  ∃ w1 tr,
    SessionStore.clearSessionFromBucket Sample.sessionsPrefix Sample.random
      (Storage.fs_mkdir (Storage.fs_rm Sample.world0))
    = (Returned tt, w1, tr)
    ∧ Storage.bucket w1 !! SessionLock.lockFile Sample.sessionsPrefix
      = Storage.bucket (Storage.fs_mkdir (Storage.fs_rm Sample.world0))
        !! SessionLock.lockFile Sample.sessionsPrefix
    ∧ SessionStore.clearSessionFromBucket Sample.sessionsPrefix Sample.random w1
      = (Returned tt, w1, tr)
    ∧ SessionStore.downloadSessionFromBucket Sample.sessionsPrefix Sample.random w1
      = (Returned tt, w1, [Retry.Invoked (inr tt)]).
Proof.
  apply (clear_then_download_is_fresh Sample.sessionsPrefix Sample.random
           (Storage.fs_mkdir (Storage.fs_rm Sample.world0))).
  reflexivity.
Defined.

(** ** Recipient normalisation: the fixed points *)

Lemma toWhatsAppJID_prefixed d :
  JsString.strip_non_digits d = d →
  JsString.startsWith "55" d = false → (String.length d ≤ 11)%nat →
  toWhatsAppJID (d +:+ jid_suffix) = "55" +:+ d +:+ jid_suffix.
Proof.
  intros Hd H55 Hlen. unfold toWhatsAppJID.
  rewrite strip_app, Hd.
  change (JsString.strip_non_digits jid_suffix) with EmptyString.
  rewrite append_empty_r, H55.
  apply Nat.leb_le in Hlen. rewrite Hlen. cbn [negb andb].
  assert (Hat : JsString.includes "@" ("55" +:+ d) = false).
  { change (JsString.includes "@" d = false).
    rewrite <- Hd. apply includes_strip. reflexivity. }
  rewrite Hat. reflexivity.
Qed.

(** X13. The inputs that [toWhatsAppJID] returns unchanged are exactly the
    addresses [d@s.whatsapp.net] whose local part [d] consists of digits
    and either starts with 55 or has more than 11 digits.  Every other
    input, a group address or an address of another domain included, is
    rewritten. *)
Theorem toWhatsAppJID_fixed_points (s : string) :
  toWhatsAppJID s = s
  ↔ ∃ d, s = d +:+ jid_suffix
         ∧ JsString.strip_non_digits d = d
         ∧ (JsString.startsWith "55" d = true ∨ (11 < String.length d)%nat).
Proof.
  split.
  - intros Hfix. destruct (toWhatsAppJID_shape s) as (d & Hs & Hd & Hcc).
    exists d. split; [congruence | auto].
  - intros (d & -> & Hd & Hcc). now apply toWhatsAppJID_fixed.
Qed.

(** ** Configuration: the prefix of the session objects *)

Lemma strip_trailing_slashes_app s :
  CONFIG.strip_trailing_slashes (s +:+ "/") = CONFIG.strip_trailing_slashes s.
Proof.
  induction s as [|c s IH]; [reflexivity|].
  rewrite append_cons. cbn [CONFIG.strip_trailing_slashes]. now rewrite IH.
Qed.

Lemma strip_trailing_slashes_no_slash s t :
  CONFIG.strip_trailing_slashes s ≠ t +:+ "/".
Proof.
  revert t. induction s as [|c s IH]; intros t.
  - destruct t; discriminate.
  - cbn [CONFIG.strip_trailing_slashes].
    destruct (CONFIG.strip_trailing_slashes s) as [|c' r'] eqn:Hs.
    + destruct (Ascii.eqb c "/") eqn:Hc.
      * destruct t; discriminate.
      * destruct t as [|a [|b t]]; try discriminate.
        intros [= ->]. discriminate.
    + destruct t as [|a t]; [discriminate|].
      rewrite append_cons. intros [= -> H]. exact (IH t H).
Qed.

Lemma strip_trailing_slashes_fixed s :
  (∀ t, s ≠ t +:+ "/") → CONFIG.strip_trailing_slashes s = s.
Proof.
  induction s as [|c s IH]; intros Hs; [reflexivity|].
  cbn [CONFIG.strip_trailing_slashes]. rewrite IH.
  - destruct s as [|c' s]; [|reflexivity].
    destruct (Ascii.eqb c "/") eqn:Hc; [|reflexivity].
    apply Ascii.eqb_eq in Hc as ->. now destruct (Hs EmptyString).
  - intros t ->. now apply (Hs (String c t)).
Qed.

Lemma falsy_append_slash s : JsString.falsy (Some (s +:+ "/")) = false.
Proof. destruct s; reflexivity. Qed.

(** X16. [CONFIG.sessionsPrefix], for every value of [SESSIONS_PREFIX]:
    it ends in exactly one slash; normalising it again gives the same
    prefix; and slashes at the end of a value that is not empty make no
    difference.  Without the variable, or with an empty one, it is
    ["sessions/whatsapp-bot/"]. *)
Theorem sessionsPrefix_normal_form (env : option string) :
  (∃ base, CONFIG.sessionsPrefix env = base +:+ "/" ∧ ∀ t, base ≠ t +:+ "/")
  ∧ CONFIG.sessionsPrefix (Some (CONFIG.sessionsPrefix env)) = CONFIG.sessionsPrefix env
  ∧ (∀ s, s ≠ EmptyString →
          CONFIG.sessionsPrefix (Some (s +:+ "/")) = CONFIG.sessionsPrefix (Some s))
  ∧ (JsString.falsy env = true → CONFIG.sessionsPrefix env = "sessions/whatsapp-bot/").
Proof.
  split; [|split; [|split]].
  - eexists. split; [reflexivity|]. apply strip_trailing_slashes_no_slash.
  - unfold CONFIG.sessionsPrefix. rewrite falsy_append_slash. cbn [default id].
    rewrite strip_trailing_slashes_app, strip_trailing_slashes_fixed; [reflexivity|].
    apply strip_trailing_slashes_no_slash.
  - intros s Hs. unfold CONFIG.sessionsPrefix. rewrite falsy_append_slash.
    cbn [default id JsString.falsy].
    apply String.eqb_neq in Hs. rewrite Hs.
    now rewrite strip_trailing_slashes_app.
  - intros Henv. unfold CONFIG.sessionsPrefix. rewrite Henv. reflexivity.
Qed.

Example sessionsPrefix_samples :
  CONFIG.sessionsPrefix None = Sample.sessionsPrefix
  ∧ CONFIG.sessionsPrefix (Some "prod/bot///") = "prod/bot/"
  ∧ CONFIG.sessionsPrefix (Some "/") = "/".
Proof. repeat split. Qed.

(** ** The status endpoints after a connection event *)

Section EndpointFacts.
Import Storage Bot.
Variable sessionsPrefix : string.
Variable random : Z → Q.
Variable loggedOut : Z.
Variable toDataURL : string → JsError + string.

Local Abbreviation on_close := (Bot.on_close sessionsPrefix random loggedOut).
Local Abbreviation on_connection_update :=
  (Bot.on_connection_update sessionsPrefix random loggedOut toDataURL).

Lemma on_close_connection (u : Update) (s : System) :
  isConnected (bot (on_close u s)) = false
  ∧ qrCodeBase64 (bot (on_close u s)) = None
  ∧ sock (bot (on_close u s)) = sock (bot s).
Proof.
  unfold Bot.on_close.
  destruct (is_logged_out loggedOut u).
  - destruct (SessionStore.clearSessionFromBucket _ _ _) as [[[v| |e] w'] tr]; cbn;
      destruct (shouldReconnect loggedOut u); cbn;
      destruct (isShuttingDown (bot s)); cbn; auto.
  - cbn. destruct (shouldReconnect loggedOut u); cbn;
      destruct (isShuttingDown (bot s)); cbn; auto.
Qed.

(** X17. What the status endpoints answer after a [connection.update]
    event that the handler processes.  After a close: [/health] answers
    503, [/api/qr-status] reports [generating_qr] without a QR code, and
    [POST /send-message] refuses every request with both fields truthy
    with 503 and leaves the queue alone.  After an open: [/health] answers 200 and
    [/api/qr-status] reports [connected] without a QR code.  After a QR
    code that was rendered to a non-empty image while the bot is not
    connected: [/api/qr-status] reports [waiting_for_scan]. *)
Theorem endpoints_after_connection_update (now : Z) (u : Update) (s : System)
    (q : MessageQueue.State) :
  debounced toDataURL now u (bot s) = false →
  let b' := bot (on_connection_update now u s) in
  (connection u = Some conn_close →
     (Http.get_health b' q).1 = 503
     ∧ Http.get_qr_status b' = Http.mkQrStatusBody false false Http.st_generating_qr
     ∧ ∀ now' stamp req,
         truthy (Http.to req) = true →
         truthy (Http.message req) = true →
         Http.post_send_message now' stamp req b' q
         = (Http.failure 503 "WhatsApp not connected. Please scan QR code first.", q))
  ∧ (connection u = Some conn_open →
     (Http.get_health b' q).1 = 200
     ∧ Http.get_qr_status b' = Http.mkQrStatusBody false true Http.st_connected)
  ∧ (connection u = None →
     ∀ code image,
       qr u = Some code → code ≠ EmptyString →
       toDataURL code = inr image → image ≠ EmptyString →
       isConnected (bot s) = false →
       Http.get_qr_status b' = Http.mkQrStatusBody true false Http.st_waiting_for_scan).
Proof.
  intros Hdeb b'. subst b'. unfold Bot.on_connection_update.
  unfold debounced in Hdeb.
  destruct (on_qr toDataURL now u (bot s)) as [b|] eqn:Hqr; [|discriminate].
  split; [|split].
  - intros ->.
    destruct (on_close_connection u (set_bot b s)) as (Hc & Hq & _).
    unfold Http.get_health, Http.get_qr_status, Http.post_send_message.
    rewrite Hc, Hq. cbn. split; [reflexivity|]. split; [reflexivity|].
    intros _ _ req -> ->. reflexivity.
  - intros ->. unfold Http.get_health, Http.get_qr_status, on_open. cbn. auto.
  - intros -> code image Hcode Hne Himg Hine Hconn.
    unfold on_qr in Hqr. rewrite Hcode in Hqr.
    apply String.eqb_neq in Hne. rewrite Hne in Hqr.
    destruct (now - lastQRTime (bot s) <? CONFIG.qrDebounceMs); [discriminate|].
    rewrite Himg in Hqr. injection Hqr as <-.
    unfold Http.get_qr_status. cbn. rewrite Hconn.
    apply String.eqb_neq in Hine. rewrite Hine. reflexivity.
Qed.

End EndpointFacts.

Lemma endpoints_after_connection_update_witness :
  let b' := Bot.bot (Bot.on_connection_update Sample.sessionsPrefix Sample.random
                       Sample.loggedOut Sample.toDataURL 6000 Sample.qr_event
                       Sample.system0) in
  (Bot.connection Sample.qr_event = Some Bot.conn_close →
     (Http.get_health b' Sample.queue0).1 = 503
     ∧ Http.get_qr_status b' = Http.mkQrStatusBody false false Http.st_generating_qr
     ∧ ∀ now' stamp req,
         truthy (Http.to req) = true →
         truthy (Http.message req) = true →
         Http.post_send_message now' stamp req b' Sample.queue0
         = (Http.failure 503 "WhatsApp not connected. Please scan QR code first.",
            Sample.queue0))
  ∧ (Bot.connection Sample.qr_event = Some Bot.conn_open →
     (Http.get_health b' Sample.queue0).1 = 200
     ∧ Http.get_qr_status b' = Http.mkQrStatusBody false true Http.st_connected)
  ∧ (Bot.connection Sample.qr_event = None →
     ∀ code image,
       Bot.qr Sample.qr_event = Some code → code ≠ EmptyString →
       Sample.toDataURL code = inr image → image ≠ EmptyString →
       Bot.isConnected (Bot.bot Sample.system0) = false →
       Http.get_qr_status b' = Http.mkQrStatusBody true false Http.st_waiting_for_scan).
Proof.
  apply (endpoints_after_connection_update Sample.sessionsPrefix Sample.random
           Sample.loggedOut Sample.toDataURL 6000 Sample.qr_event Sample.system0
           Sample.queue0).
  reflexivity.
Defined.

(** The sample QR event, and a close after it. *)
Example qr_status_trace :
  let s1 := Bot.on_connection_update Sample.sessionsPrefix Sample.random
              Sample.loggedOut Sample.toDataURL 6000 Sample.qr_event Sample.system0 in
  let s2 := Bot.on_connection_update Sample.sessionsPrefix Sample.random
              Sample.loggedOut Sample.toDataURL 7000 Sample.lost_event s1 in
  Http.body_status (Http.get_qr_status (Bot.bot Sample.system0)) = Http.st_generating_qr
  ∧ Http.body_status (Http.get_qr_status (Bot.bot s1)) = Http.st_waiting_for_scan
  ∧ Http.body_status (Http.get_qr_status (Bot.bot s2)) = Http.st_generating_qr
  ∧ (Http.get_health (Bot.bot s2) Sample.queue0).1 = 503
  ∧ (IndexJs.get_health (Bot.bot s2)).1 = 200.
Proof. repeat split. Qed.

(** ** Incoming messages and the automatic reply *)

Lemma length_substring_le (n : nat) (s : string) :
  (String.length (String.substring 0 n s) ≤ n)%nat.
Proof.
  revert s. induction n as [|n IH]; intros [|c s]; simpl; try lia.
  specialize (IH s). lia.
Qed.

Lemma length_replyText (text : string) :
  (String.length (Inbound.replyText text) ≤ 92)%nat.
Proof.
  unfold Inbound.replyText, Inbound.preview. rewrite !length_append.
  pose proof (length_substring_le 50 text).
  change (String.length "Thanks for your message! I received: ") with 37%nat.
  change (String.length Inbound.quote) with 1%nat.
  destruct (50 <? String.length text)%nat; simpl; lia.
Qed.

Lemma messageText_truthy (m : Inbound.Message) (text : string) :
  Inbound.messageText m = Some text → text ≠ EmptyString.
Proof.
  unfold Inbound.messageText.
  destruct (JsString.falsy (Inbound.conversation m)) eqn:Hc; cbn [negb].
  - destruct (JsString.falsy (Inbound.extendedText m)) eqn:He; cbn [negb];
      [discriminate|].
    intros H. rewrite H in He. cbn in He. now apply String.eqb_neq in He.
  - intros H. rewrite H in Hc. cbn in Hc. now apply String.eqb_neq in Hc.
Qed.

Section InboundFacts.
Import MessageQueue.
Variable webhookUrl : option string.

(** X14. The handler of [messages.upsert] puts at most one entry into the
    queue and makes at most one request to the webhook.  An entry is added
    only for a first message that is not the bot's own, in an update of
    type [notify], with a text that is not empty; it is addressed to the
    sender, has three attempts, sits behind everything the queue holds,
    and its text has at most 92 characters however long the incoming text
    is, while the webhook receives the whole text.  The premise, that an
    entry is being sent only while the loop runs, holds at every point at
    which the handler can run. *)
Theorem auto_reply_policy (now : Z) (is_connected : bool)
    (u : Inbound.MessageUpdate) (q : State) :
  (is_Some (item q) → processing q = true) →
  let '(q', posts) := Inbound.on_messages_upsert webhookUrl now is_connected u q in
  ∃ replies,
    pending q' = pending q ++ replies
    ∧ (length replies ≤ 1)%nat
    ∧ (length posts ≤ 1)%nat
    ∧ ∀ m rest,
        Inbound.messages u = m :: rest →
        (∀ it, it ∈ replies →
           Inbound.fromMe m = false
           ∧ Inbound.type u = "notify"
           ∧ ∃ text, Inbound.messageText m = Some text
                     ∧ text ≠ EmptyString
                     ∧ it = mkMessage (Inbound.remoteJid m) (Inbound.replyText text) 3 now
                     ∧ (String.length (Inbound.replyText text) ≤ 92)%nat)
        ∧ (∀ p, p ∈ posts →
             Inbound.messageText m = Some (Inbound.post_message p)
             ∧ Inbound.post_from p = Inbound.remoteJid m
             ∧ webhookUrl = Some (Inbound.url p)).
Proof.
  intros Hrun. unfold Inbound.on_messages_upsert.
  assert (Hnone : ∃ replies : list PendingMessage,
            pending q = pending q ++ replies ∧ (length replies ≤ 1)%nat
            ∧ (length (@nil Inbound.WebhookPost) ≤ 1)%nat
            ∧ ∀ m rest, Inbound.messages u = m :: rest →
                (∀ it, it ∈ replies →
                   Inbound.fromMe m = false ∧ Inbound.type u = "notify"
                   ∧ ∃ text, Inbound.messageText m = Some text ∧ text ≠ EmptyString
                       ∧ it = mkMessage (Inbound.remoteJid m) (Inbound.replyText text) 3 now
                       ∧ (String.length (Inbound.replyText text) ≤ 92)%nat)
                ∧ (∀ p, p ∈ @nil Inbound.WebhookPost →
                     Inbound.messageText m = Some (Inbound.post_message p)
                     ∧ Inbound.post_from p = Inbound.remoteJid m
                     ∧ webhookUrl = Some (Inbound.url p))).
  { exists []. rewrite app_nil_r. split; [done|]. split; [simpl; lia|].
    split; [simpl; lia|]. intros m rest _. split; intros x Hx; inversion Hx. }
  destruct (Inbound.messages u) as [|m rest0] eqn:Hmsgs; [exact Hnone|].
  destruct (Inbound.fromMe m) eqn:Hme; cbn [orb]; [exact Hnone|].
  destruct (String.eqb (Inbound.type u) "notify") eqn:Hty; cbn [negb]; [|exact Hnone].
  apply String.eqb_eq in Hty.
  destruct (Inbound.messageText m) as [text|] eqn:Htext; [|exact Hnone].
  clear Hnone.
  set (a := mkArrival (Inbound.remoteJid m) (Inbound.replyText text) 3 now is_connected).
  assert (Hposts :
    ∀ posts, posts = (if JsString.falsy webhookUrl then []
                      else [Inbound.mkPost (default EmptyString webhookUrl)
                              (Inbound.remoteJid m) text (Inbound.id m)]) →
      (length posts ≤ 1)%nat
      ∧ ∀ p, p ∈ posts →
          Some text = Some (Inbound.post_message p)
          ∧ Inbound.post_from p = Inbound.remoteJid m
          ∧ webhookUrl = Some (Inbound.url p)).
  { intros posts ->. destruct webhookUrl as [url|]; cbn.
    - destruct (String.eqb url EmptyString); cbn; (split; [lia|]); intros p Hp.
      + inversion Hp.
      + apply list_elem_of_singleton in Hp as ->. auto.
    - split; [lia|]. intros p Hp. inversion Hp. }
  destruct (enqueue a q) as [queued q'] eqn:Henq.
  destruct (Hposts _ eq_refl) as [Hlen Hpost].
  destruct (CONFIG.messageQueueMaxSize <=? length (queue q))%nat eqn:Hfull.
  - unfold enqueue in Henq. rewrite Hfull in Henq. injection Henq as <- <-.
    exists []. rewrite app_nil_r. split; [done|]. split; [simpl; lia|].
    split; [exact Hlen|]. intros m' rest' [= <- <-]. rewrite Htext. split; [|exact Hpost].
    intros x Hx. inversion Hx.
  - apply Nat.leb_gt in Hfull.
    destruct (enqueue_appends a q Hfull Hrun) as [_ Happ].
    rewrite Henq in Happ. cbn [snd] in Happ.
    exists [arrival_item a]. split; [exact Happ|]. split; [simpl; lia|].
    split; [exact Hlen|]. intros m' rest' [= <- <-]. rewrite Htext. split; [|exact Hpost].
    intros it Hit. apply list_elem_of_singleton in Hit as ->.
    split; [exact Hme|]. split; [exact Hty|].
    exists text. split; [reflexivity|].
    split; [now apply (messageText_truthy m)|]. split; [reflexivity|].
    apply length_replyText.
Qed.

(** X15. Where the automatic reply goes.  With the bot connected and the
    queue idle, the production handler hands the reply to the engine at
    once, addressed to [toWhatsAppJID(remoteJid)]; the handler of
    [index.js] addresses it to [remoteJid] itself.  For a sender
    [d@s.whatsapp.net] the two agree when [d] starts with 55 or has more
    than 11 digits; for any other sender the production reply goes to
    [55d@s.whatsapp.net], which is not the sender. *)
Theorem auto_reply_recipient (now : Z) (u : Inbound.MessageUpdate)
    (m : Inbound.Message) (rest : list Inbound.Message) (text d : string) :
  Inbound.messages u = m :: rest →
  Inbound.fromMe m = false →
  Inbound.type u = "notify" →
  Inbound.messageText m = Some text →
  Inbound.remoteJid m = d +:+ jid_suffix →
  JsString.strip_non_digits d = d →
  let reply := Inbound.replyText text in
  let jid :=
    (if JsString.startsWith "55" d || (11 <? String.length d)%nat then d else "55" +:+ d)
    +:+ jid_suffix in
  (Inbound.on_messages_upsert webhookUrl now true u empty_queue).1
  = mkState [] true
            (Some (mkMessage (Inbound.remoteJid m) reply 3 now, EngineCalled jid reply))
  ∧ IndexJs.on_messages_upsert u = [(Inbound.remoteJid m, reply)]
  ∧ (jid = Inbound.remoteJid m
     ↔ JsString.startsWith "55" d = true ∨ (11 < String.length d)%nat).
Proof.
  intros Hmsgs Hme Hty Htext Hjid Hd reply jid.
  assert (Hto : toWhatsAppJID (Inbound.remoteJid m) = jid).
  { subst jid. rewrite Hjid.
    destruct (JsString.startsWith "55" d) eqn:H55; cbn [orb].
    - apply toWhatsAppJID_fixed; auto.
    - destruct (11 <? String.length d)%nat eqn:Hlen.
      + apply Nat.ltb_lt in Hlen. apply toWhatsAppJID_fixed; auto.
      + apply Nat.ltb_ge in Hlen. now apply toWhatsAppJID_prefixed. }
  split; [|split].
  - unfold Inbound.on_messages_upsert. rewrite Hmsgs, Hme, Hty, Htext. cbn.
    unfold processQueue_start, loop_head, sendMessage_start. cbn.
    fold reply. now rewrite Hto.
  - unfold IndexJs.on_messages_upsert. now rewrite Hmsgs, Hme, Hty, Htext.
  - subst jid. rewrite Hjid. split.
    + destruct (JsString.startsWith "55" d) eqn:H55; [auto|]. cbn [orb].
      destruct (11 <? String.length d)%nat eqn:Hlen.
      * apply Nat.ltb_lt in Hlen. auto.
      * intros H. assert (Hlenq : String.length (("55" +:+ d) +:+ jid_suffix)
                                  = String.length (d +:+ jid_suffix)) by now rewrite H.
        rewrite !length_append in Hlenq. simpl in Hlenq. lia.
    + intros [H55 | Hlen].
      * now rewrite H55.
      * apply Nat.ltb_lt in Hlen. rewrite Hlen, orb_true_r. reflexivity.
Qed.

End InboundFacts.

Lemma auto_reply_policy_witness :
  let '(q', posts) :=
    Inbound.on_messages_upsert (Some "https://example.org/hook") 5000 true
      Sample.incoming Sample.queue1 in
  ∃ replies,
    MessageQueue.pending q' = MessageQueue.pending Sample.queue1 ++ replies
    ∧ (length replies ≤ 1)%nat
    ∧ (length posts ≤ 1)%nat
    ∧ ∀ m rest,
        Inbound.messages Sample.incoming = m :: rest →
        (∀ it, it ∈ replies →
           Inbound.fromMe m = false
           ∧ Inbound.type Sample.incoming = "notify"
           ∧ ∃ text, Inbound.messageText m = Some text
                     ∧ text ≠ EmptyString
                     ∧ it = MessageQueue.mkMessage (Inbound.remoteJid m)
                              (Inbound.replyText text) 3 5000
                     ∧ (String.length (Inbound.replyText text) ≤ 92)%nat)
        ∧ (∀ p, p ∈ posts →
             Inbound.messageText m = Some (Inbound.post_message p)
             ∧ Inbound.post_from p = Inbound.remoteJid m
             ∧ Some "https://example.org/hook" = Some (Inbound.url p)).
Proof.
  apply (auto_reply_policy (Some "https://example.org/hook") 5000 true
           Sample.incoming Sample.queue1).
  intros _. reflexivity.
Defined.

Lemma auto_reply_recipient_witness :
  let reply := Inbound.replyText "Hello" in
  let jid :=
    (if JsString.startsWith "55" "14155550100"
        || (11 <? String.length "14155550100")%nat
     then "14155550100" else "55" +:+ "14155550100")
    +:+ jid_suffix in
  (Inbound.on_messages_upsert None 5000 true Sample.incoming_foreign
     MessageQueue.empty_queue).1
  = MessageQueue.mkState [] true
      (Some (MessageQueue.mkMessage "14155550100@s.whatsapp.net" reply 3 5000,
             MessageQueue.EngineCalled jid reply))
  ∧ IndexJs.on_messages_upsert Sample.incoming_foreign
    = [("14155550100@s.whatsapp.net", reply)]
  ∧ (jid = "14155550100@s.whatsapp.net"
     ↔ JsString.startsWith "55" "14155550100" = true
       ∨ (11 < String.length "14155550100")%nat).
Proof.
  apply (auto_reply_recipient None 5000 Sample.incoming_foreign
           (Inbound.mkMessage false "14155550100@s.whatsapp.net" "3EB0C8"
                              (Some "Hello") None)
           [] "Hello" "14155550100"); reflexivity.
Defined.

(** The reply to the sample message of a number without the country code
    55 is addressed to another number. *)
Example auto_reply_foreign_sender :
  MessageQueue.item
    (Inbound.on_messages_upsert None 5000 true Sample.incoming_foreign
       MessageQueue.empty_queue).1
  = Some (MessageQueue.mkMessage "14155550100@s.whatsapp.net"
            (Inbound.replyText "Hello") 3 5000,
          MessageQueue.EngineCalled "5514155550100@s.whatsapp.net"
            (Inbound.replyText "Hello")).
Proof. reflexivity. Qed.

(** ** Start and shutdown *)

Lemma delete_file_lookup (name k : string) (b : gmap string Storage.Blob) :
  (Storage.delete_file name b).2 !! k = if decide (k = name) then None else b !! k.
Proof.
  unfold Storage.delete_file.
  destruct (b !! name) eqn:Hl; cbn;
    destruct (decide (k = name)) as [->|Hne];
    rewrite ?lookup_delete_eq, ?lookup_delete_ne by congruence; done.
Qed.

Section Lifecycle.
Import Storage Bot.
Variable sessionsPrefix : string.
Variable instanceId : string.
Variable Date_now : nat → Z.
Variable random : Z → Q.
Variable engine_saveCreds : World → World.

Local Abbreviation lockFile := (SessionLock.lockFile sessionsPrefix).
Local Abbreviation initialize :=
  (Bot.initialize sessionsPrefix instanceId Date_now random).
Local Abbreviation shutdown := (Bot.shutdown sessionsPrefix random engine_saveCreds).

(** [acquireLock()] returns a boolean and touches the lock object only. *)
Lemma acquireLock_frame (w : World) :
  ∃ ok w' tr,
    SessionLock.acquireLock sessionsPrefix instanceId Date_now w
    = Some (Returned ok, w', tr)
    ∧ sessionDir w' = sessionDir w
    ∧ ∀ name, name ≠ lockFile → bucket w' !! name = bucket w !! name.
Proof.
  unfold SessionLock.acquireLock.
  destruct (bucket w !! lockFile) as [[held|content]|] eqn:Hlock.
  - destruct (Z_le_gt_dec (Date_now (S (ticks w)) - timestamp held) (ttl held)).
    + rewrite (acquireLock_fuel_held _ _ _ 1 w held) by assumption.
      eexists _, _, _. split; [reflexivity|]. cbn. auto.
    + rewrite (acquireLock_fuel_stale _ _ _ 0 w held) by assumption.
      eexists _, _, _. split; [reflexivity|]. cbn. split; [reflexivity|].
      intros name Hne. now apply lookup_insert_ne.
  - rewrite (acquireLock_fuel_invalid _ _ _ 0 w content) by assumption.
    eexists _, _, _. split; [reflexivity|]. cbn. split; [reflexivity|].
    intros name Hne. now apply lookup_insert_ne.
  - rewrite (acquireLock_fuel_absent _ _ _ 1 w) by assumption.
    eexists _, _, _. split; [reflexivity|]. cbn. split; [reflexivity|].
    intros name Hne. now apply lookup_insert_ne.
Qed.

(** [initialize()] runs the download on the world that [acquireLock()]
    left, and ends by creating the socket. *)
Lemma initialize_unfold (s : System) :
  ∃ ok w1 tr d,
    SessionLock.acquireLock sessionsPrefix instanceId Date_now (world s)
    = Some (Returned ok, w1, tr)
    ∧ SessionStore.download_operation sessionsPrefix (fs_mkdir w1)
      = (inr tt, mkWorld (bucket w1) (Some d) (ticks w1))
    ∧ (∀ rel,
          d !! rel
          = match bucket (world s) !! (sessionsPrefix +:+ rel) with
            | Some c =>
                if negb (String.eqb rel EmptyString)
                   && negb (JsString.endsWith "lock.json" (sessionsPrefix +:+ rel))
                then Some c else default ∅ (sessionDir (world s)) !! rel
            | None => default ∅ (sessionDir (world s)) !! rel
            end)
    ∧ initialize s
      = mkSystem (mkBot true (isConnected (bot s)) true (isShuttingDown (bot s))
                        (lastQRTime (bot s)) (qrCodeBase64 (bot s)))
                 (mkWorld (bucket w1) (Some d) (ticks w1))
                 (timers s)
                 ((if ok then actions s else actions s ++ [WarnNoLock])
                  ++ [SocketCreated]).
Proof.
  destruct (acquireLock_frame (world s)) as (ok & w1 & tr & Hacq & Hdir & Hframe).
  destruct (download_operation_spec sessionsPrefix (fs_mkdir w1)) as (d & Hdown & Hd).
  assert (Hmk : bucket (fs_mkdir w1) = bucket w1
                ∧ ticks (fs_mkdir w1) = ticks w1
                ∧ default ∅ (sessionDir (fs_mkdir w1)) = default ∅ (sessionDir w1)).
  { unfold fs_mkdir. destruct (sessionDir w1) eqn:E; cbn; rewrite ?E; auto. }
  destruct Hmk as (Hb & Ht & Hold). rewrite Hb, Ht in Hdown.
  exists ok, w1, tr, d. split; [exact Hacq|]. split; [exact Hdown|]. split.
  - intros rel. rewrite Hd, Hb, Hold, Hdir.
    destruct (JsString.endsWith "lock.json" (sessionsPrefix +:+ rel)) eqn:Hs.
    + rewrite andb_false_r.
      now destruct (bucket w1 !! _), (bucket (world s) !! _).
    + rewrite Hframe; [reflexivity|].
      intros Heq. unfold SessionLock.lockFile in Heq. rewrite Heq in Hs.
      now rewrite endsWith_append in Hs.
  - unfold Bot.initialize. rewrite Hacq.
    assert (Hstep : ∀ a : System,
              world (match (Returned ok : Outcome bool) with
                     | Returned true => a
                     | _ => act WarnNoLock a
                     end) = world a)
      by (intros a; now destruct ok).
    cbn [set_world world]. rewrite Hstep. cbn [world set_world].
    unfold SessionStore.downloadSessionFromBucket.
    rewrite (withRetry_first_success _ "downloadSessionFromBucket" CONFIG.maxRetries
               random _ _ _ ltac:(done) Hdown).
    destruct ok; reflexivity.
Qed.

(** X18. [initialize()] in a reliable store.  Whether or not the lock was
    obtained, it restores the session and creates the socket, and it
    schedules no retry.  The session directory afterwards is what the
    download makes of the bucket as it was before the call: the lock
    object, written or not, is never taken for a session file. *)
Theorem initialize_restores_session (s : System) :
  let s' := initialize s in
  timers s' = timers s
  ∧ saveCreds (bot s') = true
  ∧ sock (bot s') = true
  ∧ last (actions s') = Some SocketCreated
  ∧ ∃ d,
      sessionDir (world s') = Some d
      ∧ ∀ rel,
          d !! rel
          = match bucket (world s) !! (sessionsPrefix +:+ rel) with
            | Some c =>
                if negb (String.eqb rel EmptyString)
                   && negb (JsString.endsWith "lock.json" (sessionsPrefix +:+ rel))
                then Some c else default ∅ (sessionDir (world s)) !! rel
            | None => default ∅ (sessionDir (world s)) !! rel
            end.
Proof.
  cbn zeta.
  destruct (initialize_unfold s) as (ok & w1 & tr & d & _ & _ & Hd & ->).
  cbn. repeat (split; [reflexivity|]).
  split; [apply last_snoc|]. exists d. split; [reflexivity | exact Hd].
Qed.

Lemma shutdown_lock_absent (s : System) :
  bucket (world (shutdown s)) !! lockFile = None.
Proof.
  unfold Bot.shutdown. cbn [bot set_bot saveCreds sock world].
  destruct (saveCreds (bot s)).
  - destruct (upload_operation_spec sessionsPrefix (engine_saveCreds (world s)))
      as (b' & Hup & _).
    unfold SessionStore.uploadSessionToBucket.
    rewrite (withRetry_first_success _ "uploadSessionToBucket" CONFIG.maxRetries
               random _ _ _ ltac:(done) Hup).
    cbn. destruct (sock (bot s)); cbn;
      rewrite delete_file_lookup; now rewrite decide_True.
  - cbn. destruct (sock (bot s)); cbn;
      rewrite delete_file_lookup; now rewrite decide_True.
Qed.

(** X19. [shutdown()] in a reliable store: the flag is set, the timers
    are left alone, the socket is ended when there is one, and the lock
    object is gone afterwards whether or not this instance held it.  When
    credentials were being saved, every file of the session directory
    other than [lock.json] is in the bucket under the prefix; otherwise no
    object other than the lock is touched. *)
Theorem shutdown_saves_and_releases (s : System) :
  let s' := shutdown s in
  isShuttingDown (bot s') = true
  ∧ timers s' = timers s
  ∧ actions s' = actions s ++ (if sock (bot s) then [SocketEnded] else [])
  ∧ bucket (world s') !! lockFile = None
  ∧ if saveCreds (bot s) then
      ∀ files rel c,
        sessionDir (engine_saveCreds (world s)) = Some files →
        files !! rel = Some c → rel ≠ "lock.json" →
        bucket (world s') !! (sessionsPrefix +:+ rel) = Some c
    else
      ∀ name, name ≠ lockFile → bucket (world s') !! name = bucket (world s) !! name.
Proof.
  cbn zeta.
  split; [|split; [|split; [|split; [apply shutdown_lock_absent|]]]].
  all: unfold Bot.shutdown; cbn [bot set_bot saveCreds sock world isShuttingDown].
  all: destruct (saveCreds (bot s)) eqn:Hsave.
  all: try (destruct (upload_operation_spec sessionsPrefix (engine_saveCreds (world s)))
              as (b' & Hup & Hlook);
            unfold SessionStore.uploadSessionToBucket;
            rewrite (withRetry_first_success _ "uploadSessionToBucket" CONFIG.maxRetries
                       random _ _ _ ltac:(done) Hup)).
  all: cbn.
  1-6: destruct (sock (bot s)); cbn; rewrite ?app_nil_r; reflexivity.
  - intros files rel c Hdir Hrel Hne.
    assert (Hgoal : (delete_file lockFile b').2 !! (sessionsPrefix +:+ rel) = Some c).
    { rewrite delete_file_lookup, decide_False.
      - rewrite Hlook, Hdir, startsWith_append, slice_append, Hrel. reflexivity.
      - unfold SessionLock.lockFile. intros H%append_inj. contradiction. }
    destruct (sock (bot s)); cbn; exact Hgoal.
  - intros name Hne.
    destruct (sock (bot s)); cbn; rewrite delete_file_lookup; now rewrite decide_False.
Qed.

(** X20. An instance that was refused the lock still releases it.  When
    [initialize()] finds the lock of another instance that has not
    expired, it goes on without the lock and leaves the holder's record in
    place; its [shutdown()] then deletes that record, and a third
    instance obtains the lock at its first attempt although the holder's
    TTL has not run out. *)
Theorem refused_instance_releases_holders_lock (s : System) (held : LockRecord)
    (third : string) :
  bucket (world s) !! lockFile = Some (LockJson held) →
  Date_now (S (ticks (world s))) - timestamp held ≤ ttl held →
  let s1 := initialize s in
  let s2 := shutdown s1 in
  actions s1 = actions s ++ [WarnNoLock; SocketCreated]
  ∧ bucket (world s1) !! lockFile = Some (LockJson held)
  ∧ bucket (world s2) !! lockFile = None
  ∧ ∃ w3, SessionLock.acquireLock sessionsPrefix third Date_now (world s2)
          = Some (Returned true, w3, [SessionLock.SaveAttempt true]).
Proof.
  intros Hheld Hage. cbn zeta.
  split; [now apply (initialize_without_lock _ _ _ _ s held)|].
  split; [|split; [apply shutdown_lock_absent|]].
  - unfold Bot.initialize, SessionLock.acquireLock.
    rewrite (acquireLock_fuel_held _ _ _ 1 (world s) held Hheld Hage). cbn.
    destruct (downloadSessionFromBucket_spec sessionsPrefix random
                (fs_mkdir (mkWorld (bucket (world s)) (sessionDir (world s))
                                   (S (S (S (ticks (world s))))))))
      as (w' & -> & Hb & _).
    cbn. rewrite Hb. unfold fs_mkdir. cbn.
    now destruct (sessionDir (world s)).
  - unfold SessionLock.acquireLock.
    rewrite acquireLock_fuel_absent by apply shutdown_lock_absent.
    eexists. reflexivity.
Qed.

(** X24. The session survives a restart.  After the handler of
    [creds.update] has run, an instance that starts on the same bucket,
    whatever its own session directory holds, finds each file of the old
    session directory restored with its content by [initialize()], unless
    the name of its object ends in ["lock.json"]: such a file keeps
    whatever the new instance had under that path. *)
Theorem session_survives_restart (s fresh : System) (files : gmap string Blob)
    (rel : string) (c : Blob) :
  sessionDir (engine_saveCreds (world s)) = Some files →
  files !! rel = Some c →
  rel ≠ EmptyString →
  bucket (world fresh)
  = bucket (world (Bot.on_creds_update sessionsPrefix random engine_saveCreds s)) →
  ∃ d,
    sessionDir (world (initialize fresh)) = Some d
    ∧ d !! rel = if JsString.endsWith "lock.json" (sessionsPrefix +:+ rel)
                 then default ∅ (sessionDir (world fresh)) !! rel
                 else Some c.
Proof.
  intros Hdir Hrel Hne Hfresh.
  unfold Bot.on_creds_update in Hfresh.
  destruct (upload_operation_spec sessionsPrefix (engine_saveCreds (world s)))
    as (b' & Hup & Hlook).
  unfold SessionStore.uploadSessionToBucket in Hfresh.
  rewrite (withRetry_first_success _ "uploadSessionToBucket" CONFIG.maxRetries
             random _ _ _ ltac:(done) Hup) in Hfresh.
  cbn in Hfresh.
  destruct (initialize_unfold fresh) as (ok & w1 & tr & d & _ & _ & Hd & ->).
  exists d. split; [reflexivity|].
  rewrite Hd, Hfresh, Hlook, Hdir, startsWith_append, slice_append, Hrel.
  apply String.eqb_neq in Hne. rewrite Hne. cbn [negb andb].
  now destruct (JsString.endsWith _ _).
Qed.

End Lifecycle.

Lemma session_survives_restart_witness :
  ∃ d,
    Storage.sessionDir
      (Bot.world
         (Bot.initialize Sample.sessionsPrefix "instance-2" Sample.Date_now Sample.random
            (Bot.mkSystem Bot.new_bot
               (Storage.fs_rm
                  (Bot.world (Bot.on_creds_update Sample.sessionsPrefix Sample.random
                                Sample.engine_saveCreds Sample.system0)))
               [] [])))
    = Some d
    ∧ d !! "creds.json"
      = if JsString.endsWith "lock.json" (Sample.sessionsPrefix +:+ "creds.json")
        then default ∅
               (Storage.sessionDir
                  (Bot.world
                     (Bot.mkSystem Bot.new_bot
                        (Storage.fs_rm
                           (Bot.world (Bot.on_creds_update Sample.sessionsPrefix
                                         Sample.random Sample.engine_saveCreds
                                         Sample.system0)))
                        [] []))) !! "creds.json"
        else Some (Storage.Bytes "creds").
Proof.
  apply (session_survives_restart Sample.sessionsPrefix "instance-2" Sample.Date_now
           Sample.random Sample.engine_saveCreds Sample.system0
           (Bot.mkSystem Bot.new_bot
              (Storage.fs_rm
                 (Bot.world (Bot.on_creds_update Sample.sessionsPrefix Sample.random
                               Sample.engine_saveCreds Sample.system0)))
              [] [])
           Sample.local "creds.json" (Storage.Bytes "creds")).
  - reflexivity.
  - reflexivity.
  - discriminate.
  - reflexivity.
Defined.

Lemma refused_instance_releases_holders_lock_witness :
  let s1 := Bot.initialize Sample.sessionsPrefix "instance-2" Sample.Date_now
              Sample.random (Bot.mkSystem Bot.new_bot Sample.world_locked [] []) in
  let s2 := Bot.shutdown Sample.sessionsPrefix Sample.random Sample.engine_saveCreds s1 in
  Bot.actions s1 = [] ++ [Bot.WarnNoLock; Bot.SocketCreated]
  ∧ Storage.bucket (Bot.world s1) !! SessionLock.lockFile Sample.sessionsPrefix
    = Some (Storage.LockJson (Storage.mkLock "instance-1" (Sample.Date_now 2)
                                             CONFIG.lockTtlMs))
  ∧ Storage.bucket (Bot.world s2) !! SessionLock.lockFile Sample.sessionsPrefix = None
  ∧ ∃ w3, SessionLock.acquireLock Sample.sessionsPrefix "instance-3" Sample.Date_now
            (Bot.world s2)
          = Some (Returned true, w3, [SessionLock.SaveAttempt true]).
Proof.
  apply (refused_instance_releases_holders_lock Sample.sessionsPrefix "instance-2"
           Sample.Date_now Sample.random Sample.engine_saveCreds
           (Bot.mkSystem Bot.new_bot Sample.world_locked [] [])
           (Storage.mkLock "instance-1" (Sample.Date_now 2) CONFIG.lockTtlMs)
           "instance-3").
  - reflexivity.
  - vm_compute. discriminate.
Defined.

(** ** [index.js]: clearing the session and the send endpoint *)

(** X21. [clearSessionFromBucket] of [index.js]: without a bucket it does
    nothing; with one, a single run of the operation removes every object
    whose name starts with the prefix, the lock object of the production
    server among them, and leaves every other object as it is. *)
Theorem IndexJs_clear_deletes_prefix (sessionsPrefix : string)
    (b : gmap string Storage.Blob) :
  IndexJs.clearSessionFromBucket sessionsPrefix None = (ReturnedUndefined, None)
  ∧ ∃ b',
      IndexJs.clearSessionFromBucket sessionsPrefix (Some b)
      = (ReturnedUndefined, Some b')
      ∧ (∀ name, b' !! name
                 = if JsString.startsWith sessionsPrefix name then None else b !! name)
      ∧ b' !! SessionLock.lockFile sessionsPrefix = None.
Proof.
  split; [reflexivity|].
  destruct (delete_each_present (Storage.getFiles sessionsPrefix b) b)
    as (b' & Hrun & Hlook).
  { apply getFiles_NoDup. }
  { intros name Hin. now apply getFiles_spec in Hin. }
  assert (Hspec : ∀ name, b' !! name
                  = if JsString.startsWith sessionsPrefix name then None else b !! name).
  { intros name. rewrite Hlook.
    destruct (JsString.startsWith sessionsPrefix name) eqn:Hp.
    - destruct (b !! name) as [c|] eqn:Hc.
      + rewrite decide_True; [reflexivity|]. apply getFiles_spec. eauto.
      + now destruct (decide _).
    - rewrite decide_False; [reflexivity|].
      intros [Hp' _]%getFiles_spec. congruence. }
  exists b'. split; [|split; [exact Hspec|]].
  - unfold IndexJs.clearSessionFromBucket, IndexJs.withRetry.
    change (Z.to_nat IndexJs.maxRetries) with 3%nat.
    cbn [IndexJs.withRetry_loop].
    change (1 <=? IndexJs.maxRetries) with true. cbv iota.
    unfold IndexJs.clear_operation. now rewrite Hrun.
  - rewrite Hspec. unfold SessionLock.lockFile. now rewrite startsWith_append.
Qed.

(** X22. [POST /send-message] of [index.js].  The answer is 200, 400, 503
    or 500.  It is 200 exactly when both fields are present and truthy,
    the bot is connected with a socket, the recipient is a string and the
    send returned a message id, which the body repeats together with the
    normalised recipient; it is 500 exactly when the checks passed and the
    send failed or the recipient is not a string.  [success] is [true]
    exactly in the 200 answer, and every other answer carries an error
    text that is not empty. *)
Theorem IndexJs_post_send_message_contract (req : Http.Request) (b : Bot.Bot)
    (sent : JsError + string) :
  let r := IndexJs.post_send_message req b sent in
  (IndexJs.status r = 200 ∨ IndexJs.status r = 400
   ∨ IndexJs.status r = 503 ∨ IndexJs.status r = 500)
  ∧ (IndexJs.status r = 200
     ↔ truthy (Http.to req) = true
       ∧ truthy (Http.message req) = true
       ∧ Bot.isConnected b = true ∧ Bot.sock b = true
       ∧ is_string (Http.to req) = true
       ∧ ∃ messageId, sent = inr messageId)
  ∧ (IndexJs.status r = 500
     ↔ truthy (Http.to req) = true
       ∧ truthy (Http.message req) = true
       ∧ Bot.isConnected b = true ∧ Bot.sock b = true
       ∧ ((∃ error, sent = inl error) ∨ is_string (Http.to req) = false))
  ∧ (IndexJs.body_success r = true ↔ IndexJs.status r = 200)
  ∧ (∀ messageId t, sent = inr messageId → Http.to req = JsStr t →
       IndexJs.status r = 200 →
       IndexJs.body_messageId r = Some messageId
       ∧ IndexJs.body_to r = Some (toWhatsAppJID t))
  ∧ (IndexJs.status r ≠ 200 →
       ∃ e, IndexJs.body_error r = Some e ∧ e ≠ EmptyString).
Proof.
  cbn zeta. unfold IndexJs.post_send_message.
  assert (Hcaught : ∀ error,
            IndexJs.status (IndexJs.caught error) = 500
            ∧ IndexJs.body_success (IndexJs.caught error) = false
            ∧ ∃ e, IndexJs.body_error (IndexJs.caught error) = Some e ∧ e ≠ EmptyString).
  { intros error. unfold IndexJs.caught. cbn. split; [reflexivity|]. split; [reflexivity|].
    destruct (String.eqb (message error) EmptyString) eqn:Hmsg;
      eexists; (split; [reflexivity|]); [discriminate | now apply String.eqb_neq]. }
  assert (Hcall : (∃ t, Http.to req = JsStr t ∧ is_string (Http.to req) = true
                        ∧ call_toWhatsAppJID (Http.to req) = inr (toWhatsAppJID t))
                  ∨ (∃ error, is_string (Http.to req) = false
                              ∧ call_toWhatsAppJID (Http.to req) = inl error)).
  { destruct (Http.to req); cbn; eauto. }
  destruct (truthy (Http.to req)), (truthy (Http.message req)),
    (Bot.isConnected b), (Bot.sock b); cbn [negb orb IndexJs.status IndexJs.body_success
                                              IndexJs.body_error IndexJs.body_messageId
                                              IndexJs.body_to].
  2-16: repeat split; intros;
    repeat match goal with
      | H : _ ∧ _ |- _ => destruct H
      | H : ∃ _, _ |- _ => destruct H
      end; try tauto; try discriminate; try lia;
    try (eexists; split; [reflexivity | discriminate]).
  destruct sent as [error|messageId].
  - destruct (Hcaught error) as (Hs & Hb & He). rewrite Hs, Hb.
    repeat split; intros;
      repeat match goal with
        | H : _ ∧ _ |- _ => destruct H
        | H : ∃ _, _ |- _ => destruct H
        end; try tauto; try discriminate; try lia; eauto.
  - destruct Hcall as [(t & Hto & Hstr & ->) | (error & Hstr & ->)]; rewrite Hstr.
    + cbn. repeat split; intros;
        repeat match goal with
          | H : _ ∧ _ |- _ => destruct H
          | H : ∃ _, _ |- _ => destruct H
          | H : _ ∨ _ |- _ => destruct H
          end; try tauto; try discriminate; try lia; eauto; try congruence.
    + destruct (Hcaught error) as (Hs & Hb & He). rewrite Hs, Hb.
      repeat split; intros;
        repeat match goal with
          | H : _ ∧ _ |- _ => destruct H
          | H : ∃ _, _ |- _ => destruct H
          end; try tauto; try discriminate; try lia; eauto; try congruence.
Qed.

(** ** Listing the session directory *)

Section LocalFsFacts.
Import LocalFs.

Lemma Entry_forall_ind (P : Entry → Prop) :
  (∀ name, P (File name)) →
  (∀ name entries, Forall P entries → P (Directory name entries)) →
  ∀ e, P e.
Proof.
  intros HF HD. fix IH 1. intros [name|name entries]; [apply HF|].
  apply HD. induction entries as [|e entries IHl]; constructor; [apply IH | exact IHl].
Qed.

Lemma first_segment_plain name :
  JsString.includes "/" name = false → first_segment name = name.
Proof.
  induction name as [|c r IH]; [reflexivity|].
  cbn [JsString.includes first_segment].
  destruct (Ascii.eqb "/" c); [discriminate|]. intros H. now rewrite IH.
Qed.

Lemma first_segment_join name rel :
  JsString.includes "/" name = false → first_segment (path_join name rel) = name.
Proof.
  unfold path_join. induction name as [|c r IH]; [reflexivity|].
  rewrite append_cons. cbn [JsString.includes first_segment].
  destruct (Ascii.eqb "/" c); [discriminate|]. intros H. now rewrite IH.
Qed.

Lemma files_of_first_segment e path :
  well_formed e → path ∈ files_of e → first_segment path = name_of e.
Proof.
  intros Hwf Hin. destruct Hwf as [name Hname | name entries Hname _ _]; simpl in *.
  - apply list_elem_of_singleton in Hin as ->. now apply first_segment_plain.
  - apply list_elem_of_fmap in Hin as (rel & -> & _). now apply first_segment_join.
Qed.

Lemma path_join_inj name : Inj (=) (=) (path_join name).
Proof. intros a b H. unfold path_join in H. now apply append_inj, append_inj in H. Qed.

Lemma flat_map_files_NoDup (entries : list Entry) :
  Forall well_formed entries →
  NoDup (name_of <$> entries) →
  Forall (λ e, NoDup (files_of e)) entries →
  NoDup (flat_map files_of entries).
Proof.
  induction entries as [|e entries IH]; intros Hwf Hnames Hnd; [constructor|].
  apply Forall_cons in Hwf as [Hwf Hwfs].
  apply Forall_cons in Hnd as [Hnd Hnds].
  rewrite fmap_cons in Hnames. apply NoDup_cons in Hnames as [Hname Hnames].
  simpl. apply NoDup_app. split; [exact Hnd|]. split; [|now apply IH].
  intros path Hin Hin'. apply list_elem_of_In, in_flat_map in Hin' as (e' & He' & Hp).
  apply list_elem_of_In in He', Hp.
  apply Hname. apply list_elem_of_fmap. exists e'. split; [|exact He'].
  rewrite <- (files_of_first_segment e path Hwf Hin).
  apply files_of_first_segment; [|exact Hp].
  rewrite Forall_forall in Hwfs. now apply Hwfs.
Qed.

Lemma files_of_NoDup e : well_formed e → NoDup (files_of e).
Proof.
  induction e as [name | name entries IH] using Entry_forall_ind; intros Hwf.
  - apply NoDup_singleton.
  - inversion Hwf as [|? ? Hname Hnames Hwfs]; subst. simpl.
    apply (NoDup_fmap_2 _), flat_map_files_NoDup; [exact Hwfs | exact Hnames |].
    rewrite Forall_forall in IH, Hwfs. apply Forall_forall. intros e He. auto.
Qed.

Lemma files_of_length e : length (files_of e) = count_files e.
Proof.
  induction e as [name | name entries IH] using Entry_forall_ind; [reflexivity|].
  simpl. rewrite length_fmap.
  induction IH as [|e entries He _ IHl]; [reflexivity|].
  simpl. rewrite length_app, He, IHl. reflexivity.
Qed.

(** X23. [listLocalFiles] on a directory tree whose names contain no
    slash and are distinct within each directory: no path is listed
    twice, so no two uploads write the same object; the number of paths is
    the number of files, so directories, empty ones included, contribute
    nothing of their own; every path begins with the name of an entry of
    the directory; and a directory that does not exist gives the empty
    list. *)
Theorem listLocalFiles_distinct_paths (entries : list Entry) :
  Forall well_formed entries →
  NoDup (name_of <$> entries) →
  NoDup (listLocalFiles (Some entries))
  ∧ length (listLocalFiles (Some entries)) = list_sum (map count_files entries)
  ∧ (∀ path, path ∈ listLocalFiles (Some entries) →
             first_segment path ∈ name_of <$> entries)
  ∧ listLocalFiles None = [].
Proof.
  intros Hwf Hnames. simpl. split; [|split; [|split; [|reflexivity]]].
  - apply flat_map_files_NoDup; [exact Hwf | exact Hnames |].
    rewrite Forall_forall in Hwf. apply Forall_forall.
    intros e He. now apply files_of_NoDup, Hwf.
  - clear Hwf Hnames. induction entries as [|e entries IH]; [reflexivity|].
    simpl. now rewrite length_app, files_of_length, IH.
  - intros path Hin. apply list_elem_of_In, in_flat_map in Hin as (e & He & Hp).
    apply list_elem_of_In in He, Hp.
    apply list_elem_of_fmap. exists e. split; [|exact He].
    apply files_of_first_segment; [|exact Hp].
    rewrite Forall_forall in Hwf. now apply Hwf.
Qed.

End LocalFsFacts.

Lemma listLocalFiles_distinct_paths_witness :
  NoDup (LocalFs.listLocalFiles (Some Sample.session_tree))
  ∧ length (LocalFs.listLocalFiles (Some Sample.session_tree))
    = list_sum (map LocalFs.count_files Sample.session_tree)
  ∧ (∀ path, path ∈ LocalFs.listLocalFiles (Some Sample.session_tree) →
             LocalFs.first_segment path ∈ LocalFs.name_of <$> Sample.session_tree)
  ∧ LocalFs.listLocalFiles None = [].
Proof.
  apply (listLocalFiles_distinct_paths Sample.session_tree).
  - unfold Sample.session_tree.
    repeat first
      [ apply Forall_nil_2
      | apply Forall_cons_2
      | apply LocalFs.wf_file; reflexivity
      | apply LocalFs.wf_directory; [reflexivity | |]
      | refine (bool_decide_unpack _ _); vm_compute; exact I ].
  - refine (bool_decide_unpack _ _). vm_compute. exact I.
Defined.

Example listLocalFiles_sample :
  LocalFs.listLocalFiles (Some Sample.session_tree)
  = ["creds.json"; "keys/pre-key-1.json"; "keys/pre-key-2.json"].
Proof. reflexivity. Qed.
